(** * frosty-quill: the content codec and the editor adapter of [src/quill/index.tsx]

    A shallow embedding of the line/segment document model, of the
    conversion between [Line[]] and the editing engine's [Delta], and of the
    lifecycle callbacks of [QuillEditor], with the properties of the
    specification stated and settled over it. *)

From Stdlib Require Import Ascii String.
From stdpp Require Import base option list gmap strings.

Open Scope string_scope.
Open Scope list_scope.

(** ** Data model *)

(** The values held by attribute maps and by embedded objects
    ([Record<string, any>] in the source): a JSON-like scalar, or a member of
    [Object.prototype], known by its name.  Such a member is what a property
    lookup on a plain object gives for a name like [toString] that the object
    does not define itself: a function, or for [__proto__] the prototype.
    It is not a string and it is truthy; [cloneDeep] in [Delta.push] keeps a
    function held by an object as it is, and copies the prototype to an
    object that [isEqual] does not tell from it. *)
Inductive JValue : Type :=
  | JStr (s : string)
  | JNum (n : Z)
  | JBool (b : bool)
  | JNull
  | JInherited (name : string).

#[global] Instance JValue_eq_dec : EqDecision JValue.
Proof. solve_decision. Defined.

(** Attribute maps and embedded objects are JavaScript objects used as
    string-keyed maps. *)
Abbreviation AttributeMap := (gmap string JValue).

(** The test [if (value)]. *)
Definition truthy (v : JValue) : bool :=
  match v with
  | JStr s => negb (bool_decide (s = EmptyString))
  | JNum n => negb (Z.eqb n 0)
  | JBool b => b
  | JNull => false
  | JInherited _ => true
  end.

(** The names [Object.prototype] defines. *)
Definition Object_prototype : list string :=
  [ "constructor"; "__defineGetter__"; "__defineSetter__"; "hasOwnProperty";
    "__lookupGetter__"; "__lookupSetter__"; "isPrototypeOf";
    "propertyIsEnumerable"; "toString"; "valueOf"; "__proto__";
    "toLocaleString" ].

(** [object[key]] on a plain object with the own properties [object], as an
    object literal or [JSON.parse] makes it: the own property if there is
    one, else the member of [Object.prototype] of that name, else
    [undefined]. *)
Definition get_property (object : gmap string string) (key : string) : option JValue :=
  match object !! key with
  | Some s => Some (JStr s)
  | None =>
      if bool_decide (key ∈ Object_prototype) then Some (JInherited key) else None
  end.

(** What an insert carries: text, or an embedded object such as
    [{ image: uri }]. *)
Inductive InsertValue : Type :=
  | IText (s : string)
  | IEmbed (e : gmap string JValue).

#[global] Instance InsertValue_eq_dec : EqDecision InsertValue.
Proof. solve_decision. Defined.

(** Modelled from the spec: the declarations of [Segment] and [Line] are
    imported from [./types] and are not part of the source tree.  A segment
    is a run of inserted content plus inline formatting attributes; a line is
    an ordered sequence of segments plus a map of block-level attributes. *)
Record Segment : Type := mkSegment {
  seg_insert : InsertValue;
  seg_attributes : AttributeMap;
}.

Record Line : Type := mkLine {
  line_segments : list Segment;
  line_attributes : AttributeMap;
}.

#[global] Instance Segment_eq_dec : EqDecision Segment.
Proof. solve_decision. Defined.

#[global] Instance Line_eq_dec : EqDecision Line.
Proof. solve_decision. Defined.

(** An operation of the engine's Delta: an object with an [insert], a
    [retain] or a [delete] field and an optional [attributes] field. *)
Inductive Op : Type :=
  | OpInsert (i : InsertValue) (a : option AttributeMap)
  | OpRetain (n : nat) (a : option AttributeMap)
  | OpDelete (n : nat).

#[global] Instance Op_eq_dec : EqDecision Op.
Proof. solve_decision. Defined.

Definition op_insert (op : Op) : option InsertValue :=
  match op with
  | OpInsert i _ => Some i
  | _ => None
  end.

Definition op_attributes (op : Op) : option AttributeMap :=
  match op with
  | OpInsert _ a => a
  | OpRetain _ a => a
  | OpDelete _ => None
  end.

(** A Delta is its array of operations. *)
Abbreviation Delta := (list Op).

(** The line feed, ['\n'] in the source. *)
Definition nl : ascii := ascii_of_nat 10.
Definition newline : string := String nl EmptyString.

(** ** The engine's [Delta.insert]

    [Delta] is the class of the quill-delta package.  Its [insert] and [push]
    methods decide what [encodeContent] builds, so they are transcribed here:
    an empty string is not inserted, an empty attribute object is left out of
    the operation, and an operation pushed after one of the same kind with
    equal attributes is merged into it. *)

(** The merged operation when [newOp] can be folded into [lastOp]. *)
Definition try_merge (lastOp newOp : Op) : option Op :=
  if decide (op_attributes newOp = op_attributes lastOp) then
    match newOp, lastOp with
    | OpInsert (IText s2) a2, OpInsert (IText s1) _ =>
        Some (OpInsert (IText (s1 +:+ s2)) a2)
    | OpRetain n2 a2, OpRetain n1 _ => Some (OpRetain (n1 + n2) a2)
    | _, _ => None
    end
  else None.

(** [newOp] placed at index [length front] of [front ++ back]: merged into
    the operation before it, or spliced in. *)
Definition place (front back : Delta) (newOp : Op) : Delta :=
  match reverse front with
  | lastOp :: rfront =>
      match try_merge lastOp newOp with
      | Some merged => reverse rfront ++ merged :: back
      | None => front ++ newOp :: back
      end
  | [] => front ++ newOp :: back
  end.

(** [push]: [lastOp] is the last operation of [ops]. *)
Definition Delta_push (ops : Delta) (newOp : Op) : Delta :=
  match reverse ops with
  | [] => [newOp]
  | lastOp :: rfront =>
      match newOp, lastOp with
      | OpDelete n, OpDelete m => reverse rfront ++ [OpDelete (m + n)]
      | OpInsert _ _, OpDelete _ =>
          (* an insert goes before a trailing delete *)
          match rfront with
          | [] => newOp :: ops
          | _ => place (reverse rfront) [lastOp] newOp
          end
      | _, _ => place ops [] newOp
      end
  end.

(** [insert(arg, attributes)] *)
Definition Delta_insert (ops : Delta) (arg : InsertValue)
    (attributes : option AttributeMap) : Delta :=
  match arg with
  | IText EmptyString => ops
  | _ =>
      Delta_push ops
        (OpInsert arg
           (match attributes with
            | Some a => if decide (a = ∅) then None else Some a
            | None => None
            end))
  end.

(** ** [encodeContent] *)

(** The inner loop: one [insert] per segment. *)
Definition encode_segments (content : Delta) (segments : list Segment) : Delta :=
  fold_left (fun c seg => Delta_insert c (seg_insert seg) (Some (seg_attributes seg)))
    segments content.

(** The outer loop over [lines.entries()], from index [i] on, threading the
    Delta under construction and [lineAttrs]. *)
Fixpoint encode_lines (i : nat) (lines : list Line) (content : Delta)
    (lineAttrs : AttributeMap) : Delta * AttributeMap :=
  match lines with
  | [] => (content, lineAttrs)
  | line :: rest =>
      let content :=
        match i with
        | O => content
        | S _ => Delta_insert content (IText newline) (Some lineAttrs)
        end in
      let content := encode_segments content (line_segments line) in
      encode_lines (S i) rest content (line_attributes line)
  end.

Definition encodeContent (lines : list Line) : Delta :=
  let '(content, lineAttrs) := encode_lines 0 lines [] ∅ in
  if decide (lineAttrs = ∅) then content
  else Delta_insert content (IText newline) (Some lineAttrs).

(** ** [decodeContent] *)

(** [_.every(insert, x => x === '\n')] on a string. *)
Fixpoint all_newline (s : string) : bool :=
  match s with
  | EmptyString => true
  | String c rest => Ascii.eqb c nl && all_newline rest
  end.

(** [insert.split('\n')]: never empty, one more piece than line feeds. *)
Fixpoint split_nl (s : string) : list string :=
  match s with
  | EmptyString => [EmptyString]
  | String c rest =>
      if Ascii.eqb c nl then EmptyString :: split_nl rest
      else
        match split_nl rest with
        | piece :: pieces => String c piece :: pieces
        | [] => [String c EmptyString]
        end
  end.

(** The state of the decoding loop: [result] and the current [segments]. *)
Definition DecodeState : Type := list Line * list Segment.

(** [result.push({ segments, attributes }); segments = [];] *)
Definition close_line (attributes : AttributeMap) (st : DecodeState) : DecodeState :=
  (st.1 ++ [mkLine st.2 attributes], []).

Definition push_segment (seg : Segment) (st : DecodeState) : DecodeState :=
  (st.1, st.2 ++ [seg]).

(** The pieces of a text insert that holds something besides line feeds:
    every piece but the first closes the line before it. *)
Fixpoint decode_pieces (i : nat) (pieces : list string) (attrs : AttributeMap)
    (st : DecodeState) : DecodeState :=
  match pieces with
  | [] => st
  | piece :: rest =>
      let st :=
        match i with
        | O => st
        | S _ => close_line ∅ st
        end in
      decode_pieces (S i) rest attrs (push_segment (mkSegment (IText piece) attrs) st)
  end.

(** The callback of [content.forEach]. *)
Definition decode_op (st : DecodeState) (op : Op) : DecodeState :=
  let attrs := default ∅ (op_attributes op) in
  match op_insert op with
  | Some (IText s) =>
      if all_newline s then Nat.iter (String.length s) (close_line attrs) st
      else decode_pieces 0 (split_nl s) attrs st
  | Some (IEmbed e) => push_segment (mkSegment (IEmbed e) attrs) st
  | None => push_segment (mkSegment (IText EmptyString) attrs) st
  end.

Definition decode_finish (st : DecodeState) : list Line :=
  match st.2 with
  | [] => st.1
  | _ => st.1 ++ [mkLine st.2 ∅]
  end.

Definition decodeContent (content : option Delta) : list Line :=
  match content with
  | None => []
  | Some ops => decode_finish (fold_left decode_op ops ([], []))
  end.

(** ** [_removeEmptyLines] *)

(** [_.isEmpty] on an insert: the empty string, or an object without keys. *)
Definition insert_isEmpty (i : InsertValue) : bool :=
  match i with
  | IText s => bool_decide (s = EmptyString)
  | IEmbed e => bool_decide (e = ∅)
  end.

(** The predicate of [_removeEmptyLines]. *)
Definition line_isEmpty (x : Line) : bool :=
  forallb (fun s => insert_isEmpty (seg_insert s)) (line_segments x)
  && bool_decide (line_attributes x = ∅).

(** [_.dropRightWhile]. *)
Fixpoint dropRightWhile {A : Type} (p : A → bool) (l : list A) : list A :=
  match l with
  | [] => []
  | x :: rest =>
      match dropRightWhile p rest with
      | [] => if p x then [] else [x]
      | kept => x :: kept
      end
  end.

Definition _removeEmptyLines (lines : list Line) : list Line :=
  dropRightWhile line_isEmpty lines.

(** ** The editing engine, as the adapter uses it

    The engine owns the document, the selection and the focus; the adapter
    only reads them and asks for changes.  [diff], [compose], [length] and
    [transformPosition] are the engine's Delta primitives. *)

Record Range : Type := mkRange {
  range_index : nat;
  range_length : nat;
}.

#[global] Instance Range_eq_dec : EqDecision Range.
Proof. solve_decision. Defined.

Class DeltaOps : Type := {
  Delta_diff : Delta → Delta → Delta;
  Delta_compose : Delta → Delta → Delta;
  Delta_length : Delta → nat;
  Delta_transformPosition : Delta → nat → nat;
}.

Class Engine (Q : Type) : Type := {
  getContents : Q → Delta;
  hasFocus : Q → bool;
  getSelection : Q → option Range;
  (** [setContents(delta, 'silent')] and [setSelection(index, length,
      'silent')]: the engine changes and emits no event. *)
  setContents : Delta → Q → Q;
  setSelection : nat → nat → Q → Q;
}.

(** The mutating calls made on the engine, in order. *)
Inductive EngineCall : Type :=
  | CallSetContents (content : Delta)
  | CallSetSelection (index length : nat).

#[global] Instance EngineCall_eq_dec : EqDecision EngineCall.
Proof. solve_decision. Defined.

(** ** The component

    The props, state hooks and ref of one mounted [QuillEditor]. *)
Record Component (Q : Type) : Type := mkComponent {
  value : option (list Line);      (* the [value] prop *)
  mouseDown : bool;                (* [useState(false)] *)
  capture : option Delta;          (* [useState<Delta>()] *)
  editorRef : option Q;            (* [editorRef.current] *)
}.

Arguments mkComponent {Q} _ _ _ _.
Arguments value {Q} _.
Arguments mouseDown {Q} _.
Arguments capture {Q} _.
Arguments editorRef {Q} _.

(** [useMemo(() => encodeContent(value ?? []), [value])] *)
Definition content {Q : Type} (c : Component Q) : Delta :=
  encodeContent (default [] (value c)).

(** What a handler leaves behind besides the new state: the documents handed
    to [onChangeValue] and the calls made on the engine, both in order. *)
Record Outcome : Type := mkOutcome {
  emitted : list (list Line);
  calls : list EngineCall;
}.

Definition silent : Outcome := mkOutcome [] [].

Definition Outcome_app (a b : Outcome) : Outcome :=
  mkOutcome (emitted a ++ emitted b) (calls a ++ calls b).

Section Adapter.
Context {Q : Type} `{!DeltaOps} `{!Engine Q}.

(** The effect on [capture, mouseDown]. *)
Definition capture_effect (c : Component Q) : Component Q * Outcome :=
  match editorRef c with
  | None => (c, silent)
  | Some editor =>
      if mouseDown c then (c, silent)
      else
        match capture c with
        | None => (c, silent)
        | Some captured =>
            (mkComponent (value c) (mouseDown c) None (editorRef c),
             mkOutcome [_removeEmptyLines (decodeContent (Some captured))] [])
        end
  end.

(** The content the value effect compares with the desired one. *)
Definition normalized_contents (editor : Q) : Delta :=
  encodeContent (_removeEmptyLines (decodeContent (Some (getContents editor)))).

(** The effect on [content, mouseDown]. *)
Definition value_effect (c : Component Q) : Component Q * Outcome :=
  match editorRef c with
  | None => (c, silent)
  | Some editor =>
      if mouseDown c then (c, silent)
      else if Nat.eqb (Delta_length (Delta_diff (normalized_contents editor) (content c))) 0
      then (c, silent)
      else
        let selection := if hasFocus editor then getSelection editor else None in
        let editor := setContents (content c) editor in
        match selection with
        | None =>
            (mkComponent (value c) (mouseDown c) (capture c) (Some editor),
             mkOutcome [] [CallSetContents (content c)])
        | Some selection =>
            let diff := Delta_diff (getContents editor) (content c) in
            let pos := Delta_transformPosition diff (range_index selection) in
            (mkComponent (value c) (mouseDown c) (capture c)
               (Some (setSelection pos (range_length selection) editor)),
             mkOutcome []
               [CallSetContents (content c);
                CallSetSelection pos (range_length selection)])
        end
  end.

(** The callback of [content.map] in [replaceAssets], with the flag
    [isChanged] it assigns. *)
Definition replace_op (assets : gmap string string) (isChanged : bool) (op : Op)
    : Op * bool :=
  match op with
  | OpInsert (IEmbed e) a =>
      match e !! "image" with
      | Some (JStr uri) =>
          match get_property assets uri with
          | Some replace =>
              if truthy replace
              then (OpInsert (IEmbed {[ "image" := replace ]}) a, true)
              else (op, isChanged)
          | None => (op, isChanged)
          end
      | _ => (op, isChanged)
      end
  | _ => (op, isChanged)
  end.

Fixpoint replace_ops (assets : gmap string string) (isChanged : bool) (ops : Delta)
    : Delta * bool :=
  match ops with
  | [] => ([], isChanged)
  | op :: rest =>
      let '(op', isChanged) := replace_op assets isChanged op in
      let '(rest', isChanged) := replace_ops assets isChanged rest in
      (op' :: rest', isChanged)
  end.

(** [replaceAssets(assets)] of the ref handle. *)
Definition replaceAssets (assets : gmap string string) (c : Component Q)
    : Component Q * Outcome :=
  match editorRef c with
  | None => (c, silent)
  | Some editor =>
      let '(ops, isChanged) := replace_ops assets false (content c) in
      if isChanged then (c, mkOutcome [decodeContent (Some ops)] [])
      else (c, silent)
  end.

(** What happens to a mounted component.  A text change comes from the
    engine, whose state [after] is the one the user's edit produced. *)
Inductive Event : Type :=
  | MouseDown
  | MouseUp
  | TextChange (delta oldContent : Delta) (after : Q)
  | ValueChange (v : option (list Line))
  | ReplaceAssets (assets : gmap string string).

(** Both effects depend on [mouseDown]; they run in the order they are
    declared. *)
Definition run_effects (c : Component Q) : Component Q * Outcome :=
  let '(c, o1) := capture_effect c in
  let '(c, o2) := value_effect c in
  (c, Outcome_app o1 o2).

(** One event: the state hook or the prop it sets, then the effects whose
    dependencies changed.  Setting [mouseDown] to the value it has changes
    nothing; a text change sets [capture], on which only the first effect
    depends; a new [value] changes [content], on which only the second
    depends; [replaceAssets] is a call of the ref handle.

    Every event is taken to be rendered on its own and every new [value] to
    change [content].  A framework that compares dependencies by their
    contents skips the second effect when the new [content] equals the old
    one, and one that renders several text changes of one tick together runs
    the first effect once for them: the program then calls the engine and
    the change callback no more often than [step] does. *)
Definition step (c : Component Q) (ev : Event) : Component Q * Outcome :=
  match ev with
  | MouseDown =>
      if mouseDown c then (c, silent)
      else run_effects (mkComponent (value c) true (capture c) (editorRef c))
  | MouseUp =>
      if mouseDown c
      then run_effects (mkComponent (value c) false (capture c) (editorRef c))
      else (c, silent)
  | TextChange delta oldContent after =>
      match editorRef c with
      | None => (c, silent)
      | Some _ =>
          capture_effect
            (mkComponent (value c) (mouseDown c)
               (Some (Delta_compose oldContent delta)) (Some after))
      end
  | ValueChange v =>
      value_effect (mkComponent v (mouseDown c) (capture c) (editorRef c))
  | ReplaceAssets assets => replaceAssets assets c
  end.

Fixpoint run (c : Component Q) (evs : list Event) : Component Q * Outcome :=
  match evs with
  | [] => (c, silent)
  | ev :: rest =>
      let '(c, o1) := step c ev in
      let '(c, o2) := run c rest in
      (c, Outcome_app o1 o2)
  end.

End Adapter.

(** ** The encoder, as the specification describes it *)

(** One call of [Delta.insert]: what is inserted, with which attributes. *)
Definition InsertCall : Type := InsertValue * AttributeMap.

Definition apply_calls (cs : list InsertCall) (content : Delta) : Delta :=
  fold_left (fun d c => Delta_insert d c.1 (Some c.2)) cs content.

Definition segment_calls (l : Line) : list InsertCall :=
  map (fun s => (seg_insert s, seg_attributes s)) (line_segments l).

Definition closing_newline (l : Line) : InsertCall :=
  (IText newline, line_attributes l).

(** The inserts of a document, line by line: the segments of a line, then
    the newline that closes it and carries its attributes.  After the last
    line the newline is inserted only when the line has attributes. *)
Fixpoint insert_calls (lines : list Line) : list InsertCall :=
  match lines with
  | [] => []
  | l :: rest =>
      segment_calls l ++
      match rest with
      | [] => if decide (line_attributes l = ∅) then [] else [closing_newline l]
      | _ => closing_newline l :: insert_calls rest
      end
  end.

(** The inserts as the claim has them: a closing newline after every line. *)
Definition insert_calls_every_line (lines : list Line) : list InsertCall :=
  flat_map (fun l => segment_calls l ++ [closing_newline l]) lines.

(** ** The content of a Delta, unit by unit

    What a Delta inserts, read one character or one embed at a time with the
    attributes it carries: the view of the document that merging operations
    does not change. *)

Definition call_units (c : InsertCall) : list InsertCall :=
  match c.1 with
  | IText s => map (fun ch => (IText (String ch EmptyString), c.2)) (list_ascii_of_string s)
  | IEmbed _ => [c]
  end.

Definition op_units (op : Op) : list InsertCall :=
  match op with
  | OpInsert i a => call_units (i, default ∅ a)
  | _ => []
  end.

Definition delta_units (d : Delta) : list InsertCall := flat_map op_units d.

(** The units of a line's segments. *)
Definition line_units (l : Line) : list InsertCall :=
  flat_map call_units (segment_calls l).

(** ** Documents that survive the round trip *)

Fixpoint has_newline (s : string) : bool :=
  match s with
  | EmptyString => false
  | String c rest => Ascii.eqb c nl || has_newline rest
  end.

(** A segment whose text, if it is text, is not empty and holds no line
    feed. *)
Definition segment_plain (seg : Segment) : bool :=
  match seg_insert seg with
  | IText s => negb (bool_decide (s = EmptyString)) && negb (has_newline s)
  | IEmbed _ => true
  end.

Definition segments_plain (lines : list Line) : bool :=
  forallb (fun l => forallb segment_plain (line_segments l)) lines.

Definition is_newline_call (c : InsertCall) : bool :=
  bool_decide (c.1 = IText newline).

(** The operation [Delta.insert] builds for a call, before any merge. *)
Definition op_of_call (c : InsertCall) : Op :=
  OpInsert c.1 (if decide (c.2 = ∅) then None else Some c.2).

Definition decode_run (ops : Delta) (st : DecodeState) : DecodeState :=
  fold_left decode_op ops st.

(** What an insert of such a document is: a closing newline, an embed, or
    text without line feed. *)
Definition call_plain (c : InsertCall) : Prop :=
  match c.1 with
  | IText s => s = newline ∨ (s ≠ EmptyString ∧ has_newline s = false)
  | IEmbed _ => True
  end.

(** A text segment's insert: a string that is not the closing newline. *)
Definition is_text_call (c : InsertCall) : bool :=
  match c.1 with
  | IText s => negb (bool_decide (s = newline))
  | IEmbed _ => false
  end.

(** [o] is a text insert with the attributes [a]. *)
Definition text_with (a : AttributeMap) (o : option InsertCall) : bool :=
  match o with
  | Some c => is_text_call c && bool_decide (c.2 = a)
  | None => false
  end.

(** What [Delta.push] does to an insert, given the one before and the one
    after it, is harmless: a text is not followed by a text with the same
    attributes; a closing newline has the attributes of a text next to it
    only when it has none and stands between two texts that have none. *)
Definition window_ok (prev : option InsertCall) (c : InsertCall)
    (next : option InsertCall) : bool :=
  if is_text_call c then negb (text_with c.2 next)
  else if is_newline_call c then
    negb (text_with c.2 prev || text_with c.2 next)
    || (bool_decide (c.2 = ∅) && text_with ∅ prev && text_with ∅ next)
  else true.

(** [window_ok] at every insert of [cs], which comes after [prev] and before
    [after]. *)
Fixpoint merges_ok (prev : option InsertCall) (cs : list InsertCall)
    (after : option InsertCall) : bool :=
  match cs with
  | [] => true
  | c :: rest =>
      window_ok prev c (match rest with c' :: _ => Some c' | [] => after end)
      && merges_ok (Some c) rest after
  end.

(** A document whose inserts are merged harmlessly. *)
Definition merges_harmless (lines : list Line) : bool :=
  merges_ok None (insert_calls lines) None.

(** Decoding the Delta [d] is decoding the operations of [cs] one by one. *)
Definition in_step (cs : list InsertCall) (d : Delta) : Prop :=
  ∀ st, decode_run d st = decode_run (map op_of_call cs) st.

(** The last operation [o] of the Delta, against the last insert [c] made:
    the embed itself, or a string that ends with the text or is a run of
    closing newlines, and is not merged with the insert that follows. *)
Definition tail_of (c : InsertCall) (next : option InsertCall) (o : Op) : Prop :=
  match c.1 with
  | IEmbed _ => o = op_of_call c
  | IText _ =>
      ∃ s, o = OpInsert (IText s) (op_attributes (op_of_call c))
           ∧ all_newline s = is_newline_call c
           ∧ s ≠ EmptyString
           ∧ text_with c.2 next = false
  end.

(** The Delta [d] built from the inserts [cs], with [next] still to come:
    either it is in step with them, or its last insert is a closing newline
    merged into the text before it, which the text that comes next will
    complete. *)
Definition built (cs : list InsertCall) (next : option InsertCall) (d : Delta) : Prop :=
  match last cs with
  | None => d = []
  | Some c =>
      (in_step cs d ∧ ∃ d' o, d = d' ++ [o] ∧ tail_of c next o)
      ∨ (is_newline_call c = true ∧ c.2 = ∅ ∧ text_with ∅ next = true
         ∧ ∃ d' s, d = d' ++ [OpInsert (IText (s +:+ newline)) None]
             ∧ all_newline s = false
             ∧ ∀ st, decode_run (map op_of_call cs) st
                     = close_line ∅ (decode_run (d' ++ [OpInsert (IText s) None]) st))
  end.

(** ** Documents without trailing empty lines *)

(** The last line, if there is one, is not an empty line. *)
Definition no_trailing_empty (lines : list Line) : bool :=
  match last lines with
  | Some l => negb (line_isEmpty l)
  | None => true
  end.

(** ** Asset replacement, operation by operation *)

(** The URI of an image embed. *)
Definition image_uri (i : InsertValue) : option string :=
  match i with
  | IEmbed e =>
      match e !! "image" with
      | Some (JStr uri) => Some uri
      | _ => None
      end
  | IText _ => None
  end.

(** What [replaceAssets] puts in the place of the image of an insert: the
    insert is an image embed whose URI, looked up in [assets] as a property,
    gives a truthy value, that is a non-empty string that [assets] holds
    under the URI, or, when [assets] holds nothing under it, the member of
    [Object.prototype] of that name. *)
Definition replacement (assets : gmap string string) (i : InsertValue) : option JValue :=
  match image_uri i with
  | Some uri =>
      match get_property assets uri with
      | Some replace => if truthy replace then Some replace else None
      | None => None
      end
  | None => None
  end.

Definition op_replacement (assets : gmap string string) (op : Op) : option JValue :=
  match op_insert op with
  | Some i => replacement assets i
  | None => None
  end.

Definition rewrite_insert (assets : gmap string string) (i : InsertValue) : InsertValue :=
  match replacement assets i with
  | Some replace => IEmbed {[ "image" := replace ]}
  | None => i
  end.

(** How an operation of the rewritten Delta relates to the one it comes
    from: an image operation for which the lookup gives a truthy value holds
    that value and keeps its attributes, any other operation is the same. *)
Definition rewritten (assets : gmap string string) (op op' : Op) : Prop :=
  match op_replacement assets op with
  | Some replace => op' = OpInsert (IEmbed {[ "image" := replace ]}) (op_attributes op)
  | None => op' = op
  end.

(** An operation for which the lookup finds the empty string or nothing:
    it is no image, or [assets] holds the empty string under its URI, or
    its URI is neither a key of [assets] nor a name of [Object.prototype]. *)
Definition maps_to_empty (assets : gmap string string) (op : Op) : bool :=
  match op_insert op ≫= image_uri with
  | Some uri =>
      match assets !! uri with
      | Some replace => bool_decide (replace = EmptyString)
      | None => negb (bool_decide (uri ∈ Object_prototype))
      end
  | None => true
  end.

(** A document with the insert of every segment changed by [f]. *)
Definition map_segment (f : InsertValue → InsertValue) (seg : Segment) : Segment :=
  mkSegment (f (seg_insert seg)) (seg_attributes seg).

Definition map_line (f : InsertValue → InsertValue) (l : Line) : Line :=
  mkLine (map (map_segment f) (line_segments l)) (line_attributes l).

Definition map_state (f : InsertValue → InsertValue) (st : DecodeState) : DecodeState :=
  (map (map_line f) st.1, map (map_segment f) st.2).

(** ** Asset replacement, as the specification describes it *)

(** The URI an insert is mapped to: it is an image embed whose URI is a key
    of [assets], with a replacement that is not the empty string. *)
Definition mapped (assets : gmap string string) (i : InsertValue) : option string :=
  match image_uri i with
  | Some uri =>
      match assets !! uri with
      | Some replace => if bool_decide (replace = EmptyString) then None else Some replace
      | None => None
      end
  | None => None
  end.

Definition op_mapped (assets : gmap string string) (op : Op) : option string :=
  match op_insert op with
  | Some i => mapped assets i
  | None => None
  end.

(** A matching image operation. *)
Definition keyed (assets : gmap string string) (op : Op) : bool :=
  bool_decide (is_Some (op_mapped assets op)).

Definition remap_insert (assets : gmap string string) (i : InsertValue) : InsertValue :=
  match mapped assets i with
  | Some replace => IEmbed {[ "image" := JStr replace ]}
  | None => i
  end.

Definition remap_line (assets : gmap string string) (l : Line) : Line :=
  map_line (remap_insert assets) l.

(** How an operation of the rewritten Delta relates to the one it comes
    from: a matching image operation holds the mapped URI and keeps its
    attributes, any other operation is the same. *)
Definition remapped (assets : gmap string string) (op op' : Op) : Prop :=
  match op_mapped assets op with
  | Some replace => op' = OpInsert (IEmbed {[ "image" := JStr replace ]}) (op_attributes op)
  | None => op' = op
  end.

(** An image operation whose URI is no key of [assets] but a name of
    [Object.prototype]: the lookup finds the member of that name. *)
Definition inherits (assets : gmap string string) (op : Op) : bool :=
  match op_insert op ≫= image_uri with
  | Some uri =>
      match assets !! uri with
      | Some _ => false
      | None => bool_decide (uri ∈ Object_prototype)
      end
  | None => false
  end.

(** ** Events during a pointer interaction *)

(** The events that leave the pointer down and are not a call of the ref
    handle. *)
Definition held {Q : Type} (ev : Event (Q:=Q)) : bool :=
  match ev with
  | MouseUp => false
  | ReplaceAssets _ => false
  | _ => true
  end.

Definition is_text_change {Q : Type} (ev : Event (Q:=Q)) : bool :=
  match ev with
  | TextChange _ _ _ => true
  | _ => false
  end.

(** ** A plain engine

    A stand-in for the editing engine, to run the adapter on concrete
    documents; no statement is about it.  It keeps the Delta it is given as
    it is and loses the selection when the contents are set.  Its [diff]
    replaces the whole document unless the two are equal, its [compose] puts
    a change made of inserts in front of the document without merging
    operations, and [length] and [transformPosition] follow quill-delta on
    text whose characters are one code unit each. *)

Record PlainEditor : Type := mkPlainEditor {
  plain_contents : Delta;
  plain_selection : option Range;
  plain_focus : bool;
}.

#[global] Instance PlainEditor_Engine : Engine PlainEditor := {|
  getContents := plain_contents;
  hasFocus := plain_focus;
  getSelection := plain_selection;
  setContents := fun d e => mkPlainEditor d None (plain_focus e);
  setSelection := fun i n e => mkPlainEditor (plain_contents e) (Some (mkRange i n)) (plain_focus e);
|}.

Definition op_length (op : Op) : nat :=
  match op with
  | OpInsert (IText s) _ => String.length s
  | OpInsert (IEmbed _) _ => 1
  | OpRetain n _ => n
  | OpDelete n => n
  end.

Definition plain_length (d : Delta) : nat :=
  fold_left (fun n op => n + op_length op) d 0.

Definition plain_diff (a b : Delta) : Delta :=
  if decide (a = b) then []
  else if Nat.eqb (plain_length a) 0 then b
  else b ++ [OpDelete (plain_length a)].

Fixpoint plain_transformPosition_from (offset : nat) (ops : Delta) (index : nat) : nat :=
  match ops with
  | [] => index
  | op :: rest =>
      if Nat.leb offset index then
        match op with
        | OpDelete n =>
            plain_transformPosition_from offset rest (index - Nat.min n (index - offset))
        | OpInsert _ _ =>
            plain_transformPosition_from (offset + op_length op) rest (index + op_length op)
        | OpRetain n _ =>
            plain_transformPosition_from (offset + n) rest index
        end
      else index
  end.

#[global] Instance Plain_DeltaOps : DeltaOps := {|
  Delta_diff := plain_diff;
  Delta_compose := fun a b => b ++ a;
  Delta_length := plain_length;
  Delta_transformPosition := plain_transformPosition_from 0;
|}.

(** ** Sample documents *)

Definition bold : AttributeMap := {[ "bold" := JBool true ]}.
Definition header1 : AttributeMap := {[ "header" := JNum 1 ]}.
Definition text (s : string) (a : AttributeMap) : Segment := mkSegment (IText s) a.
Definition image (uri : string) : Segment :=
  mkSegment (IEmbed {[ "image" := JStr uri ]}) ∅.

(** A title, an empty line with the same attributes, two plain paragraphs
    and a paragraph with plain text, bold text and an image. *)
Definition sample_document : list Line :=
  [ mkLine [text "Title" ∅] header1;
    mkLine [] header1;
    mkLine [text "Good" ∅] ∅;
    mkLine [text "bye" ∅] ∅;
    mkLine [text "Hello " ∅; text "world" bold; image "a.png"] ∅ ].

(** The documents of at most two lines, each with at most two segments
    taken among a plain text, a bold text and an image, and with no
    attributes, [bold] or [header1] as block attributes. *)
Definition small_segments : list (list Segment) :=
  let choices := [text "a" ∅; text "b" bold; image "a.png"] in
  [] :: (s ← choices; [[s]]) ++ (s ← choices; t ← choices; [[s; t]]).

Definition small_lines : list Line :=
  segs ← small_segments; a ← [∅; bold; header1]; [mkLine segs a].

Definition small_documents : list (list Line) :=
  [[]] ++ (l ← small_lines; [[l]]) ++ (l ← small_lines; m ← small_lines; [[l; m]]).

(** One line whose only segment holds a line feed: ["a\nb"]. *)
Definition line_feed_document : list Line :=
  [ mkLine [text ("a" +:+ newline +:+ "b") ∅] ∅ ].

(** One line with an empty text segment before an image. *)
Definition empty_text_document : list Line :=
  [ mkLine [text EmptyString bold; image "a.png"] ∅ ].

(** One line with two plain text segments side by side. *)
Definition adjacent_text_document : list Line :=
  [ mkLine [text "a" ∅; text "b" ∅] ∅ ].

(** A plain line followed by a bold one. *)
Definition plain_then_bold_document : list Line :=
  [ mkLine [text "a" ∅] ∅; mkLine [text "b" bold] ∅ ].

(** Documents with an empty text segment that come back: the segment is
    the piece a line feed leaves behind in an insert it was merged into. *)
Definition after_feed_document : list Line :=
  [ mkLine [text "a" ∅] ∅; mkLine [text EmptyString ∅; text "b" bold] ∅ ].

Definition blank_between_document : list Line :=
  [ mkLine [text "Hello" ∅] ∅; mkLine [text EmptyString ∅] ∅;
    mkLine [text "World" ∅] ∅ ].

(** A document with a trailing empty line that comes back. *)
Definition trailing_empty_document : list Line :=
  [ mkLine [text "a" ∅] ∅; mkLine [text EmptyString ∅] ∅ ].

(** One line of bold text without block attributes. *)
Definition single_line_document : list Line := [ mkLine [text "a" bold] ∅ ].

(** The document of an editor that holds nothing: one newline. *)
Definition blank_delta : Delta := [ OpInsert (IText newline) None ].

(** An image followed by two empty lines. *)
Definition image_document : list Line :=
  [ mkLine [image "a.png"] ∅; mkLine [] ∅; mkLine [] ∅ ].

(** A paragraph with two images, and a component mounted on it. *)
Definition gallery_document : list Line :=
  [ mkLine [text "Photos" bold] header1;
    mkLine [image "a.png"; text " and " ∅; image "c.png"] ∅ ].

(** The editor shows the document, has the focus and the caret at 3. *)
Definition gallery_editor : PlainEditor :=
  mkPlainEditor (encodeContent gallery_document) (Some (mkRange 3 0)) true.

Definition gallery : Component PlainEditor :=
  mkComponent (Some gallery_document) false None (Some gallery_editor).

(** The same document with a word put in front of the title. *)
Definition gallery_document_edited : list Line :=
  [ mkLine [text "My " ∅; text "Photos" bold] header1;
    mkLine [image "a.png"; text " and " ∅; image "c.png"] ∅ ].

(** The same component with the pointer down, a letter typed at the start
    of the document, and the editor after it. *)
Definition gallery_pressed : Component PlainEditor :=
  mkComponent (Some gallery_document) true None (Some gallery_editor).

Definition typed_letter : Delta := [ OpInsert (IText "x") None ].

Definition gallery_editor_typed : PlainEditor :=
  mkPlainEditor (typed_letter ++ encodeContent gallery_document) (Some (mkRange 1 0)) true.

(** The same component before its editor exists. *)
Definition gallery_unmounted : Component PlainEditor :=
  mkComponent (Some gallery_document) false None None.

(** A paragraph with two images, the second with a URI that is a name of
    [Object.prototype], and a component mounted on it. *)
Definition named_document : list Line :=
  [ mkLine [image "a.png"; image "toString"] ∅ ].

Definition named_gallery : Component PlainEditor :=
  mkComponent (Some named_document) false None
    (Some (mkPlainEditor (encodeContent named_document) None false)).

(** What an editor holds after a title and a paragraph have been typed. *)
Definition typed_delta : Delta :=
  [ OpInsert (IText "Title") None;
    OpInsert (IText newline) (Some header1);
    OpInsert (IText ("Hello" +:+ newline)) None ].

(** ** Canonical Deltas

    The form [Delta.insert] keeps: inserts only, no empty string, no empty
    attribute object, and no two string inserts side by side with the same
    attributes. *)

Definition op_canonical (op : Op) : bool :=
  match op with
  | OpInsert (IText s) a =>
      negb (bool_decide (s = EmptyString)) && negb (bool_decide (a = Some ∅))
  | OpInsert (IEmbed _) a => negb (bool_decide (a = Some ∅))
  | _ => false
  end.

Definition mergeable_ops (o1 o2 : Op) : bool :=
  match o1, o2 with
  | OpInsert (IText _) a1, OpInsert (IText _) a2 => bool_decide (a1 = a2)
  | _, _ => false
  end.

Fixpoint canonical (d : Delta) : bool :=
  match d with
  | [] => true
  | o1 :: rest =>
      op_canonical o1
      && match rest with
         | o2 :: _ => negb (mergeable_ops o1 o2)
         | [] => true
         end
      && canonical rest
  end.

(** The units of a document's inserts. *)
Definition document_units (lines : list Line) : list InsertCall :=
  flat_map call_units (insert_calls lines).

(** A unit that is a character with the attributes [a]. *)
Definition text_unit_with (a : AttributeMap) (u : InsertCall) : Prop :=
  ∃ s, u = (IText s, a).

(** ** What decoding keeps *)

(** A segment that holds no line feed. *)
Definition segment_one_line (seg : Segment) : bool :=
  match seg_insert seg with
  | IText s => negb (has_newline s)
  | IEmbed _ => true
  end.

(** The embedded objects of a Delta and of a document, with their
    attributes, in order. *)
Definition op_embed (op : Op) : option (gmap string JValue * AttributeMap) :=
  match op with
  | OpInsert (IEmbed e) a => Some (e, default ∅ a)
  | _ => None
  end.

Definition delta_embeds (d : Delta) : list (gmap string JValue * AttributeMap) :=
  omap op_embed d.

Definition segment_embed (seg : Segment) : option (gmap string JValue * AttributeMap) :=
  match seg_insert seg with
  | IEmbed e => Some (e, seg_attributes seg)
  | IText _ => None
  end.

Definition lines_embeds (lines : list Line) : list (gmap string JValue * AttributeMap) :=
  flat_map (fun l => omap segment_embed (line_segments l)) lines.

Definition unit_embed (u : InsertCall) : option (gmap string JValue * AttributeMap) :=
  match u.1 with
  | IEmbed e => Some (e, u.2)
  | IText _ => None
  end.

(** The number of line feeds of a string and of the text of a Delta. *)
Fixpoint count_newlines (s : string) : nat :=
  match s with
  | EmptyString => 0
  | String c rest => (if Ascii.eqb c nl then 1 else 0) + count_newlines rest
  end.

Definition op_newlines (op : Op) : nat :=
  match op with
  | OpInsert (IText s) _ => count_newlines s
  | _ => 0
  end.

Definition delta_newlines (d : Delta) : nat :=
  foldr (fun op n => op_newlines op + n) 0 d.

(** A line without segments and without attributes. *)
Definition blank_line : Line := mkLine [] ∅.

(** The units [us] do not start with a character that has the attributes
    [a]. *)
Definition no_text_head (a : AttributeMap) (us : list InsertCall) : Prop :=
  match us with
  | u :: _ => ¬ text_unit_with a u
  | [] => True
  end.

(** Every segment of the state holds no line feed. *)
Definition state_one_line (st : DecodeState) : Prop :=
  Forall (fun l => forallb segment_one_line (line_segments l) = true) st.1
  ∧ forallb segment_one_line st.2 = true.

Definition lines_one_line (lines : list Line) : bool :=
  forallb (fun l => forallb segment_one_line (line_segments l)) lines.

(** The embeds of a decoding state. *)
Definition state_embeds (st : DecodeState) : list (gmap string JValue * AttributeMap) :=
  lines_embeds st.1 ++ omap segment_embed st.2.

(** ** The [assets] getter of the ref handle *)

(** The callback of [content.map]: the URI of an image operation,
    [undefined] for any other operation. *)
Definition asset_of_op (op : Op) : option string :=
  match op with
  | OpInsert (IEmbed e) _ =>
      match e !! "image" with
      | Some (JStr uri) => Some uri
      | _ => None
      end
  | _ => None
  end.

(** [_.compact] on strings and [undefined]: what is falsy, the empty string
    included, is left out. *)
Definition compact (l : list (option string)) : list string :=
  omap (fun o =>
          match o with
          | Some s => if bool_decide (s = EmptyString) then None else Some s
          | None => None
          end) l.

Definition assets {Q : Type} (c : Component Q) : list string :=
  compact (map asset_of_op (content c)).

(** The image URI of each segment of a document, in order. *)
Definition segment_uris (lines : list Line) : list (option string) :=
  map (fun seg => image_uri (seg_insert seg)) (flat_map line_segments lines).

Definition embed_uri (p : gmap string JValue * AttributeMap) : option string :=
  image_uri (IEmbed p.1).

(** The URI [replaceAssets] leaves in the place of [uri]; none when it
    puts a member of [Object.prototype] there, which is no string. *)
Definition rename (m : gmap string string) (uri : string) : option string :=
  match get_property m uri with
  | Some (JStr replace) =>
      Some (if bool_decide (replace = EmptyString) then uri else replace)
  | Some _ => None
  | None => Some uri
  end.

(** The parent takes the document it is handed as the new [value]. *)
Definition adopt {Q : Type} (doc : list Line) (c : Component Q) : Component Q :=
  mkComponent (Some doc) (mouseDown c) (capture c) (editorRef c).

(** What [replaceAssets] makes of an embed. *)
Definition rewrite_embed (m : gmap string string)
    (p : gmap string JValue * AttributeMap) : gmap string JValue * AttributeMap :=
  match replacement m (IEmbed p.1) with
  | Some replace => ({[ "image" := replace ]}, p.2)
  | None => p
  end.

(** No URI that [m] puts in is itself replaced when it is looked up in
    [m]: [m] holds the empty string under it, or holds nothing under it and
    it is no name of [Object.prototype]. *)
Definition targets_final (m : gmap string string) : Prop :=
  ∀ uri replace,
    m !! uri = Some replace → replace ≠ EmptyString →
    m !! replace = Some EmptyString
    ∨ (m !! replace = None ∧ replace ∉ Object_prototype).

(** [m] does not put a URI in the place of the empty one. *)
Definition empty_uri_kept (m : gmap string string) : Prop :=
  ∀ replace, m !! EmptyString = Some replace → replace = EmptyString.

(** ** The image format *)

Definition imgAttrs : list string := ["alt"; "height"; "width"].

(** The attributes of a DOM element, by name: [hasAttribute] and
    [getAttribute] look a name up, [setAttribute] inserts and
    [removeAttribute] deletes. *)
Abbreviation DomNode := (gmap string string).

(** [_.fromPairs]: a later pair with the same key wins. *)
Definition fromPairs {V : Type} (pairs : list (string * V)) : gmap string V :=
  fold_left (fun object pair => <[ pair.1 := pair.2 ]> object) pairs ∅.

(** [static formats(domNode)]. *)
Definition formats (domNode : DomNode) : gmap string (option string) :=
  let attrs := List.filter (fun s => bool_decide (is_Some (domNode !! s))) imgAttrs in
  fromPairs (map (fun s => (s, domNode !! s)) attrs).

Section ImageFormat.
(** The string [setAttribute] stores for a value, and [format] of the class
    the image format extends; both belong to the environment. *)
Variable toDOMString : JValue → string.
Variable super_format : string → JValue → DomNode → DomNode.

(** [format(name, value)], on the attributes of [this.domNode]. *)
Definition format (name : string) (value : JValue) (domNode : DomNode) : DomNode :=
  if bool_decide (name ∈ imgAttrs) then
    if truthy value then <[ name := toDOMString value ]> domNode
    else delete name domNode
  else super_format name value domNode.
End ImageFormat.

(** ** Counting events *)

(** The events that come from an edit of the document in the editor or
    from a call of [replaceAssets]. *)
Definition local_edit {Q : Type} (ev : Event (Q:=Q)) : bool :=
  match ev with
  | TextChange _ _ _ => true
  | ReplaceAssets _ => true
  | _ => false
  end.

(** The events after which the value effect can reach the engine. *)
Definition applies_value {Q : Type} (ev : Event (Q:=Q)) : bool :=
  match ev with
  | ValueChange _ => true
  | MouseUp => true
  | _ => false
  end.

(** 1 when a captured change waits for the pointer to be released. *)
Definition pending {Q : Type} (c : Component Q) : nat :=
  match capture c with
  | Some _ => 1
  | None => 0
  end.

(** ** What each operation contributes to the decoding *)

(** The inserts of the segments an operation contributes: the pieces of a
    text between its line feeds, none for an insert made of line feeds only,
    the embed, or the empty string for an operation that inserts nothing. *)
Definition op_pieces (op : Op) : list InsertValue :=
  match op_insert op with
  | Some (IText s) => if all_newline s then [] else map IText (split_nl s)
  | Some (IEmbed e) => [IEmbed e]
  | None => [IText EmptyString]
  end.

(** An insert made of line feeds only. *)
Definition is_line_break (op : Op) : bool :=
  match op_insert op with
  | Some (IText s) => all_newline s
  | _ => false
  end.

(** The segments of an operation carry its [attributes], [{}] when it has
    none. *)
Definition op_segments (op : Op) : list Segment :=
  map (fun i => mkSegment i (default ∅ (op_attributes op))) (op_pieces op).

(** The lines an operation closes, one per line feed, carry its [attributes]
    ([{}] when it has none) when it is made of line feeds only, and [{}] when
    the line feeds stand inside a text. *)
Definition op_line_attributes (op : Op) : list AttributeMap :=
  replicate (op_newlines op)
    (if is_line_break op then default ∅ (op_attributes op) else ∅).

(** The segments of a decoding state, in order, and the attributes of the
    line left open at the end. *)
Definition state_segments (st : DecodeState) : list Segment :=
  flat_map line_segments st.1 ++ st.2.

Definition open_line (st : DecodeState) : list AttributeMap :=
  match st.2 with
  | [] => []
  | _ => [∅]
  end.

(** ** Deltas that decoding and encoding give back

    The Deltas [d] with [encodeContent (decodeContent d) = d]: in the form
    [Delta.insert] keeps, with no attributes on an insert that holds line
    feeds among other text, and not ending with line feeds that carry no
    attributes. *)

(** An insert with attributes is made of line feeds only or holds none. *)
Definition feeds_apart (op : Op) : bool :=
  match op with
  | OpInsert (IText s) (Some _) => all_newline s || negb (has_newline s)
  | _ => true
  end.

(** The last operation is not an insert of line feeds without attributes. *)
Definition ends_closed (d : Delta) : bool :=
  match last d with
  | Some (OpInsert (IText s) None) => negb (all_newline s)
  | _ => true
  end.

Definition stable (d : Delta) : bool :=
  canonical d && forallb feeds_apart d && ends_closed d.

(** The units of a decoding state: every closed line with its newline, then
    the current segments. *)
Definition state_units (st : DecodeState) : list InsertCall :=
  flat_map (fun l => line_units l ++ [closing_newline l]) st.1
  ++ flat_map call_units (map (fun s => (seg_insert s, seg_attributes s)) st.2).

(** The units of the pieces of a text, with the line feeds between them. *)
Definition feed_then (a b : AttributeMap) (piece : string) : list InsertCall :=
  (IText newline, b) :: call_units (IText piece, a).

Definition join_units (a b : AttributeMap) (pieces : list string) : list InsertCall :=
  match pieces with
  | [] => []
  | piece :: rest => call_units (IText piece, a) ++ flat_map (feed_then a b) rest
  end.

(** The attributes of the line feeds among units. *)
Definition unit_feed (u : InsertCall) : option AttributeMap :=
  if decide (u.1 = IText newline) then Some u.2 else None.

Definition feeds (us : list InsertCall) : list AttributeMap := omap unit_feed us.

(** The attributes the line feeds of an operation carry in the Delta. *)
Definition op_feeds (op : Op) : list AttributeMap :=
  replicate (op_newlines op) (default ∅ (op_attributes op)).

(** No line is left open, and the last one has attributes. *)
Definition closed_with_attributes (st : DecodeState) : Prop :=
  st.2 = [] →
  match last st.1 with
  | Some l => line_attributes l ≠ ∅
  | None => True
  end.

(** * Properties *)

(** ** The codec on examples *)

Example sample_document_encoded :
  encodeContent sample_document
  = [ OpInsert (IText "Title") None;
      OpInsert (IText (newline +:+ newline)) (Some header1);
      OpInsert (IText ("Good" +:+ newline +:+ "bye" +:+ newline +:+ "Hello ")) None;
      OpInsert (IText "world") (Some bold);
      OpInsert (IEmbed {[ "image" := JStr "a.png" ]}) None ].
Proof. vm_compute. reflexivity. Qed.

Example typed_delta_decoded :
  decodeContent (Some typed_delta)
  = [ mkLine [text "Title" ∅] header1;
      mkLine [text "Hello" ∅] ∅;
      mkLine [text EmptyString ∅] ∅ ]
  ∧ _removeEmptyLines (decodeContent (Some typed_delta))
    = [ mkLine [text "Title" ∅] header1; mkLine [text "Hello" ∅] ∅ ].
Proof. split; vm_compute; reflexivity. Qed.

(** ** The encoder *)

Lemma encode_segments_calls (l : Line) (content : Delta) :
  encode_segments content (line_segments l) = apply_calls (segment_calls l) content.
Proof.
  unfold encode_segments, apply_calls, segment_calls.
  revert content. induction (line_segments l) as [|s ss IH]; intros content; simpl.
  - reflexivity.
  - apply IH.
Qed.

Lemma apply_calls_app (cs1 cs2 : list InsertCall) (content : Delta) :
  apply_calls (cs1 ++ cs2) content = apply_calls cs2 (apply_calls cs1 content).
Proof. unfold apply_calls. apply fold_left_app. Qed.

(** The loop from the second line on: the pending [lineAttrs] are those of
    the line before. *)
Lemma encode_lines_tail (rest : list Line) :
  forall (i : nat) (prev : Line) (content : Delta),
    let '(d, lineAttrs) := encode_lines (S i) rest content (line_attributes prev) in
    (if decide (lineAttrs = ∅) then d
     else Delta_insert d (IText newline) (Some lineAttrs))
    = apply_calls
        (match rest with
         | [] => if decide (line_attributes prev = ∅) then [] else [closing_newline prev]
         | _ => closing_newline prev :: insert_calls rest
         end) content.
Proof.
  induction rest as [|l rest IH]; intros i prev content.
  - cbn [encode_lines]. destruct (decide (line_attributes prev = ∅)); reflexivity.
  - cbn [encode_lines].
    specialize (IH (S i) l
      (encode_segments (Delta_insert content (IText newline) (Some (line_attributes prev)))
         (line_segments l))).
    destruct (encode_lines (S (S i)) rest _ (line_attributes l)) as [d la].
    rewrite IH. cbn [insert_calls].
    rewrite encode_segments_calls.
    change (apply_calls (closing_newline prev :: ?cs) content)
      with (apply_calls cs (Delta_insert content (IText newline) (Some (line_attributes prev)))).
    rewrite apply_calls_app. reflexivity.
Qed.

Lemma encodeContent_calls (lines : list Line) :
  encodeContent lines = apply_calls (insert_calls lines) [].
Proof.
  unfold encodeContent. destruct lines as [|l rest].
  - reflexivity.
  - cbn [encode_lines insert_calls].
    pose proof (encode_lines_tail rest 0 l (encode_segments [] (line_segments l))) as H.
    destruct (encode_lines 1 rest _ (line_attributes l)) as [d la].
    rewrite H, apply_calls_app, encode_segments_calls. reflexivity.
Qed.

(** ** [Delta.push] after an insert *)

Lemma Delta_push_insert_snoc (ops : Delta) (i1 i2 : InsertValue)
    (a1 a2 : option AttributeMap) :
  Delta_push (ops ++ [OpInsert i1 a1]) (OpInsert i2 a2) =
  match try_merge (OpInsert i1 a1) (OpInsert i2 a2) with
  | Some merged => ops ++ [merged]
  | None => ops ++ [OpInsert i1 a1; OpInsert i2 a2]
  end.
Proof.
  unfold Delta_push, place. rewrite reverse_snoc, reverse_involutive.
  destruct (try_merge _ _); [reflexivity|].
  rewrite <- app_assoc. reflexivity.
Qed.

Lemma Delta_push_call_snoc (ops : Delta) (i1 : InsertValue)
    (a1 : option AttributeMap) (c : InsertCall) :
  Delta_push (ops ++ [OpInsert i1 a1]) (op_of_call c) =
  match try_merge (OpInsert i1 a1) (op_of_call c) with
  | Some merged => ops ++ [merged]
  | None => ops ++ [OpInsert i1 a1; op_of_call c]
  end.
Proof. apply Delta_push_insert_snoc. Qed.

Lemma Delta_insert_push (ops : Delta) (c : InsertCall) :
  c.1 ≠ IText EmptyString →
  Delta_insert ops c.1 (Some c.2) = Delta_push ops (op_of_call c).
Proof.
  intros Hne. unfold Delta_insert, op_of_call.
  destruct c as [[[|ch s]|e] a]; simpl in *; congruence.
Qed.

(** ** Strings of line feeds *)

Lemma all_newline_app (s1 s2 : string) :
  all_newline (s1 +:+ s2) = all_newline s1 && all_newline s2.
Proof.
  induction s1 as [|c s1 IH]; simpl; [reflexivity|].
  rewrite IH. apply andb_assoc.
Qed.

Lemma string_length_app (s1 s2 : string) :
  String.length (s1 +:+ s2) = String.length s1 + String.length s2.
Proof. induction s1 as [|c s1 IH]; simpl; [reflexivity|]. f_equal. exact IH. Qed.

Lemma has_newline_all_newline (s : string) :
  s ≠ EmptyString → has_newline s = false → all_newline s = false.
Proof.
  destruct s as [|c s]; [congruence|]. simpl. intros _ H.
  apply orb_false_iff in H as [-> _]. reflexivity.
Qed.

Lemma split_nl_plain (s : string) : has_newline s = false → split_nl s = [s].
Proof.
  induction s as [|c s IH]; simpl; [reflexivity|].
  intros H. apply orb_false_iff in H as [Hc Hs].
  rewrite Hc, (IH Hs). reflexivity.
Qed.

(** ** Decoding, operation by operation *)

Lemma decode_run_snoc (ops : Delta) (op : Op) (st : DecodeState) :
  decode_run (ops ++ [op]) st = decode_op (decode_run ops st) op.
Proof. unfold decode_run. rewrite fold_left_app. reflexivity. Qed.

Lemma decode_run_app (ops1 ops2 : Delta) (st : DecodeState) :
  decode_run (ops1 ++ ops2) st = decode_run ops2 (decode_run ops1 st).
Proof. unfold decode_run. apply fold_left_app. Qed.

(** A run of line feeds decodes as its two halves do, one after the other. *)
Lemma decode_op_newlines_app (s1 s2 : string) (a : option AttributeMap)
    (st : DecodeState) :
  all_newline s1 = true → all_newline s2 = true →
  decode_op st (OpInsert (IText (s1 +:+ s2)) a) =
  decode_op (decode_op st (OpInsert (IText s1) a)) (OpInsert (IText s2) a).
Proof.
  intros H1 H2. unfold decode_op. cbn [op_insert op_attributes].
  rewrite all_newline_app, H1, H2. cbn [andb].
  rewrite string_length_app, Nat.add_comm. apply Nat.iter_add.
Qed.

Lemma default_op_of_call (c : InsertCall) :
  default ∅ (op_attributes (op_of_call c)) = c.2.
Proof.
  unfold op_of_call. cbn [op_attributes].
  destruct (decide (c.2 = ∅)) as [->|]; reflexivity.
Qed.

Lemma op_of_call_attributes_inj (c1 c2 : InsertCall) :
  op_attributes (op_of_call c1) = op_attributes (op_of_call c2) → c1.2 = c2.2.
Proof.
  intros H. rewrite <- (default_op_of_call c1), <- (default_op_of_call c2).
  congruence.
Qed.

(** ** Inserts that are merged harmlessly *)

Lemma split_nl_nonempty (s : string) : split_nl s ≠ [].
Proof.
  destruct s as [|c s]; [discriminate|]. cbn [split_nl].
  destruct (Ascii.eqb c nl); [discriminate|].
  destruct (split_nl s); discriminate.
Qed.

Lemma split_nl_app_newline (s u : string) :
  split_nl (s +:+ String nl u) = split_nl s ++ split_nl u.
Proof.
  induction s as [|c s IH].
  - cbn. reflexivity.
  - change (String c s +:+ String nl u) with (String c (s +:+ String nl u)).
    cbn [split_nl]. rewrite IH.
    destruct (Ascii.eqb c nl); [reflexivity|].
    pose proof (split_nl_nonempty s) as Hne.
    destruct (split_nl s); [congruence|reflexivity].
Qed.

Lemma string_app_assoc (s t u : string) : (s +:+ t) +:+ u = s +:+ (t +:+ u).
Proof.
  induction s as [|c s IH]; [reflexivity|].
  change (String c ((s +:+ t) +:+ u) = String c (s +:+ (t +:+ u))).
  rewrite IH. reflexivity.
Qed.

Lemma decode_pieces_snoc (a : AttributeMap) (u : string) (ps : list string) :
  ∀ i st,
    ps ≠ [] ∨ i ≠ 0 →
    decode_pieces i (ps ++ [u]) a st
    = push_segment (mkSegment (IText u) a) (close_line ∅ (decode_pieces i ps a st)).
Proof.
  induction ps as [|p ps IH]; intros i st Hi.
  - destruct i as [|i]; [destruct Hi; congruence|]. reflexivity.
  - cbn [app decode_pieces]. apply IH. right. discriminate.
Qed.

Lemma decode_op_text_newline_text (s u : string) (a : option AttributeMap)
    (st : DecodeState) :
  all_newline s = false → has_newline u = false →
  decode_op st (OpInsert (IText ((s +:+ newline) +:+ u)) a)
  = push_segment (mkSegment (IText u) (default ∅ a))
      (close_line ∅ (decode_op st (OpInsert (IText s) a))).
Proof.
  intros Hs Hu. unfold decode_op. cbn [op_insert op_attributes].
  rewrite string_app_assoc, all_newline_app, Hs. cbn [andb].
  change (newline +:+ u) with (String nl u).
  rewrite split_nl_app_newline, (split_nl_plain u Hu).
  apply decode_pieces_snoc. left. apply split_nl_nonempty.
Qed.

Lemma merges_ok_snoc (cs : list InsertCall) (c : InsertCall) :
  ∀ prev next,
    merges_ok prev (cs ++ [c]) next
    = merges_ok prev cs (Some c)
      && window_ok (match last cs with Some l => Some l | None => prev end) c next.
Proof.
  induction cs as [|a cs IH]; intros prev next.
  - cbn. rewrite andb_true_r. reflexivity.
  - change ((a :: cs) ++ [c]) with (a :: (cs ++ [c])).
    cbn [merges_ok]. rewrite IH, last_cons.
    assert (Hh : match cs ++ [c] with c' :: _ => Some c' | [] => next end
                 = match cs with c' :: _ => Some c' | [] => Some c end)
      by (destruct cs; reflexivity).
    rewrite Hh. destruct (last cs); rewrite andb_assoc; reflexivity.
Qed.

Lemma call_plain_nonempty (c : InsertCall) :
  call_plain c → c.1 ≠ IText EmptyString.
Proof.
  intros Hc Heq. unfold call_plain in Hc. rewrite Heq in Hc.
  destruct Hc as [H|[H _]]; [discriminate|congruence].
Qed.

Lemma call_plain_kind (c : InsertCall) :
  call_plain c →
  (∃ e, c.1 = IEmbed e ∧ is_text_call c = false ∧ is_newline_call c = false)
  ∨ (c.1 = IText newline ∧ is_text_call c = false ∧ is_newline_call c = true)
  ∨ (∃ s, c.1 = IText s ∧ s ≠ EmptyString ∧ has_newline s = false
          ∧ is_text_call c = true ∧ is_newline_call c = false).
Proof.
  unfold call_plain, is_text_call, is_newline_call.
  destruct c as [[s|e] a]; cbn [fst].
  - intros [->|[Hne Hnl]].
    + right. left. repeat split; reflexivity.
    + right. right. exists s.
      assert (s ≠ newline) by (intros ->; discriminate).
      repeat split; auto.
      * apply negb_true_iff, bool_decide_eq_false. assumption.
      * apply bool_decide_eq_false. congruence.
  - intros _. left. exists e. repeat split.
Qed.

Lemma window_text (prev next : option InsertCall) (c : InsertCall) :
  is_text_call c = true → window_ok prev c next = true → text_with c.2 next = false.
Proof.
  unfold window_ok. intros ->. apply negb_true_iff.
Qed.

Lemma window_newline_apart (prev next : option InsertCall) (c : InsertCall) :
  is_text_call c = false → is_newline_call c = true →
  window_ok prev c next = true →
  text_with c.2 prev = false → text_with c.2 next = false.
Proof.
  unfold window_ok. intros -> -> Hw Hprev. rewrite Hprev in Hw.
  destruct (text_with c.2 next) eqn:Hn; [|reflexivity].
  cbn [orb negb] in Hw.
  apply andb_true_iff in Hw as [Hw _]. apply andb_true_iff in Hw as [He Hp].
  apply bool_decide_eq_true in He. rewrite He in Hprev. congruence.
Qed.

Lemma window_newline_merged (prev next : option InsertCall) (c : InsertCall) :
  is_text_call c = false → is_newline_call c = true →
  window_ok prev c next = true →
  text_with c.2 prev = true → c.2 = ∅ ∧ text_with ∅ next = true.
Proof.
  unfold window_ok. intros -> -> Hw Hprev. rewrite Hprev in Hw.
  cbn [orb negb] in Hw.
  apply andb_true_iff in Hw as [Hw Hn]. apply andb_true_iff in Hw as [He _].
  apply bool_decide_eq_true in He. auto.
Qed.

Lemma in_step_snoc (cs : list InsertCall) (d : Delta) (c : InsertCall) :
  in_step cs d → in_step (cs ++ [c]) (d ++ [op_of_call c]).
Proof.
  intros H st. rewrite map_app. cbn [map]. rewrite !decode_run_snoc, H. reflexivity.
Qed.

Lemma decode_op_newline_call (c : InsertCall) (st : DecodeState) :
  c.1 = IText newline → decode_op st (op_of_call c) = close_line c.2 st.
Proof.
  intros Hc. unfold decode_op. rewrite default_op_of_call.
  unfold op_of_call. cbn [op_insert]. rewrite Hc. reflexivity.
Qed.

Lemma decode_op_text_call (c : InsertCall) (s : string) (st : DecodeState) :
  c.1 = IText s → s ≠ EmptyString → has_newline s = false →
  decode_op st (op_of_call c) = push_segment (mkSegment (IText s) c.2) st.
Proof.
  intros Hc Hne Hnl. unfold decode_op. rewrite default_op_of_call.
  unfold op_of_call. cbn [op_insert]. rewrite Hc.
  rewrite (has_newline_all_newline s Hne Hnl), (split_nl_plain s Hnl). reflexivity.
Qed.

(** The tail of the Delta when the operation of the last call stands alone. *)
Lemma tail_of_alone (prev next : option InsertCall) (c : InsertCall) :
  call_plain c → window_ok prev c next = true →
  (is_newline_call c = true → text_with c.2 prev = false) →
  tail_of c next (op_of_call c).
Proof.
  intros Hc Hw Hprev. unfold tail_of.
  destruct (call_plain_kind c Hc) as [(e & He & Ht & Hn)|[(Hnl & Ht & Hn)|(s & Hs & Hne & Hnl & Ht & Hn)]].
  - rewrite He. reflexivity.
  - rewrite Hnl. exists newline. rewrite Hn.
    split; [unfold op_of_call; rewrite Hnl; reflexivity|].
    split; [reflexivity|]. split; [discriminate|].
    exact (window_newline_apart prev next c Ht Hn Hw (Hprev Hn)).
  - rewrite Hs. exists s. rewrite Hn.
    split; [unfold op_of_call; rewrite Hs; reflexivity|].
    split; [exact (has_newline_all_newline s Hne Hnl)|]. split; [exact Hne|].
    exact (window_text prev next c Ht Hw).
Qed.

Lemma tail_of_cases (c : InsertCall) (next : option InsertCall) (o : Op) :
  tail_of c next o →
  (∃ e, c.1 = IEmbed e ∧ o = OpInsert (IEmbed e) (op_attributes (op_of_call c)))
  ∨ (∃ s sc, c.1 = IText sc
          ∧ o = OpInsert (IText s) (op_attributes (op_of_call c))
          ∧ all_newline s = is_newline_call c
          ∧ s ≠ EmptyString
          ∧ text_with c.2 next = false).
Proof.
  unfold tail_of. destruct c.1 as [sc|e] eqn:Hc.
  - intros (s & H). right. exists s, sc. split; [reflexivity|exact H].
  - intros ->. left. exists e. split; [reflexivity|].
    unfold op_of_call. rewrite Hc. reflexivity.
Qed.

Lemma is_text_call_text (c : InsertCall) (s : string) :
  c.1 = IText s → is_text_call c = negb (is_newline_call c).
Proof.
  intros Hc. unfold is_text_call, is_newline_call. rewrite Hc. f_equal.
  apply bool_decide_ext. split; [intros ->; reflexivity|intros [= ->]; reflexivity].
Qed.

Lemma is_text_call_embed (c : InsertCall) (e : gmap string JValue) :
  c.1 = IEmbed e → is_text_call c = false.
Proof. intros Hc. unfold is_text_call. rewrite Hc. reflexivity. Qed.

Lemma op_of_call_attributes_empty (c : InsertCall) :
  c.2 = ∅ → op_attributes (op_of_call c) = None.
Proof.
  intros Hc. unfold op_of_call. cbn [op_attributes]. rewrite Hc.
  destruct (decide (∅ = ∅)); congruence.
Qed.

Lemma try_merge_embed_last (e : gmap string JValue) (a : option AttributeMap) (newOp : Op) :
  try_merge (OpInsert (IEmbed e) a) newOp = None.
Proof.
  unfold try_merge. destruct (decide _); [|reflexivity].
  destruct newOp as [[?|?] ?|? ?|?]; reflexivity.
Qed.

Lemma try_merge_calls (s : string) (a : option AttributeMap) (c : InsertCall) :
  try_merge (OpInsert (IText s) a) (op_of_call c)
  = if decide (op_attributes (op_of_call c) = a) then
      match c.1 with
      | IText s2 => Some (OpInsert (IText (s +:+ s2)) (op_attributes (op_of_call c)))
      | IEmbed _ => None
      end
    else None.
Proof.
  unfold try_merge. cbn [op_attributes op_of_call].
  destruct (decide _); [|reflexivity]. destruct c.1; reflexivity.
Qed.

Lemma built_append (cs : list InsertCall) (l c : InsertCall)
    (next : option InsertCall) (d : Delta) :
  call_plain c → window_ok (Some l) c next = true →
  (is_newline_call c = true → text_with c.2 (Some l) = false) →
  in_step cs d →
  built (cs ++ [c]) next (d ++ [op_of_call c]).
Proof.
  intros Hc Hw Hprev Hs. unfold built. rewrite last_snoc. left.
  split; [apply in_step_snoc, Hs|].
  exists d, (op_of_call c). split; [reflexivity|].
  exact (tail_of_alone (Some l) next c Hc Hw Hprev).
Qed.

Lemma built_newline_run (cs : list InsertCall) (c : InsertCall)
    (next : option InsertCall) (d' : Delta) (s : string) :
  in_step cs (d' ++ [OpInsert (IText s) (op_attributes (op_of_call c))]) →
  all_newline s = true → c.1 = IText newline →
  text_with c.2 next = false →
  built (cs ++ [c]) next
    (d' ++ [OpInsert (IText (s +:+ newline)) (op_attributes (op_of_call c))]).
Proof.
  intros Hs Hall Hc Hnext. unfold built. rewrite last_snoc. left.
  assert (Hop : op_of_call c = OpInsert (IText newline) (op_attributes (op_of_call c)))
    by (unfold op_of_call; rewrite Hc; reflexivity).
  split.
  - intros st. rewrite map_app. cbn [map]. rewrite !decode_run_snoc.
    rewrite decode_op_newlines_app by (exact Hall || reflexivity).
    rewrite <- Hop, <- Hs, decode_run_snoc. reflexivity.
  - eexists d', _. split; [reflexivity|]. unfold tail_of. rewrite Hc.
    exists (s +:+ newline). split; [reflexivity|].
    split; [rewrite all_newline_app, Hall; unfold is_newline_call;
            rewrite Hc; reflexivity|].
    split; [destruct s; discriminate|exact Hnext].
Qed.

Lemma built_pending (cs : list InsertCall) (c : InsertCall)
    (next : option InsertCall) (d' : Delta) (s : string) :
  in_step cs (d' ++ [OpInsert (IText s) None]) →
  all_newline s = false → c.1 = IText newline → c.2 = ∅ →
  text_with ∅ next = true →
  built (cs ++ [c]) next (d' ++ [OpInsert (IText (s +:+ newline)) None]).
Proof.
  intros Hs Hall Hc Hc2 Hnext. unfold built. rewrite last_snoc. right.
  split; [unfold is_newline_call; rewrite Hc; reflexivity|].
  split; [exact Hc2|]. split; [exact Hnext|].
  exists d', s. split; [reflexivity|]. split; [exact Hall|].
  intros st. rewrite map_app. cbn [map]. rewrite decode_run_snoc, <- Hs.
  rewrite (decode_op_newline_call c _ Hc), Hc2. reflexivity.
Qed.

Lemma built_resume (cs : list InsertCall) (c : InsertCall)
    (next : option InsertCall) (d' : Delta) (s u : string) :
  (∀ st, decode_run (map op_of_call cs) st
         = close_line ∅ (decode_run (d' ++ [OpInsert (IText s) None]) st)) →
  all_newline s = false →
  c.1 = IText u → u ≠ EmptyString → has_newline u = false → c.2 = ∅ →
  text_with c.2 next = false →
  built (cs ++ [c]) next (d' ++ [OpInsert (IText ((s +:+ newline) +:+ u)) None]).
Proof.
  intros Hpend Hall Hc Hne Hnl Hc2 Hnext. unfold built. rewrite last_snoc. left.
  assert (Hattr : op_attributes (op_of_call c) = None).
  { unfold op_of_call. cbn [op_attributes]. rewrite Hc2.
    destruct (decide (∅ = ∅)); congruence. }
  split.
  - intros st. rewrite map_app. cbn [map]. rewrite !decode_run_snoc.
    rewrite (decode_op_text_newline_text s u None _ Hall Hnl).
    rewrite (decode_op_text_call c u _ Hc Hne Hnl), Hpend, decode_run_snoc, Hc2.
    reflexivity.
  - eexists d', _. split; [reflexivity|]. unfold tail_of. rewrite Hc.
    exists ((s +:+ newline) +:+ u). rewrite Hattr. split; [reflexivity|].
    assert (Hfalse : all_newline ((s +:+ newline) +:+ u) = false)
      by (rewrite !all_newline_app, Hall; reflexivity).
    split; [rewrite Hfalse; unfold is_newline_call; rewrite Hc;
            symmetry; apply bool_decide_eq_false; intros [= ->]; discriminate|].
    split; [intros Heq; rewrite Heq in Hfalse; discriminate|exact Hnext].
Qed.

Lemma text_with_Some (a : AttributeMap) (c : InsertCall) :
  text_with a (Some c) = is_text_call c && bool_decide (c.2 = a).
Proof. reflexivity. Qed.

Lemma op_of_call_attributes_eq (c1 c2 : InsertCall) :
  c1.2 = c2.2 → op_attributes (op_of_call c1) = op_attributes (op_of_call c2).
Proof. unfold op_of_call. cbn [op_attributes]. intros ->. reflexivity. Qed.

Lemma Delta_push_alone (d' : Delta) (i : InsertValue) (a : option AttributeMap)
    (c : InsertCall) :
  try_merge (OpInsert i a) (op_of_call c) = None →
  Delta_push (d' ++ [OpInsert i a]) (op_of_call c)
  = (d' ++ [OpInsert i a]) ++ [op_of_call c].
Proof.
  intros H. rewrite Delta_push_call_snoc, H, <- app_assoc. reflexivity.
Qed.

Lemma apply_calls_built (cs : list InsertCall) :
  ∀ next, Forall call_plain cs → merges_ok None cs next = true →
          built cs next (apply_calls cs []).
Proof.
  induction cs as [|c cs IH] using rev_ind; intros next Hpl Hok; [reflexivity|].
  apply Forall_app in Hpl as [Hpl Hc]. apply Forall_inv in Hc.
  rewrite merges_ok_snoc in Hok. apply andb_true_iff in Hok as [Hok Hw].
  specialize (IH (Some c) Hpl Hok).
  rewrite apply_calls_app.
  change (apply_calls [c] ?d) with (Delta_insert d c.1 (Some c.2)).
  rewrite (Delta_insert_push _ c (call_plain_nonempty c Hc)).
  unfold built in IH.
  destruct (last cs) as [l|] eqn:Hl.
  2: { rewrite IH. apply last_None in Hl. subst cs.
       unfold built. rewrite last_snoc. left.
       split; [intros st; reflexivity|].
       exists [], (op_of_call c). split; [reflexivity|].
       exact (tail_of_alone None next c Hc Hw (fun _ => eq_refl)). }
  destruct IH as [(Hs & d' & o & Hd & Ho)|(Hln & Hl2 & Hnext & d' & s & Hd & Hall & Hpend)].
  - (* the Delta is in step with the calls *)
    rewrite Hd in *.
    destruct (tail_of_cases l (Some c) o Ho)
      as [(el & Hle & ->)|(s & sl & Hls & -> & Hall & Hne & Hnt)].
    + (* after an embed nothing is merged *)
      rewrite (Delta_push_alone _ _ _ _ (try_merge_embed_last el _ _)).
      apply (built_append cs l c next _ Hc Hw); [|exact Hs].
      intros _. rewrite text_with_Some, (is_text_call_embed l el Hle). reflexivity.
    + pose proof (is_text_call_text l sl Hls) as Hlt.
      destruct (call_plain_kind c Hc)
        as [(e & Hce & Hct & Hcn)|[(Hcnl & Hct & Hcn)|(u & Hcu & Hune & Hunl & Hct & Hcn)]].
      * (* an embed after a string *)
        rewrite Delta_push_alone
          by (rewrite try_merge_calls, Hce; destruct (decide _); reflexivity).
        apply (built_append cs l c next _ Hc Hw); [congruence|exact Hs].
      * (* a closing newline after a string *)
        destruct (decide (c.2 = l.2)) as [Heq|Hneq].
        -- pose proof (op_of_call_attributes_eq c l Heq) as Hattr.
           rewrite Delta_push_call_snoc, try_merge_calls, Hcnl.
           rewrite (decide_True (P := _ = _)) by exact Hattr.
           rewrite <- Hattr in Hs.
           destruct (is_newline_call l) eqn:Hln.
           ++ apply built_newline_run; [exact Hs|exact Hall|exact Hcnl|].
              apply (window_newline_apart (Some l) next c Hct Hcn Hw).
              rewrite text_with_Some, Hlt. reflexivity.
           ++ destruct (window_newline_merged (Some l) next c Hct Hcn Hw)
                as [Hc2 Hnext].
              { rewrite text_with_Some, Hlt. cbn [negb andb].
                apply bool_decide_eq_true. congruence. }
              rewrite (op_of_call_attributes_empty c Hc2) in Hs |- *.
              apply built_pending; assumption.
        -- rewrite Delta_push_alone.
           2: { rewrite try_merge_calls. destruct (decide _) as [Ha|]; [|reflexivity].
                apply op_of_call_attributes_inj in Ha. contradiction. }
           apply (built_append cs l c next _ Hc Hw); [|exact Hs].
           intros _. rewrite text_with_Some.
           apply andb_false_iff. right. apply bool_decide_eq_false. congruence.
      * (* text after a string: their attributes differ *)
        rewrite text_with_Some, Hct in Hnt. cbn [andb] in Hnt.
        apply bool_decide_eq_false in Hnt.
        rewrite Delta_push_alone.
        2: { rewrite try_merge_calls. destruct (decide _) as [Ha|]; [|reflexivity].
             apply op_of_call_attributes_inj in Ha. contradiction. }
        apply (built_append cs l c next _ Hc Hw); [congruence|exact Hs].
  - (* a closing newline is waiting for the text after it *)
    rewrite Hd. rewrite text_with_Some in Hnext.
    apply andb_true_iff in Hnext as [Hct Hc2]. apply bool_decide_eq_true in Hc2.
    destruct (call_plain_kind c Hc)
      as [(e & Hce & Hct' & Hcn)|[(Hcnl & Hct' & Hcn)|(u & Hcu & Hune & Hunl & _ & Hcn)]];
      [congruence|congruence|].
    rewrite Delta_push_call_snoc, try_merge_calls, Hcu.
    rewrite (decide_True (P := _ = _)) by exact (op_of_call_attributes_empty c Hc2).
    rewrite (op_of_call_attributes_empty c Hc2).
    apply built_resume; try assumption.
    exact (window_text (Some l) next c Hct Hw).
Qed.

Lemma apply_calls_in_step (cs : list InsertCall) :
  Forall call_plain cs → merges_ok None cs None = true →
  in_step cs (apply_calls cs []).
Proof.
  intros Hpl Hok. pose proof (apply_calls_built cs None Hpl Hok) as Hb.
  unfold built in Hb. destruct (last cs) as [c|] eqn:Hl.
  - destruct Hb as [[Hs _]|(_ & _ & Hnext & _)]; [exact Hs|discriminate].
  - apply last_None in Hl. subst cs. rewrite Hb. intros st. reflexivity.
Qed.

(** ** Decoding the operations of a document's inserts *)

Lemma decode_op_segment (seg : Segment) (st : DecodeState) :
  segment_plain seg = true →
  decode_op st (op_of_call (seg_insert seg, seg_attributes seg)) = push_segment seg st.
Proof.
  destruct seg as [[s|e] a]; unfold segment_plain; cbn [seg_insert seg_attributes].
  - intros H. apply andb_true_iff in H as [Hne Hnl].
    apply negb_true_iff in Hne, Hnl. apply bool_decide_eq_false in Hne.
    unfold decode_op. rewrite default_op_of_call.
    cbn [op_of_call op_insert fst snd].
    rewrite (has_newline_all_newline s Hne Hnl), (split_nl_plain s Hnl).
    reflexivity.
  - intros _. unfold decode_op. rewrite default_op_of_call. reflexivity.
Qed.

Lemma decode_run_segment_calls (l : Line) (st : DecodeState) :
  forallb segment_plain (line_segments l) = true →
  decode_run (map op_of_call (segment_calls l)) st = (st.1, st.2 ++ line_segments l).
Proof.
  unfold segment_calls. revert st.
  induction (line_segments l) as [|seg segs IH]; intros st H.
  - simpl. rewrite app_nil_r. destruct st; reflexivity.
  - cbn [forallb] in H. apply andb_true_iff in H as [Hseg Hsegs].
    cbn [map]. unfold decode_run. cbn [fold_left]. fold (decode_run).
    rewrite (decode_op_segment seg st Hseg).
    change (fold_left decode_op ?ops ?s) with (decode_run ops s).
    rewrite (IH _ Hsegs). unfold push_segment. cbn [fst snd].
    rewrite <- app_assoc. reflexivity.
Qed.

Lemma decode_op_closing_newline (l : Line) (st : DecodeState) :
  decode_op st (op_of_call (closing_newline l)) = close_line (line_attributes l) st.
Proof.
  unfold decode_op. rewrite default_op_of_call. reflexivity.
Qed.

Lemma dropRightWhile_fixed_last {A : Type} (p : A → bool) (l : list A) (x : A) :
  dropRightWhile p l = l → last l = Some x → p x = false.
Proof.
  induction l as [|a rest IH]; [discriminate|].
  cbn [dropRightWhile].
  destruct (dropRightWhile p rest) as [|k ks] eqn:Hd.
  - destruct (p a) eqn:Hp; [discriminate|].
    intros [= <-]. cbn. intros [= <-]. exact Hp.
  - intros [= <-]. rewrite last_cons_cons. apply IH. reflexivity.
Qed.

Lemma line_not_empty_segments (l : Line) :
  line_isEmpty l = false → line_attributes l = ∅ → line_segments l ≠ [].
Proof.
  unfold line_isEmpty. intros H Ha Hs. rewrite Hs, Ha in H. discriminate.
Qed.

Lemma decode_insert_calls (x : list Line) :
  ∀ res : list Line,
    segments_plain x = true →
    (∀ l, last x = Some l → line_isEmpty l = false) →
    decode_finish (decode_run (map op_of_call (insert_calls x)) (res, [])) = res ++ x.
Proof.
  induction x as [|l rest IH]; intros res Hpl Hlast.
  - cbn. rewrite app_nil_r. reflexivity.
  - unfold segments_plain in Hpl. cbn [forallb] in Hpl.
    apply andb_true_iff in Hpl as [Hl Hrest].
    cbn [insert_calls]. rewrite map_app, decode_run_app.
    rewrite (decode_run_segment_calls l _ Hl). cbn [fst snd app].
    destruct rest as [|l2 rest].
    + specialize (Hlast l eq_refl).
      destruct (decide (line_attributes l = ∅)) as [Ha|Ha].
      * pose proof (line_not_empty_segments l Hlast Ha) as Hs.
        cbn. unfold decode_finish. cbn [fst snd].
        destruct l as [segs a]. cbn in *. subst a.
        destruct segs; [congruence|reflexivity].
      * cbn [map]. unfold decode_run. cbn [fold_left].
        rewrite decode_op_closing_newline. unfold close_line, decode_finish.
        cbn [fst snd]. destruct l; reflexivity.
    + cbn [map]. unfold decode_run at 1. cbn [fold_left].
      rewrite decode_op_closing_newline. unfold close_line. cbn [fst snd].
      fold (decode_run (map op_of_call (insert_calls (l2 :: rest)))
              (res ++ [mkLine (line_segments l) (line_attributes l)], [])).
      rewrite (IH (res ++ [mkLine (line_segments l) (line_attributes l)]) Hrest).
      * rewrite <- app_assoc. destruct l; reflexivity.
      * intros l' Hl'. apply Hlast. rewrite last_cons_cons. exact Hl'.
Qed.

Lemma insert_calls_plain (x : list Line) :
  segments_plain x = true → Forall call_plain (insert_calls x).
Proof.
  assert (Hnl : ∀ l, call_plain (closing_newline l)).
  { intros l. left. reflexivity. }
  assert (Hsegs : ∀ l, forallb segment_plain (line_segments l) = true →
                       Forall call_plain (segment_calls l)).
  { intros l. unfold segment_calls.
    induction (line_segments l) as [|seg segs IH]; intros H; [constructor|].
    cbn [forallb] in H. apply andb_true_iff in H as [Hseg Hs].
    cbn [map]. constructor; [|exact (IH Hs)].
    unfold call_plain, segment_plain in *. cbn [fst].
    destruct (seg_insert seg) as [s|e]; [|exact I].
    apply andb_true_iff in Hseg as [Hne Hn].
    apply negb_true_iff in Hne, Hn. apply bool_decide_eq_false in Hne.
    right. split; assumption. }
  induction x as [|l rest IH]; intros H; [constructor|].
  unfold segments_plain in H. cbn [forallb] in H.
  apply andb_true_iff in H as [Hl Hrest].
  cbn [insert_calls]. apply Forall_app. split; [exact (Hsegs l Hl)|].
  destruct rest as [|l2 rest].
  - destruct (decide (line_attributes l = ∅)); repeat constructor.
  - constructor; [apply Hnl|exact (IH Hrest)].
Qed.

(** ** The round trip *)

(** X19.  A document without trailing empty lines, whose text segments are
    non-empty and hold no line feed, and whose inserts are merged harmlessly
    (no two texts side by side with the same attributes; a closing newline
    with the attributes of a text next to it only when it has none and
    stands between two texts that have none), is decoded back from its
    encoding unchanged. *)
Theorem decode_encode_roundtrip (x : list Line) :
  _removeEmptyLines x = x →
  segments_plain x = true →
  merges_harmless x = true →
  decodeContent (Some (encodeContent x)) = x.
Proof.
  intros Hrm Hpl Hok. unfold decodeContent. rewrite encodeContent_calls.
  change (fold_left decode_op ?ops ?st) with (decode_run ops st).
  rewrite (apply_calls_in_step (insert_calls x) (insert_calls_plain x Hpl) Hok).
  apply (decode_insert_calls x [] Hpl).
  intros l Hl. exact (dropRightWhile_fixed_last line_isEmpty x l Hrm Hl).
Qed.

Lemma decode_encode_roundtrip_witness :
  _removeEmptyLines sample_document = sample_document
  ∧ segments_plain sample_document = true
  ∧ merges_harmless sample_document = true
  ∧ decodeContent (Some (encodeContent sample_document)) = sample_document.
Proof.
  assert (H1 : _removeEmptyLines sample_document = sample_document)
    by (vm_compute; reflexivity).
  assert (H2 : segments_plain sample_document = true) by (vm_compute; reflexivity).
  assert (H3 : merges_harmless sample_document = true) by (vm_compute; reflexivity).
  exact (conj H1 (conj H2 (conj H3
           (decode_encode_roundtrip sample_document H1 H2 H3)))).
Defined.


(** What the line feed does: the one line is decoded as two. *)
Example line_feed_document_decoded :
  decodeContent (Some (encodeContent line_feed_document))
  = [ mkLine [text "a" ∅] ∅; mkLine [text "b" ∅] ∅ ].
Proof. vm_compute. reflexivity. Qed.

(** On the small documents, none of which holds an empty text segment, the
    conditions of the theorem are exactly those under which the round trip
    holds. *)
Example small_documents_roundtrip :
  forallb
    (fun x =>
       Bool.eqb (bool_decide (decodeContent (Some (encodeContent x)) = x))
         (bool_decide (_removeEmptyLines x = x) && merges_harmless x))
    small_documents = true.
Proof. vm_compute. reflexivity. Qed.

(** Other documents without trailing empty lines that do not come back: an
    empty text segment is dropped, two plain texts side by side are joined,
    and a plain line before a bold one leaves an empty segment behind. *)
Example empty_text_document_decoded :
  _removeEmptyLines empty_text_document = empty_text_document
  ∧ decodeContent (Some (encodeContent empty_text_document))
    = [ mkLine [image "a.png"] ∅ ].
Proof. split; vm_compute; reflexivity. Qed.

Example adjacent_text_document_decoded :
  _removeEmptyLines adjacent_text_document = adjacent_text_document
  ∧ decodeContent (Some (encodeContent adjacent_text_document))
    = [ mkLine [text "ab" ∅] ∅ ].
Proof. split; vm_compute; reflexivity. Qed.

Example plain_then_bold_document_decoded :
  _removeEmptyLines plain_then_bold_document = plain_then_bold_document
  ∧ decodeContent (Some (encodeContent plain_then_bold_document))
    = [ mkLine [text "a" ∅] ∅; mkLine [text EmptyString ∅; text "b" bold] ∅ ].
Proof. split; vm_compute; reflexivity. Qed.

(** ** The units of an encoded document *)

Lemma delta_units_app (d1 d2 : Delta) :
  delta_units (d1 ++ d2) = delta_units d1 ++ delta_units d2.
Proof. unfold delta_units. apply flat_map_app. Qed.

Lemma list_ascii_of_string_app (s1 s2 : string) :
  list_ascii_of_string (s1 +:+ s2) = list_ascii_of_string s1 ++ list_ascii_of_string s2.
Proof. induction s1 as [|c s1 IH]; simpl; [reflexivity|]. f_equal. exact IH. Qed.

Lemma try_merge_units (lastOp newOp merged : Op) :
  try_merge lastOp newOp = Some merged →
  op_units merged = op_units lastOp ++ op_units newOp.
Proof.
  unfold try_merge.
  destruct (decide (op_attributes newOp = op_attributes lastOp)) as [Ha|];
    [|discriminate].
  destruct newOp as [[s2|e2] a2|n2 a2|n2], lastOp as [[s1|e1] a1|n1 a1|n1];
    try discriminate; cbn [op_attributes] in Ha; subst; intros [= <-].
  - unfold op_units, call_units. cbn [fst snd].
    rewrite list_ascii_of_string_app, map_app. reflexivity.
  - reflexivity.
Qed.

Lemma place_units (front back : Delta) (newOp : Op) :
  delta_units (place front back newOp)
  = delta_units front ++ op_units newOp ++ delta_units back.
Proof.
  unfold place. destruct (reverse front) as [|lastOp rfront] eqn:Hr.
  - rewrite delta_units_app. reflexivity.
  - destruct (try_merge lastOp newOp) as [merged|] eqn:Hm.
    + assert (Hf : front = reverse rfront ++ [lastOp]).
      { rewrite <- (reverse_involutive front), Hr, reverse_cons. reflexivity. }
      rewrite Hf, !delta_units_app. cbn [delta_units flat_map].
      rewrite (try_merge_units _ _ _ Hm), app_nil_r, <- !app_assoc. reflexivity.
    + rewrite delta_units_app. reflexivity.
Qed.

Lemma Delta_push_insert_units (ops : Delta) (i : InsertValue)
    (a : option AttributeMap) :
  delta_units (Delta_push ops (OpInsert i a))
  = delta_units ops ++ op_units (OpInsert i a).
Proof.
  unfold Delta_push. destruct (reverse ops) as [|lastOp rfront] eqn:Hr.
  - apply (f_equal reverse) in Hr. rewrite reverse_involutive in Hr. subst ops.
    cbn. rewrite app_nil_r. reflexivity.
  - assert (Hops : ops = reverse rfront ++ [lastOp]).
    { rewrite <- (reverse_involutive ops), Hr, reverse_cons. reflexivity. }
    destruct lastOp as [i1 a1|n1 a1|n1].
    + rewrite place_units. cbn [delta_units flat_map]. rewrite app_nil_r.
      reflexivity.
    + rewrite place_units. cbn [delta_units flat_map]. rewrite app_nil_r.
      reflexivity.
    + destruct rfront as [|o rfront].
      * subst ops. cbn. rewrite !app_nil_r. reflexivity.
      * rewrite place_units, Hops, delta_units_app. cbn [delta_units flat_map op_units].
        rewrite !app_nil_r. reflexivity.
Qed.

Lemma Delta_insert_units (ops : Delta) (c : InsertCall) :
  delta_units (Delta_insert ops c.1 (Some c.2)) = delta_units ops ++ call_units c.
Proof.
  assert (Hn : op_units (OpInsert c.1 (if decide (c.2 = ∅) then None else Some c.2))
               = call_units c).
  { unfold op_units. destruct c as [i a]. cbn [fst snd].
    destruct (decide (a = ∅)) as [->|]; reflexivity. }
  unfold Delta_insert. destruct c as [[[|ch s]|e] a]; cbn [fst snd] in *.
  - cbn. rewrite app_nil_r. reflexivity.
  - rewrite Delta_push_insert_units, Hn. reflexivity.
  - rewrite Delta_push_insert_units, Hn. reflexivity.
Qed.

Lemma apply_calls_units (cs : list InsertCall) (d : Delta) :
  delta_units (apply_calls cs d) = delta_units d ++ flat_map call_units cs.
Proof.
  revert d. induction cs as [|c cs IH]; intros d.
  - cbn. rewrite app_nil_r. reflexivity.
  - change (apply_calls (c :: cs) d) with (apply_calls cs (Delta_insert d c.1 (Some c.2))).
    rewrite IH, Delta_insert_units, <- app_assoc. reflexivity.
Qed.

Lemma insert_calls_snoc (lines : list Line) (l : Line) :
  insert_calls (lines ++ [l])
  = insert_calls_every_line lines ++ segment_calls l
    ++ (if decide (line_attributes l = ∅) then [] else [closing_newline l]).
Proof.
  induction lines as [|l0 lines IH]; [reflexivity|].
  change ((l0 :: lines) ++ [l]) with (l0 :: (lines ++ [l])).
  remember (lines ++ [l]) as tail eqn:Ht.
  destruct tail as [|l1 rest]; [destruct lines; discriminate|].
  change (insert_calls (l0 :: l1 :: rest))
    with (segment_calls l0 ++ closing_newline l0 :: insert_calls (l1 :: rest)).
  rewrite IH. unfold insert_calls_every_line. cbn [flat_map].
  rewrite <- !app_assoc. reflexivity.
Qed.

(** C7, as amended.  Read unit by unit, the Delta of [encodeContent] holds,
    for every line but the last, the units of the line's segments followed
    by one newline that carries the line's attributes; the last line is
    followed by such a newline only if its attributes are not empty. *)
Theorem encodeContent_closing_newlines (lines : list Line) (l : Line) :
  delta_units (encodeContent (lines ++ [l]))
  = flat_map (fun l0 => line_units l0 ++ [closing_newline l0]) lines
    ++ line_units l
    ++ (if decide (line_attributes l = ∅) then [] else [closing_newline l]).
Proof.
  rewrite encodeContent_calls, apply_calls_units, insert_calls_snoc.
  cbn [delta_units flat_map app]. rewrite !flat_map_app. f_equal.
  - unfold insert_calls_every_line. induction lines as [|l0 lines IH]; [reflexivity|].
    cbn [flat_map]. rewrite !flat_map_app, IH. unfold line_units.
    rewrite <- !app_assoc. reflexivity.
  - f_equal. destruct (decide (line_attributes l = ∅)); reflexivity.
Qed.

(** C7, as stated, fails: a single line without block attributes is followed
    by no newline at all. *)
Lemma encodeContent_newline_every_line_fails :
  ¬ (∀ lines : list Line,
       delta_units (encodeContent lines)
       = flat_map (fun l0 => line_units l0 ++ [closing_newline l0]) lines).
Proof.
  intros H. specialize (H single_line_document).
  assert (Hne : bool_decide
            (delta_units (encodeContent single_line_document)
             = flat_map (fun l0 => line_units l0 ++ [closing_newline l0])
                 single_line_document) = false) by (vm_compute; reflexivity).
  apply bool_decide_eq_false in Hne. exact (Hne H).
Qed.

Example single_line_document_encoded :
  encodeContent single_line_document = [ OpInsert (IText "a") (Some bold) ].
Proof. vm_compute. reflexivity. Qed.

(** ** Trailing empty lines *)

Lemma dropRightWhile_last {A : Type} (p : A → bool) (l : list A) :
  match last (dropRightWhile p l) with
  | Some x => p x = false
  | None => True
  end.
Proof.
  induction l as [|a rest IH]; [exact I|].
  cbn [dropRightWhile].
  destruct (dropRightWhile p rest) as [|k ks].
  - destruct (p a) eqn:Hp; [exact I|exact Hp].
  - rewrite last_cons_cons. exact IH.
Qed.

Lemma removeEmptyLines_no_trailing_empty (lines : list Line) :
  no_trailing_empty (_removeEmptyLines lines) = true.
Proof.
  unfold no_trailing_empty, _removeEmptyLines.
  pose proof (dropRightWhile_last line_isEmpty lines) as H.
  destruct (last (dropRightWhile line_isEmpty lines)); [|reflexivity].
  rewrite H. reflexivity.
Qed.

(** C2, as amended.  Whatever the Delta, [_removeEmptyLines] applied to its
    decoding leaves no trailing fully-empty line, and any document the
    text-change effect hands to the change callback is such a one. *)
Theorem removeEmptyLines_decodeContent (d : option Delta) :
  no_trailing_empty (_removeEmptyLines (decodeContent d)) = true
  ∧ ∀ (Q : Type) (c : Component Q),
      Forall (fun doc => no_trailing_empty doc = true)
        (emitted (capture_effect c).2).
Proof.
  split; [apply removeEmptyLines_no_trailing_empty|].
  intros Q c. unfold capture_effect.
  destruct (editorRef c); [|constructor].
  destruct (mouseDown c); [constructor|].
  destruct (capture c); [|constructor].
  cbn. constructor; [apply removeEmptyLines_no_trailing_empty|constructor].
Qed.

(** C2, as stated, fails: [decodeContent] alone keeps the trailing empty
    line of a blank editor, and [replaceAssets], which does not call
    [_removeEmptyLines], hands a trailing empty line to the change
    callback. *)
Lemma decodeContent_trailing_empty :
  no_trailing_empty (decodeContent (Some blank_delta)) = false
  ∧ ∃ doc,
      emitted (replaceAssets {[ "a.png" := "b.png" ]}
                 (mkComponent (Some image_document) false None (Some gallery_editor))).2 = [doc]
      ∧ no_trailing_empty doc = false.
Proof.
  split; [vm_compute; reflexivity|].
  eexists. split; vm_compute; reflexivity.
Qed.

Example blank_delta_decoded :
  decodeContent (Some blank_delta) = [ mkLine [] ∅ ].
Proof. vm_compute. reflexivity. Qed.

(** ** Asset replacement *)

Lemma replace_op_rewritten (assets : gmap string string) (isChanged : bool) (op : Op) :
  ∃ op', replace_op assets isChanged op
         = (op', isChanged || bool_decide (is_Some (op_replacement assets op)))
         ∧ rewritten assets op op'
         ∧ op_attributes op' = op_attributes op
         ∧ op_insert op' = rewrite_insert assets <$> op_insert op.
Proof.
  unfold rewritten, op_replacement, rewrite_insert, replacement, image_uri, replace_op.
  destruct op as [[s|e] a|n a|n]; cbn [op_insert op_attributes fmap option_fmap option_map];
    try (eexists; rewrite orb_false_r; repeat split; reflexivity).
  destruct (e !! "image") as [[uri|?|?| |?]|];
    try (eexists; rewrite orb_false_r; repeat split; reflexivity).
  destruct (get_property assets uri) as [replace|];
    try (eexists; rewrite orb_false_r; repeat split; reflexivity).
  destruct (truthy replace);
    eexists; [rewrite orb_true_r|rewrite orb_false_r]; repeat split; reflexivity.
Qed.

Lemma replace_ops_rewritten (assets : gmap string string) (ops : Delta) :
  ∀ isChanged : bool,
    ∃ ops', replace_ops assets isChanged ops
            = (ops', isChanged
                     || existsb (fun op => bool_decide (is_Some (op_replacement assets op))) ops)
            ∧ Forall2 (rewritten assets) ops ops'
            ∧ Forall2 (fun op op' => op_attributes op' = op_attributes op
                                     ∧ op_insert op' = rewrite_insert assets <$> op_insert op)
                ops ops'.
Proof.
  induction ops as [|op ops IH]; intros isChanged.
  - exists []. cbn. rewrite orb_false_r. repeat split; constructor.
  - destruct (replace_op_rewritten assets isChanged op) as (op' & Hop & Hrw & Ha & Hi).
    destruct (IH (isChanged || bool_decide (is_Some (op_replacement assets op))))
      as (ops' & Hops & Hrws & Hais).
    exists (op' :: ops'). cbn [replace_ops existsb]. rewrite Hop, Hops, orb_assoc.
    repeat split; constructor; auto.
Qed.

(** Decoding sees a change of the insert of an operation as the same
    change of the segment it pushes, when the change leaves text alone and
    keeps an embed an embed. *)
Section InsertMap.
Variable f : InsertValue → InsertValue.
Hypothesis f_text : ∀ s, f (IText s) = IText s.
Hypothesis f_embed : ∀ e, ∃ e', f (IEmbed e) = IEmbed e'.

Lemma close_line_map (a : AttributeMap) (st : DecodeState) :
  close_line a (map_state f st) = map_state f (close_line a st).
Proof using Type.
  unfold close_line, map_state. cbn [fst snd]. rewrite map_app. reflexivity.
Qed.

Lemma push_segment_map (seg : Segment) (st : DecodeState) :
  push_segment (map_segment f seg) (map_state f st) = map_state f (push_segment seg st).
Proof using Type.
  unfold push_segment, map_state. cbn [fst snd]. rewrite map_app. reflexivity.
Qed.

Lemma map_segment_text (s : string) (a : AttributeMap) :
  map_segment f (mkSegment (IText s) a) = mkSegment (IText s) a.
Proof using f_text.
  unfold map_segment. cbn [seg_insert seg_attributes]. rewrite f_text. reflexivity.
Qed.

Lemma decode_pieces_map (pieces : list string) (a : AttributeMap) :
  ∀ i st,
    decode_pieces i pieces a (map_state f st) = map_state f (decode_pieces i pieces a st).
Proof using f_text.
  induction pieces as [|piece rest IH]; intros i st; [reflexivity|].
  cbn [decode_pieces]. rewrite <- IH. f_equal.
  rewrite <- (map_segment_text piece a) at 1.
  destruct i; [|rewrite close_line_map]; apply push_segment_map.
Qed.

Lemma decode_op_map (op op' : Op) (st : DecodeState) :
  op_attributes op' = op_attributes op →
  op_insert op' = f <$> op_insert op →
  decode_op (map_state f st) op' = map_state f (decode_op st op).
Proof using f_text f_embed.
  intros Ha Hi. unfold decode_op. rewrite Ha, Hi.
  destruct (op_insert op) as [[s|e]|]; cbn [fmap option_fmap option_map].
  - rewrite f_text. destruct (all_newline s).
    + induction (String.length s) as [|n IH]; [reflexivity|].
      cbn [Nat.iter nat_rect]. unfold Nat.iter in IH. rewrite IH.
      apply close_line_map.
    + apply decode_pieces_map.
  - rewrite <- push_segment_map. unfold map_segment at 1.
    cbn [seg_insert seg_attributes]. destruct (f_embed e) as [e' ->]. reflexivity.
  - rewrite <- push_segment_map, map_segment_text. reflexivity.
Qed.

Lemma decode_run_map (ops ops' : Delta) :
  Forall2 (fun op op' => op_attributes op' = op_attributes op
                         ∧ op_insert op' = f <$> op_insert op)
    ops ops' →
  ∀ st, decode_run ops' (map_state f st) = map_state f (decode_run ops st).
Proof using f_text f_embed.
  induction 1 as [|op op' ops ops' [Ha Hi] _ IH]; intros st; [reflexivity|].
  unfold decode_run. cbn [fold_left]. fold (decode_run ops' ) (decode_run ops).
  rewrite (decode_op_map op op' st Ha Hi). apply IH.
Qed.

Lemma decode_finish_map (st : DecodeState) :
  decode_finish (map_state f st) = map (map_line f) (decode_finish st).
Proof using Type.
  unfold decode_finish, map_state. cbn [fst snd].
  destruct st.2 as [|seg segs]; [reflexivity|].
  cbn [map]. rewrite map_app. reflexivity.
Qed.
End InsertMap.

Lemma replace_ops_unchanged (assets : gmap string string) (ops : Delta)
    (isChanged : bool) :
  Forall (fun op => op_replacement assets op = None) ops →
  replace_ops assets isChanged ops = (ops, isChanged).
Proof.
  intros Hnone.
  destruct (replace_ops_rewritten assets ops isChanged) as (ops' & -> & Hrw & _).
  assert (Hops : ops' = ops).
  { clear -Hnone Hrw. induction Hrw as [|op op' ops ops' Hop _ IH]; [reflexivity|].
    apply Forall_cons in Hnone as [Hn Hns].
    unfold rewritten in Hop. rewrite Hn in Hop. rewrite Hop, (IH Hns). reflexivity. }
  assert (Hflag : existsb (fun op => bool_decide (is_Some (op_replacement assets op))) ops
                  = false).
  { clear -Hnone. induction Hnone as [|op ops Hn _ IH]; [reflexivity|].
    cbn [existsb]. rewrite Hn, IH. reflexivity. }
  rewrite Hops, Hflag, orb_false_r. reflexivity.
Qed.

Lemma maps_to_empty_no_replacement (assets : gmap string string) (op : Op) :
  maps_to_empty assets op = true → op_replacement assets op = None.
Proof.
  unfold maps_to_empty, op_replacement, replacement.
  destruct (op_insert op) as [i|]; [|reflexivity]. cbn [mbind option_bind].
  destruct (image_uri i) as [uri|]; [|reflexivity].
  unfold get_property. destruct (assets !! uri) as [replace|].
  - intros Hempty. cbn [truthy]. rewrite Hempty. reflexivity.
  - intros Hname. apply negb_true_iff in Hname. rewrite Hname. reflexivity.
Qed.

(** Where no image names a member of [Object.prototype] that [assets] does
    not define, the lookup finds what [assets] maps. *)
Lemma mapped_replacement (assets : gmap string string) (op : Op) :
  inherits assets op = false →
  op_replacement assets op = JStr <$> op_mapped assets op.
Proof.
  unfold inherits, op_replacement, op_mapped, replacement, mapped, get_property.
  destruct (op_insert op) as [i|]; [|reflexivity]. cbn [mbind option_bind].
  destruct (image_uri i) as [uri|]; [|reflexivity].
  destruct (assets !! uri) as [replace|].
  - intros _. cbn [truthy]. destruct (bool_decide (replace = EmptyString)); reflexivity.
  - intros ->. reflexivity.
Qed.

Lemma mapped_rewrite_insert (assets : gmap string string) (op : Op) :
  inherits assets op = false →
  rewrite_insert assets <$> op_insert op = remap_insert assets <$> op_insert op.
Proof.
  intros Hno. apply mapped_replacement in Hno.
  unfold op_replacement, op_mapped in Hno. unfold rewrite_insert, remap_insert.
  destruct (op_insert op) as [i|]; [|reflexivity]. cbn [fmap option_fmap option_map].
  rewrite Hno. destruct (mapped assets i); reflexivity.
Qed.

Lemma remap_insert_embed (assets : gmap string string) (e : gmap string JValue) :
  ∃ e', remap_insert assets (IEmbed e) = IEmbed e'.
Proof.
  unfold remap_insert. destruct (mapped assets (IEmbed e)); eexists; reflexivity.
Qed.

Lemma mapped_rewritten (assets : gmap string string) (op op' : Op) :
  inherits assets op = false → rewritten assets op op' → remapped assets op op'.
Proof.
  intros Hno. unfold rewritten, remapped. rewrite (mapped_replacement assets op Hno).
  destruct (op_mapped assets op); exact id.
Qed.

Lemma Forall2_impl_Forall {A B : Type} (P : A → Prop) (R S : A → B → Prop)
    (l : list A) (k : list B) :
  Forall P l → Forall2 R l k → (∀ x y, P x → R x y → S x y) → Forall2 S l k.
Proof.
  intros HP HR Himpl. induction HR as [|x y l k Hxy _ IH]; [constructor|].
  apply Forall_cons in HP as [Hx HP]. constructor; [apply Himpl; assumption|exact (IH HP)].
Qed.

Lemma inherits_nowhere (assets : gmap string string) (ops : Delta) :
  existsb (inherits assets) ops = false → Forall (fun op => inherits assets op = false) ops.
Proof.
  induction ops as [|op ops IH]; [constructor|]. cbn [existsb].
  intros H. apply orb_false_iff in H as [Hop Hops]. constructor; [exact Hop|exact (IH Hops)].
Qed.

(** C4, as amended.  When the editor exists, at least one image operation of
    the content is mapped by [assets] to a non-empty URI, and no image
    operation has a URI that is no key of [assets] but a name of
    [Object.prototype], [replaceAssets] calls the change callback exactly
    once and touches nothing else; the document it passes is the decoding of
    the content in which the mapped image operations hold their new URI and
    every other operation is unchanged, that is the decoded content with
    only the mapped image segments rewritten. *)
Theorem replaceAssets_rewrites_images {Q : Type} (assets : gmap string string)
    (c : Component Q) (editor : Q) :
  editorRef c = Some editor →
  existsb (inherits assets) (content c) = false →
  Exists (fun op => is_Some (op_mapped assets op)) (content c) →
  ∃ ops',
    replaceAssets assets c = (c, mkOutcome [decodeContent (Some ops')] [])
    ∧ Forall2 (remapped assets) (content c) ops'
    ∧ decodeContent (Some ops')
      = map (remap_line assets) (decodeContent (Some (content c))).
Proof.
  intros Hed Hno Hex. apply inherits_nowhere in Hno.
  destruct (replace_ops_rewritten assets (content c) false) as (ops' & Hops & Hrw & Hai).
  exists ops'. unfold replaceAssets. rewrite Hed, Hops. cbn [orb].
  assert (Hflag : existsb (fun op => bool_decide (is_Some (op_replacement assets op)))
                    (content c) = true).
  { apply existsb_exists. apply Exists_exists in Hex as (op & Hin & Hop).
    exists op. split; [apply list_elem_of_In; exact Hin|].
    apply bool_decide_eq_true. rewrite Forall_forall in Hno.
    rewrite (mapped_replacement assets op (Hno op Hin)).
    destruct Hop as [replace ->]. eexists. reflexivity. }
  rewrite Hflag. split; [reflexivity|]. split.
  - apply (Forall2_impl_Forall _ _ _ _ _ Hno Hrw). apply mapped_rewritten.
  - unfold decodeContent.
    change (fold_left decode_op ?ops ?st) with (decode_run ops st).
    change (@nil Line, @nil Segment) with (map_state (remap_insert assets) ([], [])) at 1.
    rewrite (decode_run_map (remap_insert assets) (fun s => eq_refl)
               (remap_insert_embed assets) (content c) ops').
    + apply decode_finish_map.
    + apply (Forall2_impl_Forall _ _ _ _ _ Hno Hai).
      intros op op' Hop [Ha Hi]. split; [exact Ha|].
      rewrite Hi. apply mapped_rewrite_insert, Hop.
Qed.

Lemma replaceAssets_rewrites_images_witness :
  ∃ ops',
    replaceAssets {[ "a.png" := "b.png" ]} gallery
    = (gallery, mkOutcome [decodeContent (Some ops')] [])
    ∧ Forall2 (remapped {[ "a.png" := "b.png" ]}) (content gallery) ops'
    ∧ decodeContent (Some ops')
      = map (remap_line {[ "a.png" := "b.png" ]})
          (decodeContent (Some (content gallery))).
Proof.
  apply (replaceAssets_rewrites_images {[ "a.png" := "b.png" ]} gallery gallery_editor).
  - reflexivity.
  - vm_compute. reflexivity.
  - apply (bool_decide_unpack _). vm_compute. exact I.
Defined.

(** C4, as stated, fails: without an editor [replaceAssets] returns at once,
    whatever [assets] maps. *)
Lemma replaceAssets_without_editor :
  Exists (fun op => is_Some (op_mapped {[ "a.png" := "b.png" ]} op))
    (content gallery_unmounted)
  ∧ replaceAssets {[ "a.png" := "b.png" ]} gallery_unmounted
    = (gallery_unmounted, silent).
Proof.
  split; [|reflexivity].
  apply (bool_decide_unpack _). vm_compute. exact I.
Qed.

Example gallery_replaced :
  emitted (replaceAssets {[ "a.png" := "b.png" ]} gallery).2
  = [ [ mkLine [text "Photos" bold] header1;
        mkLine [image "b.png"; text " and " ∅; image "c.png"] ∅ ] ].
Proof. vm_compute. reflexivity. Qed.

(** An image whose URI is a name of [Object.prototype] is rewritten too,
    although [assets] has no such key: it then holds the member of that
    name. *)
Example named_gallery_replaced :
  emitted (replaceAssets {[ "a.png" := "b.png" ]} named_gallery).2
  = [ [ mkLine [image "b.png";
                mkSegment (IEmbed {[ "image" := JInherited "toString" ]}) ∅] ∅ ] ].
Proof. vm_compute. reflexivity. Qed.

(** C5: what the code does.  When the editor exists and an image operation
    of the content has a URI that is no key of [assets] but a name of
    [Object.prototype], [replaceAssets] calls the change callback, whether
    or not an image operation has a URI that [assets] maps to a non-empty
    string. *)
Theorem replaceAssets_inherited_match {Q : Type} (assets : gmap string string)
    (c : Component Q) (editor : Q) :
  editorRef c = Some editor →
  existsb (inherits assets) (content c) = true →
  ∃ doc, replaceAssets assets c = (c, mkOutcome [doc] []).
Proof.
  intros Hed Hin.
  destruct (replace_ops_rewritten assets (content c) false) as (ops' & Hops & _).
  exists (decodeContent (Some ops')). unfold replaceAssets. rewrite Hed, Hops. cbn [orb].
  assert (Hflag : existsb (fun op => bool_decide (is_Some (op_replacement assets op)))
                    (content c) = true).
  { apply existsb_exists in Hin as (op & Hop & Hinh). apply existsb_exists.
    exists op. split; [exact Hop|]. apply bool_decide_eq_true.
    unfold inherits in Hinh. unfold op_replacement, replacement, get_property.
    destruct (op_insert op) as [i|]; [|discriminate]. cbn [mbind option_bind] in Hinh.
    destruct (image_uri i) as [uri|]; [|discriminate].
    destruct (assets !! uri); [discriminate|]. rewrite Hinh. eexists. reflexivity. }
  rewrite Hflag. reflexivity.
Qed.

(** No image of [named_document] has a URI that is a key of the map, and
    the callback is called all the same. *)
Lemma replaceAssets_inherited_match_witness :
  existsb (keyed {[ "z.png" := "b.png" ]}) (content named_gallery) = false
  ∧ ∃ doc,
      replaceAssets {[ "z.png" := "b.png" ]} named_gallery
      = (named_gallery, mkOutcome [doc] []).
Proof.
  split; [vm_compute; reflexivity|].
  apply (replaceAssets_inherited_match {[ "z.png" := "b.png" ]} named_gallery
           (mkPlainEditor (encodeContent named_document) None false)).
  - reflexivity.
  - vm_compute. reflexivity.
Defined.

(** C10: what the code does on an image [a.png] that [assets] maps to the
    empty string next to an image whose URI, [toString], is a name of
    [Object.prototype]: the first keeps its URI, as the claim says, but the
    call is not a no-op, although [assets] maps nothing to a non-empty
    string: the second image is rewritten and the change callback is
    called. *)
Lemma replaceAssets_empty_and_inherited :
  existsb (keyed {[ "a.png" := EmptyString ]}) (content named_gallery) = false
  ∧ replaceAssets {[ "a.png" := EmptyString ]} named_gallery
    = (named_gallery,
       mkOutcome
         [ [ mkLine [image "a.png";
                     mkSegment (IEmbed {[ "image" := JInherited "toString" ]}) ∅] ∅ ] ]
         []).
Proof. split; vm_compute; reflexivity. Qed.

(** X20.  When the URI of no image operation of the content, looked up in
    [assets] as a property, gives a truthy value (neither a non-empty string
    held by [assets] nor a member of [Object.prototype]), [replaceAssets]
    returns without calling the change callback or the engine, and the
    component is as it was. *)
Theorem replaceAssets_no_match {Q : Type} (assets : gmap string string)
    (c : Component Q) :
  Forall (fun op => op_replacement assets op = None) (content c) →
  replaceAssets assets c = (c, silent).
Proof.
  intros Hnone. unfold replaceAssets.
  destruct (editorRef c); [|reflexivity].
  rewrite (replace_ops_unchanged assets (content c) false Hnone). reflexivity.
Qed.

Lemma replaceAssets_no_match_witness :
  replaceAssets {[ "z.png" := "b.png" ]} gallery = (gallery, silent).
Proof.
  apply (replaceAssets_no_match {[ "z.png" := "b.png" ]} gallery).
  apply (bool_decide_unpack _). vm_compute. exact I.
Defined.

(** X21.  An image operation whose URI [assets] maps to the empty string is
    treated as one without a match, as is one whose URI is neither a key of
    [assets] nor a name of [Object.prototype]: it keeps its URI and does not
    set [isChanged].  When that is so for every operation of the content,
    [replaceAssets] is a no-op: no change callback, nothing changed. *)
Theorem replaceAssets_empty_replacement {Q : Type} (assets : gmap string string)
    (c : Component Q) :
  (∀ (op : Op) (isChanged : bool),
     maps_to_empty assets op = true →
     replace_op assets isChanged op = (op, isChanged))
  ∧ (forallb (maps_to_empty assets) (content c) = true →
     replaceAssets assets c = (c, silent)).
Proof.
  split.
  - intros op isChanged Hempty.
    apply maps_to_empty_no_replacement in Hempty.
    destruct (replace_op_rewritten assets isChanged op) as (op' & -> & Hrw & _).
    unfold rewritten in Hrw. rewrite Hempty in Hrw |- *.
    rewrite Hrw, orb_false_r. reflexivity.
  - intros Hempty.
    assert (Hnone : Forall (fun op => op_replacement assets op = None) (content c)).
    { apply Forall_forall. intros op Hin. apply maps_to_empty_no_replacement.
      rewrite forallb_forall in Hempty. apply Hempty, list_elem_of_In, Hin. }
    unfold replaceAssets. destruct (editorRef c); [|reflexivity].
    rewrite (replace_ops_unchanged assets (content c) false Hnone). reflexivity.
Qed.

Lemma replaceAssets_empty_replacement_witness :
  replace_op {[ "a.png" := EmptyString ]} false
    (OpInsert (IEmbed {[ "image" := JStr "a.png" ]}) None)
  = (OpInsert (IEmbed {[ "image" := JStr "a.png" ]}) None, false)
  ∧ replaceAssets {[ "a.png" := EmptyString ]} gallery = (gallery, silent).
Proof.
  destruct (replaceAssets_empty_replacement {[ "a.png" := EmptyString ]} gallery)
    as [Hop Hall].
  split.
  - apply Hop. vm_compute. reflexivity.
  - apply Hall. vm_compute. reflexivity.
Defined.

(** ** The lifecycle effects *)

Section Lifecycle.
Context {Q : Type} {ops : DeltaOps} {engine : Engine Q}.
Implicit Types (c : Component Q) (ev : Event (Q:=Q)) (evs : list (Event (Q:=Q))).

Lemma run_app c evs1 evs2 :
  run c (evs1 ++ evs2)
  = let '(c1, o1) := run c evs1 in
    let '(c2, o2) := run c1 evs2 in
    (c2, Outcome_app o1 o2).
Proof.
  revert c. induction evs1 as [|ev evs1 IH]; intros c.
  - cbn [app run]. destruct (run c evs2) as [c2 [e2 k2]]. reflexivity.
  - cbn [app run]. destruct (step c ev) as [c0 [e0 k0]]. rewrite IH.
    destruct (run c0 evs1) as [c1 [e1 k1]], (run c1 evs2) as [c2 [e2 k2]].
    unfold Outcome_app. cbn [emitted calls]. rewrite !app_assoc. reflexivity.
Qed.

(** The value effect hands nothing to the change callback and leaves the
    props and the state hooks alone. *)
Lemma value_effect_quiet c :
  emitted (value_effect c).2 = []
  ∧ value (value_effect c).1 = value c
  ∧ mouseDown (value_effect c).1 = mouseDown c
  ∧ capture (value_effect c).1 = capture c
  ∧ (is_Some (editorRef c) → is_Some (editorRef (value_effect c).1)).
Proof.
  unfold value_effect. destruct (editorRef c) as [editor|] eqn:He.
  - destruct (mouseDown c) eqn:Hm; [cbn; rewrite He; auto 10|].
    destruct (Nat.eqb _ 0); [cbn; rewrite He; auto 10|].
    destruct (if hasFocus editor then getSelection editor else None);
      cbn; auto 10.
  - cbn. rewrite He. auto 10.
Qed.

(** While the pointer is down, an event that is neither its release nor a
    call of the ref handle reaches neither the change callback nor the
    engine. *)
Lemma step_held c ev :
  mouseDown c = true → held ev = true →
  (step c ev).2 = silent
  ∧ mouseDown (step c ev).1 = true
  ∧ (is_Some (editorRef c) → is_Some (editorRef (step c ev).1))
  ∧ (is_text_change ev = false → capture (step c ev).1 = capture c).
Proof.
  intros Hdown Hheld. destruct ev as [| |delta oldContent after|v|assets];
    try discriminate; cbn [step is_text_change].
  - rewrite Hdown. cbn. auto.
  - destruct (editorRef c) as [editor|] eqn:He.
    + unfold capture_effect. cbn [editorRef mouseDown]. rewrite Hdown.
      cbn. repeat split; eauto. discriminate.
    + cbn. rewrite He. repeat split; auto.
  - unfold value_effect. cbn [editorRef mouseDown]. rewrite Hdown.
    destruct (editorRef c); cbn; auto.
Qed.

Lemma run_held c evs :
  mouseDown c = true → forallb held evs = true →
  (run c evs).2 = silent
  ∧ mouseDown (run c evs).1 = true
  ∧ (is_Some (editorRef c) → is_Some (editorRef (run c evs).1))
  ∧ (forallb (fun ev => negb (is_text_change ev)) evs = true →
     capture (run c evs).1 = capture c).
Proof.
  revert c. induction evs as [|ev evs IH]; intros c Hdown Hheld.
  - cbn. auto.
  - cbn [forallb] in Hheld. apply andb_true_iff in Hheld as [Hev Hevs].
    destruct (step_held c ev Hdown Hev) as (Hs & Hd & He & Hc).
    cbn [run]. destruct (step c ev) as [c0 o0]. cbn [fst snd] in *.
    destruct (IH c0 Hd Hevs) as (Hs' & Hd' & He' & Hc').
    destruct (run c0 evs) as [c1 o1]. cbn [fst snd] in *.
    subst o0 o1. repeat split; auto.
    intros Hno. cbn [forallb] in Hno. apply andb_true_iff in Hno as [Hn Hns].
    apply negb_true_iff in Hn. rewrite (Hc' Hns). apply Hc, Hn.
Qed.

(** Releasing the pointer propagates what was captured, once. *)
Lemma step_release c editor captured :
  mouseDown c = true → editorRef c = Some editor → capture c = Some captured →
  emitted (step c MouseUp).2 = [_removeEmptyLines (decodeContent (Some captured))]
  ∧ capture (step c MouseUp).1 = None
  ∧ mouseDown (step c MouseUp).1 = false.
Proof.
  intros Hdown He Hc.
  assert (Hstep : step c MouseUp
                  = let '(c2, o2) :=
                      value_effect (mkComponent (value c) false None (Some editor)) in
                    (c2, Outcome_app
                           (mkOutcome [_removeEmptyLines (decodeContent (Some captured))] [])
                           o2)).
  { cbn [step]. rewrite Hdown. unfold run_effects, capture_effect.
    cbn [editorRef mouseDown capture value]. rewrite He, Hc. reflexivity. }
  rewrite Hstep.
  pose proof (value_effect_quiet (mkComponent (value c) false None (Some editor)))
    as (Hq & _ & Hm & Hcap & _).
  destruct (value_effect _) as [c2 o2].
  cbn [fst snd value mouseDown capture editorRef] in *.
  unfold Outcome_app. cbn [emitted app]. rewrite Hq.
  repeat split; assumption.
Qed.
End Lifecycle.

Lemma run_captured {Q : Type} {ops : DeltaOps} {engine : Engine Q}
    (c : Component Q) (evs1 evs2 : list (Event (Q:=Q)))
    (delta oldContent : Delta) (after : Q) :
  mouseDown c = true → is_Some (editorRef c) →
  forallb held evs1 = true → forallb held evs2 = true →
  forallb (fun ev => negb (is_text_change ev)) evs2 = true →
  capture (run c (evs1 ++ TextChange delta oldContent after :: evs2)).1
  = Some (Delta_compose oldContent delta).
Proof.
  intros Hdown Hed H1 H2 Hno.
  destruct (run_held c evs1 Hdown H1) as (_ & Hd1 & He1 & _).
  specialize (He1 Hed). rewrite run_app.
  destruct (run c evs1) as [c1 o1]. cbn [fst snd] in *.
  cbn [run step]. destruct He1 as [editor He1]. rewrite He1.
  unfold capture_effect. cbn [editorRef mouseDown]. rewrite Hd1.
  set (c2 := mkComponent (value c1) true (Some (Delta_compose oldContent delta))
               (Some after)).
  destruct (run_held c2 evs2 eq_refl H2) as (_ & _ & _ & Hc2).
  specialize (Hc2 Hno). destruct (run c2 evs2) as [c3 o3]. exact Hc2.
Qed.

(** C6, as amended.  From a component whose pointer is down, events other
    than the release of the pointer and calls of [replaceAssets] never reach
    the change callback; a text change among them is handed to the callback
    once, when the pointer is released, as the document captured last, and
    nothing stays captured. *)
Theorem pointer_gated_propagation {Q : Type} {ops : DeltaOps} {engine : Engine Q}
    (c : Component Q) (editor : Q) (evs1 evs2 : list (Event (Q:=Q)))
    (delta oldContent : Delta) (after : Q) :
  mouseDown c = true → editorRef c = Some editor →
  forallb held evs1 = true → forallb held evs2 = true →
  forallb (fun ev => negb (is_text_change ev)) evs2 = true →
  emitted (run c (evs1 ++ TextChange delta oldContent after :: evs2)).2 = []
  ∧ emitted (run c ((evs1 ++ TextChange delta oldContent after :: evs2) ++ [MouseUp])).2
    = [_removeEmptyLines (decodeContent (Some (Delta_compose oldContent delta)))]
  ∧ capture (run c ((evs1 ++ TextChange delta oldContent after :: evs2) ++ [MouseUp])).1
    = None.
Proof.
  intros Hdown Hed H1 H2 Hno.
  assert (Hheld : forallb held (evs1 ++ TextChange delta oldContent after :: evs2) = true).
  { rewrite forallb_app, H1. cbn [forallb held andb]. exact H2. }
  pose proof (run_captured c evs1 evs2 delta oldContent after Hdown
                (ex_intro _ editor Hed) H1 H2 Hno) as Hcap.
  destruct (run_held c _ Hdown Hheld) as (Hsilent & Hd & He & _).
  specialize (He (ex_intro _ editor Hed)).
  set (during := evs1 ++ TextChange delta oldContent after :: evs2) in *.
  rewrite (run_app c during [MouseUp]).
  destruct (run c during) as [c1 o1].
  cbn [fst snd] in *. subst o1. destruct He as [editor1 He].
  destruct (step_release c1 editor1 _ Hd He Hcap) as (Hem & Hnone & _).
  cbn [run]. destruct (step c1 MouseUp) as [c2 o2]. cbn [fst snd] in *.
  unfold Outcome_app, silent. cbn [emitted app fst snd]. rewrite Hem.
  repeat split; auto.
Qed.

Lemma pointer_gated_propagation_witness :
  emitted (run gallery_pressed
             ([MouseDown]
              ++ TextChange typed_letter (encodeContent gallery_document)
                   gallery_editor_typed
                 :: [ValueChange (Some gallery_document_edited)])).2 = []
  ∧ emitted (run gallery_pressed
               (([MouseDown]
                 ++ TextChange typed_letter (encodeContent gallery_document)
                      gallery_editor_typed
                    :: [ValueChange (Some gallery_document_edited)])
                ++ [MouseUp])).2
    = [_removeEmptyLines
         (decodeContent
            (Some (Delta_compose (encodeContent gallery_document) typed_letter)))]
  ∧ capture (run gallery_pressed
               (([MouseDown]
                 ++ TextChange typed_letter (encodeContent gallery_document)
                      gallery_editor_typed
                    :: [ValueChange (Some gallery_document_edited)])
                ++ [MouseUp])).1
    = None.
Proof.
  apply (pointer_gated_propagation gallery_pressed gallery_editor
           [MouseDown] [ValueChange (Some gallery_document_edited)]
           typed_letter (encodeContent gallery_document) gallery_editor_typed);
    reflexivity.
Defined.

(** C6, as stated, fails: [replaceAssets] does not look at the pointer, so a
    call made while it is down reaches the change callback. *)
Lemma replaceAssets_while_pointer_down :
  mouseDown (run gallery [MouseDown; ReplaceAssets {[ "a.png" := "b.png" ]}]).1 = true
  ∧ emitted (run gallery [MouseDown; ReplaceAssets {[ "a.png" := "b.png" ]}]).2
    = [ [ mkLine [text "Photos" bold] header1;
          mkLine [image "b.png"; text " and " ∅; image "c.png"] ∅ ] ].
Proof. split; vm_compute; reflexivity. Qed.

(** C8.  On a value change, when the diff between the normalized contents of
    the editor and the desired content has length zero, the engine is not
    called: the editor, with its contents and its selection, stays as it
    is and nothing is handed to the change callback. *)
Theorem value_change_skipped_when_equal {Q : Type} {ops : DeltaOps}
    {engine : Engine Q} (c : Component Q) (v : option (list Line)) (editor : Q) :
  editorRef c = Some editor →
  Delta_length (Delta_diff (normalized_contents editor) (encodeContent (default [] v))) = 0 →
  step c (ValueChange v)
  = (mkComponent v (mouseDown c) (capture c) (Some editor), silent).
Proof.
  intros He Hzero. cbn [step]. unfold value_effect.
  cbn [editorRef mouseDown capture value]. rewrite He.
  destruct (mouseDown c); [reflexivity|].
  unfold content. cbn [value]. rewrite Hzero. reflexivity.
Qed.

Lemma value_change_skipped_when_equal_witness :
  step gallery (ValueChange (Some gallery_document))
  = (mkComponent (Some gallery_document) false None (Some gallery_editor), silent).
Proof.
  apply (value_change_skipped_when_equal gallery (Some gallery_document) gallery_editor).
  - reflexivity.
  - vm_compute. reflexivity.
Defined.

(** C3: what the code does.  When a value change resets the contents of a
    focused editor that has a selection, the index it sets is the old index
    moved through the diff between the contents the editor holds after the
    reset and the desired content.  The contents before the reset play no
    part. *)
Theorem value_change_selection_after_reset {Q : Type} {ops : DeltaOps}
    {engine : Engine Q} (c : Component Q) (v : option (list Line)) (editor : Q)
    (selection : Range) :
  mouseDown c = false → editorRef c = Some editor →
  Delta_length (Delta_diff (normalized_contents editor) (encodeContent (default [] v))) ≠ 0 →
  hasFocus editor = true → getSelection editor = Some selection →
  calls (step c (ValueChange v)).2
  = [ CallSetContents (encodeContent (default [] v));
      CallSetSelection
        (Delta_transformPosition
           (Delta_diff (getContents (setContents (encodeContent (default [] v)) editor))
              (encodeContent (default [] v)))
           (range_index selection))
        (range_length selection) ].
Proof.
  intros Hup He Hdiff Hfocus Hsel. cbn [step]. unfold value_effect.
  cbn [editorRef mouseDown capture value]. rewrite He, Hup.
  unfold content. cbn [value].
  destruct (Nat.eqb_spec
              (Delta_length (Delta_diff (normalized_contents editor)
                               (encodeContent (default [] v)))) 0) as [Heq|_];
    [contradiction|].
  rewrite Hfocus, Hsel. reflexivity.
Qed.

Lemma value_change_selection_after_reset_witness :
  calls (step gallery (ValueChange (Some gallery_document_edited))).2
  = [ CallSetContents (encodeContent gallery_document_edited);
      CallSetSelection
        (Delta_transformPosition
           (Delta_diff
              (getContents (setContents (encodeContent gallery_document_edited)
                              gallery_editor))
              (encodeContent gallery_document_edited))
           3)
        0 ].
Proof.
  apply (value_change_selection_after_reset gallery (Some gallery_document_edited)
           gallery_editor (mkRange 3 0)).
  - reflexivity.
  - reflexivity.
  - vm_compute. discriminate.
  - reflexivity.
  - reflexivity.
Defined.

(** With the caret after [Pho] and ["My "] put in front of the title, the
    caret is set at 3 again, between [My ] and [Photos], not after [Pho]. *)
Example gallery_caret_after_reset :
  calls (step gallery (ValueChange (Some gallery_document_edited))).2
  = [ CallSetContents (encodeContent gallery_document_edited); CallSetSelection 3 0 ].
Proof. vm_compute. reflexivity. Qed.

(** * Further properties of the codec *)

(** ** The Delta of [encodeContent] is canonical *)

Lemma canonical_snoc (d : Delta) (o : Op) :
  canonical (d ++ [o])
  = canonical d && op_canonical o
    && match last d with Some l => negb (mergeable_ops l o) | None => true end.
Proof.
  induction d as [|o1 d IH].
  - cbn. rewrite !andb_true_r. reflexivity.
  - change ((o1 :: d) ++ [o]) with (o1 :: (d ++ [o])).
    cbn [canonical]. rewrite IH, last_cons.
    assert (Hh : match d ++ [o] with o2 :: _ => negb (mergeable_ops o1 o2) | [] => true end
                 = match d with
                   | o2 :: _ => negb (mergeable_ops o1 o2)
                   | [] => negb (mergeable_ops o1 o)
                   end) by (destruct d; reflexivity).
    rewrite Hh. destruct d as [|o2 d].
    + cbn. rewrite !andb_true_r. destruct (op_canonical o1), (op_canonical o);
        cbn; rewrite ?andb_true_r, ?andb_false_r; reflexivity.
    + destruct (last (o2 :: d)) as [l|] eqn:Hl.
      * destruct (op_canonical o1), (negb (mergeable_ops o1 o2)),
          (canonical (o2 :: d)), (op_canonical o), (negb (mergeable_ops l o));
          reflexivity.
      * apply last_None in Hl. discriminate.
Qed.

Lemma op_canonical_insert (op : Op) :
  op_canonical op = true → ∃ i a, op = OpInsert i a.
Proof. destruct op; [eauto|discriminate|discriminate]. Qed.

Lemma canonical_last (d : Delta) (l : Op) :
  canonical d = true → last d = Some l → op_canonical l = true.
Proof.
  intros Hc Hl. apply last_Some in Hl as [d' ->].
  rewrite canonical_snoc in Hc.
  apply andb_true_iff in Hc as [Hc _]. apply andb_true_iff in Hc as [_ Hc].
  exact Hc.
Qed.

Lemma try_merge_insert_Some (i1 i2 : InsertValue) (a1 a2 : option AttributeMap)
    (merged : Op) :
  try_merge (OpInsert i1 a1) (OpInsert i2 a2) = Some merged →
  ∃ s1 s2, i1 = IText s1 ∧ i2 = IText s2 ∧ a2 = a1
           ∧ merged = OpInsert (IText (s1 +:+ s2)) a2.
Proof.
  unfold try_merge. cbn [op_attributes].
  destruct (decide (a2 = a1)) as [->|]; [|discriminate].
  destruct i2 as [s2|]; [|discriminate].
  destruct i1 as [s1|]; [|discriminate].
  intros [= <-]. eauto 10.
Qed.

Lemma Delta_insert_canonical (d : Delta) (c : InsertCall) :
  canonical d = true → canonical (Delta_insert d c.1 (Some c.2)) = true.
Proof.
  intros Hd. destruct (decide (c.1 = IText EmptyString)) as [He|Hne].
  { unfold Delta_insert. rewrite He. exact Hd. }
  rewrite (Delta_insert_push d c Hne).
  assert (Hop : op_canonical (op_of_call c) = true).
  { unfold op_of_call, op_canonical. destruct c as [[s|e] a]; cbn [fst snd] in *.
    - apply andb_true_iff. split.
      + apply negb_true_iff, bool_decide_eq_false. congruence.
      + apply negb_true_iff, bool_decide_eq_false.
        destruct (decide (a = ∅)); congruence.
    - apply negb_true_iff, bool_decide_eq_false.
      destruct (decide (a = ∅)); congruence. }
  destruct (last d) as [l|] eqn:Hl.
  - pose proof (canonical_last d l Hd Hl) as Hlc.
    destruct (op_canonical_insert l Hlc) as (i1 & a1 & ->).
    apply last_Some in Hl as [d' ->].
    rewrite Delta_push_call_snoc.
    rewrite canonical_snoc in Hd.
    apply andb_true_iff in Hd as [Hd Hadj]. apply andb_true_iff in Hd as [Hd' _].
    destruct (try_merge (OpInsert i1 a1) (op_of_call c)) as [merged|] eqn:Hm.
    + unfold op_of_call in Hm.
      apply try_merge_insert_Some in Hm as (s1 & s2 & -> & Hc1 & Ha & ->).
      rewrite canonical_snoc, Hd'. cbn [andb].
      apply andb_true_iff. split.
      * unfold op_canonical in Hlc |- *.
        apply andb_true_iff in Hlc as [Hs1 Ha1]. apply andb_true_iff. split.
        -- apply negb_true_iff, bool_decide_eq_false.
           apply negb_true_iff, bool_decide_eq_false in Hs1.
           destruct s1; [congruence|discriminate].
        -- rewrite Ha. exact Ha1.
      * rewrite Ha. exact Hadj.
    + change (d' ++ [OpInsert i1 a1; op_of_call c])
        with (d' ++ [OpInsert i1 a1] ++ [op_of_call c]).
      rewrite app_assoc, canonical_snoc, last_snoc, canonical_snoc, Hd', Hlc.
      cbn [andb]. repeat (apply andb_true_iff; split); [exact Hadj|exact Hop|].
      apply negb_true_iff. unfold mergeable_ops.
      unfold try_merge in Hm. cbn [op_attributes] in Hm.
      unfold op_of_call in *. cbn [op_attributes] in Hm.
      destruct i1 as [s1|e1]; [|reflexivity].
      destruct c.1 as [s2|e2]; [|reflexivity].
      apply bool_decide_eq_false. intros Heq. rewrite Heq in Hm.
      rewrite decide_True in Hm by reflexivity. discriminate.
  - apply last_None in Hl. subst d.
    change (Delta_push [] (op_of_call c)) with [op_of_call c].
    cbn [canonical]. rewrite Hop. reflexivity.
Qed.

Lemma apply_calls_canonical (cs : list InsertCall) (d : Delta) :
  canonical d = true → canonical (apply_calls cs d) = true.
Proof.
  revert d. induction cs as [|c cs IH]; intros d Hd; [exact Hd|].
  change (apply_calls (c :: cs) d) with (apply_calls cs (Delta_insert d c.1 (Some c.2))).
  apply IH, Delta_insert_canonical, Hd.
Qed.

(** X1.  Whatever the document, the Delta of [encodeContent] is canonical:
    it holds inserts only, none of them an empty string or with an empty
    attribute object, and no two string inserts side by side carry the same
    attributes. *)
Theorem encodeContent_canonical (lines : list Line) :
  canonical (encodeContent lines) = true.
Proof.
  rewrite encodeContent_calls. apply apply_calls_canonical. reflexivity.
Qed.

(** ** A canonical Delta is determined by its units *)

Lemma text_run_split (a : AttributeMap) (s1 : string) :
  ∀ (s2 : string) (us1 us2 : list InsertCall),
    no_text_head a us1 → no_text_head a us2 →
    call_units (IText s1, a) ++ us1 = call_units (IText s2, a) ++ us2 →
    s1 = s2 ∧ us1 = us2.
Proof.
  unfold call_units. cbn [fst snd].
  induction s1 as [|c1 s1 IH]; intros [|c2 s2] us1 us2 H1 H2 Heq; cbn in Heq.
  - auto.
  - subst us1. exfalso. apply H1. eexists. reflexivity.
  - subst us2. exfalso. apply H2. eexists. reflexivity.
  - injection Heq as -> Heq. destruct (IH s2 us1 us2 H1 H2 Heq) as [-> ->]. auto.
Qed.

Lemma op_units_nonempty (op : Op) : op_canonical op = true → op_units op ≠ [].
Proof.
  destruct op as [[[|c s]|e] a|n a|n]; cbn; discriminate.
Qed.

Lemma canonical_cons (o : Op) (d : Delta) :
  canonical (o :: d) = true →
  op_canonical o = true ∧ canonical d = true
  ∧ match d with o2 :: _ => mergeable_ops o o2 = false | [] => True end.
Proof.
  cbn [canonical]. intros H.
  apply andb_true_iff in H as [H Hd]. apply andb_true_iff in H as [Ho Hadj].
  repeat split; [exact Ho|exact Hd|].
  destruct d; [exact I|]. apply negb_true_iff, Hadj.
Qed.

Lemma canonical_attributes_inj (a1 a2 : option AttributeMap) :
  a1 ≠ Some ∅ → a2 ≠ Some ∅ → default ∅ a1 = default ∅ a2 → a1 = a2.
Proof. destruct a1, a2; cbn; congruence. Qed.

Lemma op_canonical_attributes (i : InsertValue) (a : option AttributeMap) :
  op_canonical (OpInsert i a) = true → a ≠ Some ∅.
Proof.
  unfold op_canonical. destruct i.
  - intros H. apply andb_true_iff in H as [_ H].
    apply negb_true_iff, bool_decide_eq_false in H. exact H.
  - intros H. apply negb_true_iff, bool_decide_eq_false in H. exact H.
Qed.

(** After a text operation of a canonical Delta, the next unit is not a
    character with the same attributes. *)
Lemma canonical_no_text_head (s : string) (a : option AttributeMap) (d : Delta) :
  canonical (OpInsert (IText s) a :: d) = true →
  no_text_head (default ∅ a) (delta_units d).
Proof.
  intros H. destruct (canonical_cons _ _ H) as (Ho & Hd & Hadj).
  destruct d as [|o2 d]; [exact I|].
  destruct (canonical_cons _ _ Hd) as (Ho2 & _ & _).
  destruct o2 as [[[|c2 s2]|e2] a2|n2 a2|n2]; try discriminate.
  - cbn. intros [s' [= _ Ha]].
    apply canonical_attributes_inj in Ha;
      [|exact (op_canonical_attributes _ _ Ho2)|exact (op_canonical_attributes _ _ Ho)].
    cbn in Hadj. apply bool_decide_eq_false in Hadj. congruence.
  - cbn. intros [s' [=]].
Qed.

Lemma canonical_units_inj (d1 : Delta) :
  ∀ d2 : Delta,
    canonical d1 = true → canonical d2 = true →
    delta_units d1 = delta_units d2 → d1 = d2.
Proof.
  induction d1 as [|o1 d1 IH]; intros d2 H1 H2 Heq.
  - destruct d2 as [|o2 d2]; [reflexivity|].
    destruct (canonical_cons _ _ H2) as (Ho2 & _ & _).
    pose proof (op_units_nonempty o2 Ho2) as Hne.
    cbn in Heq. destruct (op_units o2); [congruence|discriminate].
  - destruct d2 as [|o2 d2].
    { destruct (canonical_cons _ _ H1) as (Ho1 & _ & _).
      pose proof (op_units_nonempty o1 Ho1) as Hne.
      cbn in Heq. destruct (op_units o1); [congruence|discriminate]. }
    destruct (canonical_cons _ _ H1) as (Ho1 & Hd1 & _).
    destruct (canonical_cons _ _ H2) as (Ho2 & Hd2 & _).
    pose proof (op_units_nonempty o1 Ho1) as Hne1.
    pose proof (op_units_nonempty o2 Ho2) as Hne2.
    change (delta_units (?o :: ?d)) with (op_units o ++ delta_units d) in Heq.
    destruct o1 as [[s1|e1] a1|n1 a1|n1], o2 as [[s2|e2] a2|n2 a2|n2];
      try discriminate.
    + (* two text operations *)
      assert (Ha : a1 = a2).
      { apply canonical_attributes_inj;
          [exact (op_canonical_attributes _ _ Ho1)
          |exact (op_canonical_attributes _ _ Ho2)|].
        destruct s1 as [|c1 s1]; [discriminate|].
        destruct s2 as [|c2 s2]; [discriminate|].
        cbn in Heq. congruence. }
      subst a2. cbn [op_units] in Heq.
      destruct (text_run_split _ s1 s2 _ _
                  (canonical_no_text_head _ _ _ H1)
                  (canonical_no_text_head _ _ _ H2) Heq) as [-> Htail].
      rewrite (IH d2 Hd1 Hd2 Htail). reflexivity.
    + (* text against an embed *)
      destruct s1 as [|c1 s1]; [discriminate|]. cbn in Heq. discriminate.
    + destruct s2 as [|c2 s2]; [discriminate|]. cbn in Heq. discriminate.
    + (* two embeds *)
      cbn in Heq. injection Heq as -> Ha Htail.
      apply canonical_attributes_inj in Ha;
        [|exact (op_canonical_attributes _ _ Ho1)
         |exact (op_canonical_attributes _ _ Ho2)].
      subst a2. rewrite (IH d2 Hd1 Hd2 Htail). reflexivity.
Qed.

(** X2.  Two documents have the same encoding exactly when their inserts,
    read unit by unit, are the same: the encoding forgets how a run of text
    with the same attributes is cut into segments, and nothing else. *)
Theorem encodeContent_same_units (x y : list Line) :
  encodeContent x = encodeContent y ↔ document_units x = document_units y.
Proof.
  unfold document_units. split.
  - intros H.
    pose proof (apply_calls_units (insert_calls x) []) as Hx.
    pose proof (apply_calls_units (insert_calls y) []) as Hy.
    rewrite <- !encodeContent_calls in Hx, Hy. cbn in Hx, Hy.
    rewrite <- Hx, <- Hy, H. reflexivity.
  - intros H. rewrite !encodeContent_calls.
    apply canonical_units_inj; try (apply apply_calls_canonical; reflexivity).
    rewrite !apply_calls_units. cbn. exact H.
Qed.

(** Cutting a text in two, or putting an empty text in, does not show. *)
Example adjacent_text_same_encoding :
  encodeContent adjacent_text_document = encodeContent [ mkLine [text "ab" ∅] ∅ ]
  ∧ encodeContent empty_text_document = encodeContent [ mkLine [image "a.png"] ∅ ].
Proof. split; vm_compute; reflexivity. Qed.

(** * Further properties of the decoder *)

(** ** Decoded segments hold no line feed *)

Lemma split_nl_one_line (s : string) :
  Forall (fun piece => has_newline piece = false) (split_nl s).
Proof.
  induction s as [|c s IH]; [repeat constructor|].
  cbn [split_nl]. destruct (Ascii.eqb c nl) eqn:Hc.
  - constructor; [reflexivity|exact IH].
  - destruct (split_nl s) as [|piece pieces].
    + constructor; [cbn; rewrite Hc; reflexivity|constructor].
    + apply Forall_cons in IH as [Hp Hps].
      constructor; [cbn; rewrite Hc, Hp; reflexivity|exact Hps].
Qed.

Lemma close_line_one_line (a : AttributeMap) (st : DecodeState) :
  state_one_line st → state_one_line (close_line a st).
Proof.
  intros [Hl Hs]. split; [|reflexivity].
  unfold close_line. cbn [fst]. apply Forall_app. split; [exact Hl|].
  constructor; [exact Hs|constructor].
Qed.

Lemma push_segment_one_line (seg : Segment) (st : DecodeState) :
  segment_one_line seg = true → state_one_line st →
  state_one_line (push_segment seg st).
Proof.
  intros Hseg [Hl Hs]. split; [exact Hl|].
  unfold push_segment. cbn [snd]. rewrite forallb_app, Hs, andb_true_l.
  cbn. rewrite Hseg. reflexivity.
Qed.

Lemma decode_pieces_one_line (a : AttributeMap) (pieces : list string) :
  Forall (fun piece => has_newline piece = false) pieces →
  ∀ i st, state_one_line st → state_one_line (decode_pieces i pieces a st).
Proof.
  induction 1 as [|piece pieces Hp _ IH]; intros i st Hst; [exact Hst|].
  cbn [decode_pieces]. apply IH. apply push_segment_one_line.
  - unfold segment_one_line. cbn. rewrite Hp. reflexivity.
  - destruct i; [exact Hst|]. apply close_line_one_line, Hst.
Qed.

Lemma decode_op_one_line (op : Op) (st : DecodeState) :
  state_one_line st → state_one_line (decode_op st op).
Proof.
  intros Hst. unfold decode_op. destruct (op_insert op) as [[s|e]|].
  - destruct (all_newline s).
    + induction (String.length s) as [|n IH]; [exact Hst|].
      cbn [Nat.iter nat_rect]. apply close_line_one_line, IH.
    + apply decode_pieces_one_line; [apply split_nl_one_line|exact Hst].
  - apply push_segment_one_line; [reflexivity|exact Hst].
  - apply push_segment_one_line; [reflexivity|exact Hst].
Qed.

Lemma decode_run_one_line (ops : Delta) :
  ∀ st, state_one_line st → state_one_line (decode_run ops st).
Proof.
  induction ops as [|op ops IH]; intros st Hst; [exact Hst|].
  apply IH, decode_op_one_line, Hst.
Qed.

Lemma decoded_one_line (ops : Delta) :
  lines_one_line (decodeContent (Some ops)) = true.
Proof.
  unfold decodeContent.
  change (fold_left decode_op ?d ?st) with (decode_run d st).
  destruct (decode_run_one_line ops ([], [])) as [Hl Hs]; [split; [constructor|reflexivity]|].
  unfold decode_finish, lines_one_line.
  assert (Hlines : forallb (fun l => forallb segment_one_line (line_segments l))
                     (decode_run ops ([], [])).1 = true).
  { apply forallb_forall. intros l Hin. rewrite Forall_forall in Hl.
    apply Hl, list_elem_of_In, Hin. }
  destruct (decode_run ops ([], [])).2 as [|seg segs] eqn:Hsegs; [exact Hlines|].
  rewrite forallb_app, Hlines. cbn [forallb line_segments andb].
  rewrite andb_true_r. exact Hs.
Qed.

(** X3.  Whatever the Delta, retains and deletes included, no segment of
    the decoded document holds a line feed: line feeds only ever separate
    lines. *)
Theorem decodeContent_one_line (content : option Delta) :
  lines_one_line (decodeContent content) = true.
Proof.
  destruct content as [ops|]; [apply decoded_one_line|reflexivity].
Qed.

(** ** Embedded objects survive both ways *)

Lemma lines_embeds_app (x y : list Line) :
  lines_embeds (x ++ y) = lines_embeds x ++ lines_embeds y.
Proof. unfold lines_embeds. apply flat_map_app. Qed.

Lemma close_line_embeds (a : AttributeMap) (st : DecodeState) :
  state_embeds (close_line a st) = state_embeds st.
Proof.
  unfold state_embeds, close_line. cbn [fst snd].
  rewrite lines_embeds_app. cbn. rewrite !app_nil_r. reflexivity.
Qed.

Lemma push_segment_embeds (seg : Segment) (st : DecodeState) :
  state_embeds (push_segment seg st)
  = state_embeds st ++ option_list (segment_embed seg).
Proof.
  unfold state_embeds, push_segment. cbn [fst snd].
  rewrite omap_app, app_assoc. cbn. destruct (segment_embed seg); reflexivity.
Qed.

Lemma decode_pieces_embeds (a : AttributeMap) (pieces : list string) :
  ∀ i st, state_embeds (decode_pieces i pieces a st) = state_embeds st.
Proof.
  induction pieces as [|piece pieces IH]; intros i st; [reflexivity|].
  cbn [decode_pieces]. rewrite IH, push_segment_embeds. cbn. rewrite app_nil_r.
  destruct i; [reflexivity|apply close_line_embeds].
Qed.

Lemma decode_op_embeds (op : Op) (st : DecodeState) :
  state_embeds (decode_op st op) = state_embeds st ++ option_list (op_embed op).
Proof.
  unfold decode_op, op_embed. destruct op as [[s|e] a|n a|n]; cbn [op_insert op_attributes].
  - cbn [option_list]. rewrite app_nil_r. destruct (all_newline s).
    + induction (String.length s) as [|n IH]; [reflexivity|].
      cbn [Nat.iter nat_rect]. rewrite close_line_embeds. exact IH.
    + apply decode_pieces_embeds.
  - rewrite push_segment_embeds. reflexivity.
  - rewrite push_segment_embeds. cbn. rewrite app_nil_r. reflexivity.
  - rewrite push_segment_embeds. cbn. rewrite app_nil_r. reflexivity.
Qed.

Lemma decode_run_embeds (ops : Delta) :
  ∀ st, state_embeds (decode_run ops st) = state_embeds st ++ delta_embeds ops.
Proof.
  induction ops as [|op ops IH]; intros st.
  - cbn. rewrite app_nil_r. reflexivity.
  - change (decode_run (op :: ops) st) with (decode_run ops (decode_op st op)).
    rewrite IH, decode_op_embeds, <- app_assoc. unfold delta_embeds.
    change (omap op_embed (op :: ops))
      with (match op_embed op with
            | Some e => e :: omap op_embed ops
            | None => omap op_embed ops
            end).
    destruct (op_embed op); reflexivity.
Qed.

Lemma decode_finish_embeds (st : DecodeState) :
  lines_embeds (decode_finish st) = state_embeds st.
Proof.
  unfold decode_finish, state_embeds. destruct st as [res [|seg segs]]; cbn [fst snd].
  - cbn. rewrite app_nil_r. reflexivity.
  - rewrite lines_embeds_app. cbn [lines_embeds flat_map line_segments].
    rewrite app_nil_r. reflexivity.
Qed.

(** X4.  Decoding keeps the embedded objects of a Delta, each with its
    attributes, in their order: none is lost, added or moved. *)
Theorem decodeContent_embeds (ops : Delta) :
  lines_embeds (decodeContent (Some ops)) = delta_embeds ops.
Proof.
  unfold decodeContent.
  change (fold_left decode_op ?d ?st) with (decode_run d st).
  rewrite decode_finish_embeds, decode_run_embeds. reflexivity.
Qed.

Lemma delta_embeds_units (d : Delta) :
  delta_embeds d = omap unit_embed (delta_units d).
Proof.
  unfold delta_embeds, delta_units.
  induction d as [|op d IH]; [reflexivity|].
  cbn [omap flat_map]. rewrite omap_app, <- IH.
  destruct op as [[s|e] a|n a|n]; cbn [op_embed op_units]; try reflexivity.
  unfold call_units. cbn [fst snd].
  induction (list_ascii_of_string s) as [|ch chs IHs]; [reflexivity|exact IHs].
Qed.

Lemma segment_calls_embeds (l : Line) :
  omap unit_embed (flat_map call_units (segment_calls l))
  = omap segment_embed (line_segments l).
Proof.
  unfold segment_calls. induction (line_segments l) as [|seg segs IH]; [reflexivity|].
  cbn [map flat_map omap]. rewrite omap_app, IH.
  destruct seg as [[s|e] a]; unfold segment_embed, call_units; cbn [fst snd seg_insert seg_attributes].
  - assert (Hs : omap unit_embed
                   (map (fun ch => (IText (String ch EmptyString), a))
                      (list_ascii_of_string s)) = [])
      by (induction (list_ascii_of_string s) as [|ch chs IHs]; [reflexivity|exact IHs]).
    rewrite Hs. reflexivity.
  - reflexivity.
Qed.

Lemma insert_calls_embeds (x : list Line) :
  omap unit_embed (flat_map call_units (insert_calls x)) = lines_embeds x.
Proof.
  induction x as [|l rest IH]; [reflexivity|].
  cbn [insert_calls lines_embeds flat_map].
  rewrite flat_map_app, omap_app, segment_calls_embeds. f_equal.
  destruct rest as [|l2 rest].
  - destruct (decide (line_attributes l = ∅)); reflexivity.
  - cbn [flat_map]. rewrite omap_app. exact IH.
Qed.

(** X5.  Encoding keeps the embedded objects of a document, each with its
    attributes, in their order. *)
Theorem encodeContent_embeds (lines : list Line) :
  delta_embeds (encodeContent lines) = lines_embeds lines.
Proof.
  rewrite delta_embeds_units, encodeContent_calls, apply_calls_units.
  cbn [delta_units flat_map app]. apply insert_calls_embeds.
Qed.

(** ** One line per line feed *)

Lemma count_newlines_all_newline (s : string) :
  all_newline s = true → count_newlines s = String.length s.
Proof.
  induction s as [|c s IH]; [reflexivity|]. cbn.
  intros H. apply andb_true_iff in H as [-> Hs]. rewrite (IH Hs). reflexivity.
Qed.

Lemma split_nl_length (s : string) : length (split_nl s) = S (count_newlines s).
Proof.
  induction s as [|c s IH]; [reflexivity|]. cbn [split_nl count_newlines].
  destruct (Ascii.eqb c nl).
  - cbn [length]. rewrite IH. reflexivity.
  - destruct (split_nl s); [discriminate|]. cbn [length] in *. lia.
Qed.

Lemma iter_close_line_length (a : AttributeMap) (n : nat) (st : DecodeState) :
  length (Nat.iter n (close_line a) st).1 = length st.1 + n.
Proof.
  induction n as [|n IH]; [cbn; lia|].
  cbn [Nat.iter nat_rect]. unfold close_line at 1. cbn [fst].
  rewrite length_app. unfold Nat.iter in IH. rewrite IH. cbn [length]. lia.
Qed.

Lemma decode_pieces_length (a : AttributeMap) (pieces : list string) :
  ∀ i st,
    length (decode_pieces i pieces a st).1
    = length st.1 + match i with
                    | O => pred (length pieces)
                    | S _ => length pieces
                    end.
Proof.
  induction pieces as [|piece pieces IH]; intros i st.
  - destruct i; cbn; lia.
  - cbn [decode_pieces]. rewrite IH. unfold push_segment. cbn [fst length].
    destruct i; [cbn; lia|]. unfold close_line. cbn [fst].
    rewrite length_app. cbn [length]. lia.
Qed.

Lemma decode_op_length (op : Op) (st : DecodeState) :
  length (decode_op st op).1 = length st.1 + op_newlines op.
Proof.
  unfold decode_op, op_newlines.
  destruct op as [[s|e] a|n a|n]; cbn [op_insert op_attributes].
  - destruct (all_newline s) eqn:Hs.
    + rewrite iter_close_line_length, (count_newlines_all_newline s Hs). reflexivity.
    + rewrite decode_pieces_length, split_nl_length. reflexivity.
  - cbn. lia.
  - cbn. lia.
  - cbn. lia.
Qed.

Lemma decode_run_length (ops : Delta) :
  ∀ st, length (decode_run ops st).1 = length st.1 + delta_newlines ops.
Proof.
  induction ops as [|op ops IH]; intros st; [cbn; lia|].
  change (decode_run (op :: ops) st) with (decode_run ops (decode_op st op)).
  rewrite IH, decode_op_length. unfold delta_newlines. cbn [foldr]. lia.
Qed.

(** X6.  The decoded document has one line per line feed of the Delta, and
    one more when something follows the last line feed. *)
Theorem decodeContent_line_count (ops : Delta) :
  (delta_newlines ops ≤ length (decodeContent (Some ops)))%nat
  ∧ (length (decodeContent (Some ops)) ≤ S (delta_newlines ops))%nat.
Proof.
  unfold decodeContent.
  change (fold_left decode_op ?d ?st) with (decode_run d st).
  pose proof (decode_run_length ops ([], [])) as H. cbn [fst length] in H.
  unfold decode_finish. destruct (decode_run ops ([], [])).2.
  - lia.
  - rewrite length_app. cbn [length]. lia.
Qed.

(** * Further properties of [_removeEmptyLines] *)

Lemma dropRightWhile_split {A : Type} (p : A → bool) (l : list A) :
  ∃ dropped, l = dropRightWhile p l ++ dropped ∧ forallb p dropped = true.
Proof.
  induction l as [|a rest (dropped & Hrest & Hall)]; [exists []; auto|].
  cbn [dropRightWhile]. destruct (dropRightWhile p rest) as [|k ks].
  - cbn [app] in Hrest. subst dropped. destruct (p a) eqn:Hp.
    + exists (a :: rest). split; [reflexivity|]. cbn. rewrite Hp. exact Hall.
    + exists rest. split; [reflexivity|exact Hall].
  - exists dropped. split; [|exact Hall]. rewrite Hrest at 1. reflexivity.
Qed.

Lemma dropRightWhile_fixed {A : Type} (p : A → bool) (l : list A) :
  match last l with Some x => p x = false | None => True end →
  dropRightWhile p l = l.
Proof.
  induction l as [|a rest IH]; [reflexivity|].
  intros H. cbn [dropRightWhile]. destruct rest as [|b rest].
  - cbn in *. rewrite H. reflexivity.
  - rewrite last_cons_cons in H. rewrite (IH H). reflexivity.
Qed.

(** X7.  [_removeEmptyLines] cuts off a suffix of the document made of empty
    lines only, keeps the rest as it is, and applied again changes nothing;
    it leaves a document alone exactly when the last line is not empty. *)
Theorem removeEmptyLines_suffix (lines : list Line) :
  (∃ dropped,
     lines = _removeEmptyLines lines ++ dropped
     ∧ forallb line_isEmpty dropped = true)
  ∧ _removeEmptyLines (_removeEmptyLines lines) = _removeEmptyLines lines
  ∧ (_removeEmptyLines lines = lines ↔ no_trailing_empty lines = true).
Proof.
  assert (Hfix : ∀ x, no_trailing_empty x = true → _removeEmptyLines x = x).
  { intros x Hx. apply dropRightWhile_fixed. unfold no_trailing_empty in Hx.
    destruct (last x); [apply negb_true_iff, Hx|exact I]. }
  split; [apply dropRightWhile_split|]. split.
  - apply Hfix, removeEmptyLines_no_trailing_empty.
  - split; [|apply Hfix].
    intros H. rewrite <- H. apply removeEmptyLines_no_trailing_empty.
Qed.

(** * Further properties of the encoder *)

(** X8.  A last line without segments and without attributes shows in the
    encoding only as the closing newline of the line before it: when that
    line has block attributes, which puts a closing newline after it
    anyway, the blank line leaves no trace. *)
Theorem encodeContent_blank_last_line (lines : list Line) (l : Line) :
  encodeContent (lines ++ [l; blank_line])
  = if decide (line_attributes l = ∅)
    then Delta_insert (encodeContent (lines ++ [l])) (IText newline) (Some ∅)
    else encodeContent (lines ++ [l]).
Proof.
  assert (Hcalls : insert_calls (lines ++ [l; blank_line])
                   = insert_calls_every_line lines ++ segment_calls l ++ [closing_newline l]).
  { change (lines ++ [l; blank_line]) with (lines ++ [l] ++ [blank_line]).
    rewrite app_assoc, insert_calls_snoc.
    unfold insert_calls_every_line. rewrite flat_map_app. cbn [flat_map].
    change (segment_calls blank_line) with (@nil InsertCall).
    cbn [line_attributes blank_line].
    rewrite (decide_True (P := _ = _)) by reflexivity.
    cbn [app]. rewrite !app_nil_r. reflexivity. }
  rewrite !encodeContent_calls, Hcalls, insert_calls_snoc.
  destruct (decide (line_attributes l = ∅)) as [He|Hne]; [|reflexivity].
  rewrite app_nil_r, !app_assoc, apply_calls_app.
  unfold closing_newline. rewrite He. reflexivity.
Qed.

(** The empty document and the document of one blank line are both
    encoded as the empty Delta, which decodes to the empty document. *)
Example blank_document_encoded :
  encodeContent [] = [] ∧ encodeContent [blank_line] = []
  ∧ decodeContent (Some []) = [].
Proof. repeat split. Qed.

(** * The asset list *)

Lemma compact_app (l1 l2 : list (option string)) :
  compact (l1 ++ l2) = compact l1 ++ compact l2.
Proof. unfold compact. apply omap_app. Qed.

Lemma assets_of_embeds (d : Delta) :
  compact (map asset_of_op d) = compact (map embed_uri (delta_embeds d)).
Proof.
  unfold delta_embeds. induction d as [|op d IH]; [reflexivity|].
  change (map asset_of_op (op :: d)) with ([asset_of_op op] ++ map asset_of_op d).
  rewrite compact_app, IH.
  destruct op as [[s|e] a|n a|n]; try reflexivity.
  change (omap op_embed (OpInsert (IEmbed e) a :: d))
    with ((e, default ∅ a) :: omap op_embed d).
  change (map embed_uri ((e, default ∅ a) :: omap op_embed d))
    with ([embed_uri (e, default ∅ a)] ++ map embed_uri (omap op_embed d)).
  rewrite compact_app. reflexivity.
Qed.

Lemma segment_uris_embeds (x : list Line) :
  compact (segment_uris x) = compact (map embed_uri (lines_embeds x)).
Proof.
  unfold segment_uris, lines_embeds.
  induction x as [|l rest IH]; [reflexivity|].
  cbn [flat_map]. rewrite !map_app, !compact_app, IH. f_equal.
  induction (line_segments l) as [|seg segs IHs]; [reflexivity|].
  change (map (fun seg0 => image_uri (seg_insert seg0)) (seg :: segs))
    with ([image_uri (seg_insert seg)]
          ++ map (fun seg0 => image_uri (seg_insert seg0)) segs).
  rewrite compact_app, IHs.
  destruct seg as [[s|e] a]; [reflexivity|].
  change (omap segment_embed (mkSegment (IEmbed e) a :: segs))
    with ((e, a) :: omap segment_embed segs).
  change (map embed_uri ((e, a) :: omap segment_embed segs))
    with ([embed_uri (e, a)] ++ map embed_uri (omap segment_embed segs)).
  rewrite compact_app. reflexivity.
Qed.

Lemma encode_embeds (x : list Line) : delta_embeds (encodeContent x) = lines_embeds x.
Proof.
  rewrite delta_embeds_units, encodeContent_calls, apply_calls_units.
  cbn [delta_units flat_map app]. apply insert_calls_embeds.
Qed.

(** X9.  The asset list of the handle is the list of the image URIs of the
    segments of the value, in document order, without the empty ones. *)
Theorem assets_of_value {Q : Type} (c : Component Q) :
  assets c = compact (segment_uris (default [] (value c))).
Proof.
  unfold assets, content.
  rewrite assets_of_embeds, encode_embeds, segment_uris_embeds. reflexivity.
Qed.

Example gallery_assets : assets gallery = ["a.png"; "c.png"].
Proof. vm_compute. reflexivity. Qed.

(** ** The asset list after a replacement *)

Lemma rewritten_embeds (m : gmap string string) (ops ops' : Delta) :
  Forall2 (fun op op' => op_attributes op' = op_attributes op
                         ∧ op_insert op' = rewrite_insert m <$> op_insert op)
    ops ops' →
  delta_embeds ops' = map (rewrite_embed m) (delta_embeds ops).
Proof.
  unfold delta_embeds.
  induction 1 as [|op op' ops ops' [Ha Hi] _ IH]; [reflexivity|].
  assert (Hop : op_embed op' = rewrite_embed m <$> op_embed op).
  { destruct op as [[s|e] a|n a|n], op' as [i' a'|n' a'|n'];
      cbn in Ha, Hi; try discriminate; try reflexivity; subst a'.
    - injection Hi as ->. reflexivity.
    - injection Hi as ->. unfold rewrite_insert, rewrite_embed.
      cbn [op_embed fmap option_fmap option_map fst snd].
      destruct (replacement m (IEmbed e)); reflexivity. }
  change (omap op_embed (op' :: ops'))
    with (match op_embed op' with
          | Some p => p :: omap op_embed ops'
          | None => omap op_embed ops'
          end).
  change (omap op_embed (op :: ops))
    with (match op_embed op with
          | Some p => p :: omap op_embed ops
          | None => omap op_embed ops
          end).
  rewrite Hop, IH. destruct (op_embed op); reflexivity.
Qed.

(** What [replaceAssets] hands over when the editor exists and something
    matches, in terms of embeds. *)
Lemma replaceAssets_emitted {Q : Type} (m : gmap string string) (c : Component Q)
    (editor : Q) :
  editorRef c = Some editor →
  Exists (fun op => is_Some (op_replacement m op)) (content c) →
  ∃ doc,
    replaceAssets m c = (c, mkOutcome [doc] [])
    ∧ lines_embeds doc = map (rewrite_embed m) (delta_embeds (content c)).
Proof.
  intros Hed Hex.
  destruct (replace_ops_rewritten m (content c) false) as (ops' & Hops & _ & Hai).
  exists (decodeContent (Some ops')). unfold replaceAssets. rewrite Hed, Hops. cbn [orb].
  assert (Hflag : existsb (fun op => bool_decide (is_Some (op_replacement m op)))
                    (content c) = true).
  { apply existsb_exists. apply Exists_exists in Hex as (op & Hin & Hop).
    exists op. split; [apply list_elem_of_In; exact Hin|].
    apply bool_decide_eq_true. exact Hop. }
  rewrite Hflag. split; [reflexivity|].
  unfold decodeContent.
  change (fold_left decode_op ?d ?st) with (decode_run d st).
  rewrite decode_finish_embeds, decode_run_embeds. cbn [state_embeds app].
  apply rewritten_embeds, Hai.
Qed.

Lemma Object_prototype_nonempty (uri : string) :
  bool_decide (uri ∈ Object_prototype) = true → uri ≠ EmptyString.
Proof. intros Hin ->. vm_compute in Hin. discriminate. Qed.

Lemma embed_uri_renamed (m : gmap string string) (l : list (gmap string JValue * AttributeMap)) :
  empty_uri_kept m →
  compact (map embed_uri (map (rewrite_embed m) l))
  = omap (rename m) (compact (map embed_uri l)).
Proof.
  intros Hempty. induction l as [|p l IH]; [reflexivity|].
  change (map embed_uri (map (rewrite_embed m) (p :: l)))
    with ([embed_uri (rewrite_embed m p)] ++ map embed_uri (map (rewrite_embed m) l)).
  change (map embed_uri (p :: l)) with ([embed_uri p] ++ map embed_uri l).
  rewrite !compact_app, omap_app, IH. f_equal.
  unfold rewrite_embed, replacement, embed_uri, rename, get_property.
  destruct (image_uri (IEmbed p.1)) as [uri|] eqn:Huri.
  - destruct (m !! uri) as [replace|] eqn:Hm.
    + cbn [truthy]. destruct (bool_decide (replace = EmptyString)) eqn:Hr.
      * cbn [negb]. rewrite Huri. cbn.
        destruct (bool_decide (uri = EmptyString)); [reflexivity|].
        cbn. rewrite Hm, Hr. reflexivity.
      * apply bool_decide_eq_false in Hr.
        assert (Hne : uri ≠ EmptyString).
        { intros ->. apply Hr, Hempty, Hm. }
        cbn. rewrite lookup_singleton_eq.
        rewrite !bool_decide_eq_false_2 by assumption.
        cbn. rewrite Hm, bool_decide_eq_false_2 by assumption. reflexivity.
    + destruct (bool_decide (uri ∈ Object_prototype)) eqn:Hin.
      * pose proof (Object_prototype_nonempty uri Hin) as Hne.
        cbn. rewrite lookup_singleton_eq.
        rewrite bool_decide_eq_false_2 by assumption.
        cbn. rewrite Hm, Hin. reflexivity.
      * rewrite Huri. cbn. destruct (bool_decide (uri = EmptyString)); [reflexivity|].
        cbn. rewrite Hm, Hin. reflexivity.
  - rewrite Huri. reflexivity.
Qed.

(** X10.  When [replaceAssets] hands a document over and the parent takes
    it as the new value, the asset list is the one from before with every
    URI that [m] maps to a non-empty string replaced by it, and without the
    URIs that [m] does not hold and that name a member of
    [Object.prototype], provided [m] does not put a URI in the place of the
    empty one. *)
Theorem assets_after_replaceAssets {Q : Type} (m : gmap string string)
    (c : Component Q) (editor : Q) :
  editorRef c = Some editor →
  Exists (fun op => is_Some (op_replacement m op)) (content c) →
  empty_uri_kept m →
  ∃ doc,
    emitted (replaceAssets m c).2 = [doc]
    ∧ assets (adopt doc c) = omap (rename m) (assets c).
Proof.
  intros Hed Hex Hempty.
  destruct (replaceAssets_emitted m c editor Hed Hex) as (doc & Hr & Hemb).
  exists doc. rewrite Hr. split; [reflexivity|].
  unfold assets. rewrite !assets_of_embeds.
  change (content (adopt doc c)) with (encodeContent doc).
  rewrite (encode_embeds doc), Hemb.
  apply embed_uri_renamed, Hempty.
Qed.

Lemma assets_after_replaceAssets_witness :
  ∃ doc,
    emitted (replaceAssets {[ "a.png" := "b.png" ]} gallery).2 = [doc]
    ∧ assets (adopt doc gallery) = omap (rename {[ "a.png" := "b.png" ]}) (assets gallery).
Proof.
  apply (assets_after_replaceAssets {[ "a.png" := "b.png" ]} gallery gallery_editor).
  - reflexivity.
  - apply (bool_decide_unpack _). vm_compute. exact I.
  - intros replace H. vm_compute in H. discriminate.
Defined.

Lemma no_replacement_embeds (m : gmap string string) (d : Delta) :
  Forall (fun p => replacement m (IEmbed p.1) = None) (delta_embeds d) →
  Forall (fun op => op_replacement m op = None) d.
Proof.
  unfold delta_embeds. induction d as [|op d IH]; intros H; [constructor|].
  destruct op as [[s|e] a|n a|n].
  - constructor; [reflexivity|apply IH, H].
  - change (omap op_embed (OpInsert (IEmbed e) a :: d))
      with ((e, default ∅ a) :: omap op_embed d) in H.
    apply Forall_cons in H as [He Hd]. constructor; [exact He|apply IH, Hd].
  - constructor; [reflexivity|apply IH, H].
  - constructor; [reflexivity|apply IH, H].
Qed.

Lemma rewrite_embed_final (m : gmap string string)
    (p : gmap string JValue * AttributeMap) :
  targets_final m → replacement m (IEmbed (rewrite_embed m p).1) = None.
Proof.
  intros Hfinal. unfold rewrite_embed.
  destruct (replacement m (IEmbed p.1)) as [replace|] eqn:Hp; [|exact Hp].
  cbn [fst]. unfold replacement, image_uri, get_property in Hp |- *.
  rewrite lookup_singleton_eq.
  destruct (p.1 !! "image") as [[uri| | | |]|]; try discriminate.
  destruct (m !! uri) as [r|] eqn:Hm.
  - cbn [truthy] in Hp. destruct (bool_decide (r = EmptyString)) eqn:Hr; [discriminate|].
    injection Hp as <-. apply bool_decide_eq_false in Hr.
    destruct (Hfinal uri r Hm Hr) as [-> | [-> Hout]]; [reflexivity|].
    rewrite bool_decide_eq_false_2 by exact Hout. reflexivity.
  - destruct (bool_decide (uri ∈ Object_prototype)); [|discriminate].
    injection Hp as <-. reflexivity.
Qed.

(** X11.  When no URI that [m] puts in is itself replaced when looked up
    in [m] (neither by a string of [m] nor by a member of
    [Object.prototype]), a second [replaceAssets] with the same map, after
    the parent has taken the document of the first as the new value, finds
    nothing to replace: no callback, nothing changed. *)
Theorem replaceAssets_twice {Q : Type} (m : gmap string string)
    (c : Component Q) (editor : Q) :
  editorRef c = Some editor →
  Exists (fun op => is_Some (op_replacement m op)) (content c) →
  targets_final m →
  ∃ doc,
    emitted (replaceAssets m c).2 = [doc]
    ∧ replaceAssets m (adopt doc c) = (adopt doc c, silent).
Proof.
  intros Hed Hex Hfinal.
  destruct (replaceAssets_emitted m c editor Hed Hex) as (doc & Hr & Hemb).
  exists doc. rewrite Hr. split; [reflexivity|].
  unfold replaceAssets. cbn [adopt editorRef]. rewrite Hed.
  rewrite replace_ops_unchanged; [reflexivity|].
  apply no_replacement_embeds.
  change (content (adopt doc c)) with (encodeContent doc).
  rewrite (encode_embeds doc), Hemb. apply Forall_forall. intros p Hin.
  apply list_elem_of_fmap in Hin as (p0 & -> & _).
  apply rewrite_embed_final, Hfinal.
Qed.

Lemma replaceAssets_twice_witness :
  ∃ doc,
    emitted (replaceAssets {[ "a.png" := "b.png" ]} gallery).2 = [doc]
    ∧ replaceAssets {[ "a.png" := "b.png" ]} (adopt doc gallery)
      = (adopt doc gallery, silent).
Proof.
  apply (replaceAssets_twice {[ "a.png" := "b.png" ]} gallery gallery_editor).
  - reflexivity.
  - apply (bool_decide_unpack _). vm_compute. exact I.
  - intros uri replace H Hne.
    destruct (decide (uri = "a.png")) as [->|Hu].
    + rewrite lookup_singleton_eq in H. injection H as <-. right.
      split; [reflexivity|]. intros Hin.
      apply (bool_decide_pack _) in Hin. vm_compute in Hin. exact Hin.
    + rewrite lookup_singleton_ne in H by congruence. discriminate.
Defined.

(** ** The image format *)

Lemma imgAttrs_cases (k : string) :
  k ∈ imgAttrs ↔ k = "alt" ∨ k = "height" ∨ k = "width".
Proof. unfold imgAttrs. rewrite !elem_of_cons, elem_of_nil. tauto. Qed.

Lemma formats_lookup (domNode : DomNode) (k : string) :
  formats domNode !! k
  = if bool_decide (k ∈ imgAttrs) then Some <$> domNode !! k else None.
Proof.
  unfold formats, imgAttrs. cbn [List.filter].
  destruct (bool_decide (k ∈ ["alt"; "height"; "width"])) eqn:Hk.
  - apply bool_decide_eq_true in Hk. apply imgAttrs_cases in Hk.
    destruct (domNode !! "alt") as [a|] eqn:Ha,
             (domNode !! "height") as [h|] eqn:Hh,
             (domNode !! "width") as [w|] eqn:Hw;
      cbn; unfold fromPairs; cbn;
      destruct Hk as [-> | [-> | ->]]; simplify_map_eq; reflexivity.
  - apply bool_decide_eq_false in Hk. rewrite (imgAttrs_cases k) in Hk.
    destruct (domNode !! "alt") as [a|] eqn:Ha,
             (domNode !! "height") as [h|] eqn:Hh,
             (domNode !! "width") as [w|] eqn:Hw;
      cbn; unfold fromPairs; cbn;
      repeat (rewrite lookup_insert_ne by (intros <-; tauto));
      apply lookup_empty.
Qed.

(** X12.  [formats] reports the [alt], [height] and [width] attributes the
    element has, each with its value, and nothing else. *)
Theorem formats_filter (domNode : DomNode) :
  formats domNode = Some <$> filter (fun kv => kv.1 ∈ imgAttrs) domNode.
Proof.
  apply map_eq. intros k. rewrite formats_lookup, lookup_fmap.
  destruct (bool_decide (k ∈ imgAttrs)) eqn:Hk.
  - apply bool_decide_eq_true in Hk.
    destruct (domNode !! k) as [v|] eqn:Hv.
    + erewrite map_lookup_filter_Some_2; [reflexivity|exact Hv|exact Hk].
    + rewrite map_lookup_filter_None_2; [reflexivity|]. left. exact Hv.
  - apply bool_decide_eq_false in Hk.
    rewrite map_lookup_filter_None_2; [reflexivity|].
    right. intros v _ Hin. exact (Hk Hin).
Qed.

(** X13.  After [format] with one of the names [alt], [height], [width],
    [formats] reports the string of the value under that name when the value
    is truthy and no longer reports the name when it is falsy; what it
    reports under the other names is as before. *)
Theorem formats_after_format (toDOMString : JValue → string)
    (super_format : string → JValue → DomNode → DomNode)
    (name : string) (value : JValue) (domNode : DomNode) :
  name ∈ imgAttrs →
  formats (format toDOMString super_format name value domNode)
  = if truthy value then <[ name := Some (toDOMString value) ]> (formats domNode)
    else delete name (formats domNode).
Proof.
  intros Hname. unfold format. rewrite bool_decide_eq_true_2 by exact Hname.
  apply map_eq. intros k. rewrite formats_lookup.
  destruct (truthy value).
  - destruct (decide (k = name)) as [->|Hk].
    + rewrite bool_decide_eq_true_2 by exact Hname.
      rewrite !lookup_insert_eq. reflexivity.
    + rewrite !lookup_insert_ne by congruence. rewrite formats_lookup. reflexivity.
  - destruct (decide (k = name)) as [->|Hk].
    + rewrite bool_decide_eq_true_2 by exact Hname.
      rewrite !lookup_delete_eq. reflexivity.
    + rewrite !lookup_delete_ne by congruence. rewrite formats_lookup. reflexivity.
Qed.

Lemma formats_after_format_witness :
  "width" ∈ imgAttrs
  ∧ formats (format (fun v => match v with JStr s => s | _ => EmptyString end)
               (fun _ _ node => node) "width" (JStr "120") {[ "alt" := "logo"; "src" := "a.png" ]})
    = <[ "width" := Some "120" ]> (formats {[ "alt" := "logo"; "src" := "a.png" ]}).
Proof.
  split.
  - apply (bool_decide_unpack _). vm_compute. exact I.
  - apply (formats_after_format (fun v => match v with JStr s => s | _ => EmptyString end)
             (fun _ _ node => node) "width" (JStr "120")).
    apply (bool_decide_unpack _). vm_compute. exact I.
Defined.

(** ** Traces of the component *)

Section Traces.
Context {Q : Type} {ops : DeltaOps} {engine : Engine Q}.
Implicit Types (c : Component Q) (ev : Event (Q:=Q)) (evs : list (Event (Q:=Q))).

Lemma Outcome_app_silent_l (o : Outcome) : Outcome_app silent o = o.
Proof. destruct o. reflexivity. Qed.

Lemma value_effect_calls c : (length (calls (value_effect c).2) ≤ 2)%nat.
Proof.
  unfold value_effect. destruct (editorRef c) as [editor|]; [|cbn; lia].
  destruct (mouseDown c); [cbn; lia|].
  destruct (Nat.eqb _ 0); [cbn; lia|].
  destruct (if hasFocus editor then getSelection editor else None); cbn; lia.
Qed.

Lemma capture_effect_emitted c :
  (length (emitted (capture_effect c).2) + pending (capture_effect c).1 ≤ pending c)%nat
  ∧ calls (capture_effect c).2 = []
  ∧ mouseDown (capture_effect c).1 = mouseDown c
  ∧ editorRef (capture_effect c).1 = editorRef c.
Proof.
  unfold capture_effect, pending.
  destruct (editorRef c) as [editor|] eqn:He; [|cbn; rewrite He; auto with lia].
  destruct (mouseDown c) eqn:Hm; [cbn; rewrite He, Hm; auto with lia|].
  destruct (capture c) as [captured|] eqn:Hc; cbn; rewrite ?Hc, ?He, ?Hm; auto with lia.
Qed.

Lemma run_effects_bounds c :
  (length (emitted (run_effects c).2) + pending (run_effects c).1 ≤ pending c)%nat
  ∧ (length (calls (run_effects c).2) ≤ if mouseDown c then 0 else 2)%nat.
Proof.
  unfold run_effects.
  destruct (capture_effect_emitted c) as (He & Hk & Hm & _).
  destruct (capture_effect c) as [c1 o1]. cbn [fst snd] in *.
  destruct (value_effect_quiet c1) as (Hq & _ & _ & Hcap & _).
  pose proof (value_effect_calls c1) as Hcalls.
  assert (Hdown : mouseDown c1 = true → calls (value_effect c1).2 = []).
  { intros Hd. unfold value_effect. rewrite Hd. destruct (editorRef c1); reflexivity. }
  destruct (value_effect c1) as [c2 o2]. cbn [fst snd] in *.
  unfold Outcome_app, pending in *. cbn [emitted calls].
  rewrite Hq, Hk, Hcap, app_nil_r. cbn [app]. split; [exact He|].
  rewrite <- Hm. destruct (mouseDown c1); [rewrite Hdown by reflexivity; cbn; lia|exact Hcalls].
Qed.

Lemma step_bounds c ev :
  (length (emitted (step c ev).2) + pending (step c ev).1
   ≤ pending c + if local_edit ev then 1 else 0)%nat
  ∧ (length (calls (step c ev).2) ≤ if applies_value ev then 2 else 0)%nat.
Proof.
  destruct ev as [| |delta oldContent after|v|assets]; cbn [step local_edit applies_value].
  - destruct (mouseDown c) eqn:Hm; [cbn; lia|].
    destruct (run_effects_bounds (mkComponent (value c) true (capture c) (editorRef c)))
      as [He Hk].
    cbn [mouseDown] in Hk. unfold pending in *. cbn [capture] in He. lia.
  - destruct (mouseDown c) eqn:Hm; [|cbn; lia].
    destruct (run_effects_bounds (mkComponent (value c) false (capture c) (editorRef c)))
      as [He Hk].
    cbn [mouseDown] in Hk. unfold pending in *. cbn [capture] in He. lia.
  - destruct (editorRef c) as [editor|]; [|cbn; lia].
    destruct (capture_effect_emitted
                (mkComponent (value c) (mouseDown c)
                   (Some (Delta_compose oldContent delta)) (Some after)))
      as (He & Hk & _).
    rewrite Hk. unfold pending in *. cbn [capture] in He. cbn [length]. lia.
  - set (c1 := mkComponent v (mouseDown c) (capture c) (editorRef c)).
    destruct (value_effect_quiet c1) as (Hq & _ & _ & Hcap & _).
    pose proof (value_effect_calls c1) as Hk.
    unfold pending. rewrite Hq, Hcap. cbn [length capture c1]. lia.
  - unfold replaceAssets. destruct (editorRef c); [|cbn; lia].
    destruct (replace_ops assets false (content c)) as [ops' [|]]; cbn; lia.
Qed.

Lemma run_bounds c evs :
  (length (emitted (run c evs).2) + pending (run c evs).1
   ≤ pending c + length (List.filter local_edit evs))%nat
  ∧ (length (calls (run c evs).2) ≤ 2 * length (List.filter applies_value evs))%nat.
Proof.
  revert c. induction evs as [|ev evs IH]; intros c; [cbn; lia|].
  cbn [run List.filter].
  destruct (step_bounds c ev) as [He Hk].
  destruct (step c ev) as [c1 o1]. cbn [fst snd] in *.
  destruct (IH c1) as [He' Hk'].
  destruct (run c1 evs) as [c2 o2]. cbn [fst snd] in *.
  unfold Outcome_app. cbn [emitted calls]. rewrite !length_app.
  destruct (local_edit ev), (applies_value ev); cbn [length]; lia.
Qed.

(** X14.  The change callback is called at most once for each text change
    and each call of [replaceAssets] of a trace, plus once when a captured
    change was waiting at its start: a new value and the pointer alone
    never make the component call it. *)
Theorem emitted_at_most_local_edits c evs :
  (length (emitted (run c evs).2)
   ≤ pending c + length (List.filter local_edit evs))%nat.
Proof. destruct (run_bounds c evs) as [He _]. lia. Qed.

(** X15.  The component calls the engine only after a new value or the
    release of the pointer, and then at most twice: a text change, a press
    of the pointer and [replaceAssets] never make it set the contents or the
    selection. *)
Theorem calls_at_most_value_changes c evs :
  (length (calls (run c evs).2)
   ≤ 2 * length (List.filter applies_value evs))%nat.
Proof. destruct (run_bounds c evs) as [_ Hk]. exact Hk. Qed.

Lemma step_unmounted c ev :
  editorRef c = None →
  (step c ev).2 = silent ∧ editorRef (step c ev).1 = None.
Proof.
  intros He. destruct ev as [| |delta oldContent after|v|assets]; cbn [step].
  - destruct (mouseDown c); [auto|].
    unfold run_effects, capture_effect, value_effect. cbn [editorRef]. rewrite He. auto.
  - destruct (mouseDown c); [|auto].
    unfold run_effects, capture_effect, value_effect. cbn [editorRef]. rewrite He. auto.
  - rewrite He. auto.
  - unfold value_effect. cbn [editorRef]. rewrite He. auto.
  - unfold replaceAssets. rewrite He. auto.
Qed.

(** X16.  Before the editor exists, no event reaches the change callback
    or the engine, and none creates the editor. *)
Theorem run_unmounted c evs :
  editorRef c = None →
  (run c evs).2 = silent ∧ editorRef (run c evs).1 = None.
Proof.
  revert c. induction evs as [|ev evs IH]; intros c He; [auto|].
  cbn [run]. destruct (step_unmounted c ev He) as [Hs He1].
  destruct (step c ev) as [c1 o1]. cbn [fst snd] in *.
  destruct (IH c1 He1) as [Hs' He2].
  destruct (run c1 evs) as [c2 o2]. cbn [fst snd] in *.
  subst o1 o2. auto.
Qed.

Lemma step_value_held c (v : option (list Line)) :
  mouseDown c = true →
  step c (ValueChange v) = (mkComponent v true (capture c) (editorRef c), silent).
Proof.
  intros Hd. cbn [step]. unfold value_effect. cbn [editorRef mouseDown].
  rewrite Hd. destruct (editorRef c); reflexivity.
Qed.

Lemma run_values_held c (vs : list (option (list Line))) :
  mouseDown c = true →
  run c (map ValueChange vs)
  = (mkComponent (default (value c) (last vs)) true (capture c) (editorRef c), silent).
Proof.
  revert c. induction vs as [|v vs IH]; intros c Hd.
  - cbn. rewrite <- Hd. destruct c. reflexivity.
  - cbn [map run]. rewrite (step_value_held c v Hd).
    rewrite IH by reflexivity. cbn [value capture editorRef].
    rewrite last_cons. destruct (last vs); reflexivity.
Qed.

(** X17.  The values set while the pointer is down are applied at its
    release, and only the last of them: the trace does what the effects do
    once, on the last value, with the pointer up. *)
Theorem values_applied_on_release c (vs : list (option (list Line)))
    (v : option (list Line)) :
  mouseDown c = true →
  run c (map ValueChange vs ++ [ValueChange v; MouseUp])
  = run_effects (mkComponent v false (capture c) (editorRef c)).
Proof.
  intros Hd.
  rewrite (run_app c (map ValueChange vs) [ValueChange v; MouseUp]).
  rewrite (run_values_held c vs Hd).
  cbn [run]. rewrite step_value_held by reflexivity.
  cbn [step mouseDown value capture editorRef].
  destruct (run_effects _) as [c2 o2].
  rewrite !Outcome_app_silent_l.
  destruct o2 as [e2 k2]. unfold Outcome_app. cbn [emitted calls].
  rewrite !app_nil_r. reflexivity.
Qed.

End Traces.

Lemma run_unmounted_witness :
  (run gallery_unmounted
     [MouseDown; ValueChange (Some gallery_document_edited); MouseUp;
      ReplaceAssets {[ "a.png" := "b.png" ]}]).2 = silent
  ∧ editorRef
      (run gallery_unmounted
         [MouseDown; ValueChange (Some gallery_document_edited); MouseUp;
          ReplaceAssets {[ "a.png" := "b.png" ]}]).1 = None.
Proof.
  apply (run_unmounted gallery_unmounted). reflexivity.
Defined.

Lemma values_applied_on_release_witness :
  run gallery_pressed
    (map ValueChange [None; Some gallery_document]
     ++ [ValueChange (Some gallery_document_edited); MouseUp])
  = run_effects
      (mkComponent (Some gallery_document_edited) false (capture gallery_pressed)
         (editorRef gallery_pressed)).
Proof.
  apply (values_applied_on_release gallery_pressed). reflexivity.
Defined.

(** X18.  A text change made with the pointer up is handed to the change
    callback at once, and when the parent gives the document it was handed
    back as the new value, the component leaves the engine alone: neither the
    contents nor the selection is set again.  The engine is taken to hold
    [oldContent.compose(delta)] after the change and to give an empty
    difference between that document and itself. *)
Theorem text_change_feedback {Q : Type} {ops : DeltaOps} {engine : Engine Q}
    (c : Component Q) (editor after : Q) (delta oldContent : Delta) :
  let doc := _removeEmptyLines (decodeContent (Some (Delta_compose oldContent delta))) in
  editorRef c = Some editor → mouseDown c = false →
  getContents after = Delta_compose oldContent delta →
  Delta_length (Delta_diff (encodeContent doc) (encodeContent doc)) = 0 →
  run c [TextChange delta oldContent after; ValueChange (Some doc)]
  = (mkComponent (Some doc) false None (Some after), mkOutcome [doc] []).
Proof.
  intros doc He Hm Hafter Hdiff.
  cbn [run step]. rewrite He. unfold capture_effect. cbn [editorRef mouseDown capture value].
  rewrite Hm. fold doc.
  unfold value_effect. cbn [editorRef mouseDown capture value].
  unfold normalized_contents, content. cbn [value default].
  rewrite Hafter. fold doc. change (id doc) with doc. rewrite Hdiff. reflexivity.
Qed.

Lemma text_change_feedback_witness :
  run gallery
    [TextChange typed_letter (encodeContent gallery_document) gallery_editor_typed;
     ValueChange
       (Some (_removeEmptyLines
                (decodeContent
                   (Some (Delta_compose (encodeContent gallery_document) typed_letter)))))]
  = (mkComponent
       (Some (_removeEmptyLines
                (decodeContent
                   (Some (Delta_compose (encodeContent gallery_document) typed_letter)))))
       false None (Some gallery_editor_typed),
     mkOutcome
       [_removeEmptyLines
          (decodeContent
             (Some (Delta_compose (encodeContent gallery_document) typed_letter)))] []).
Proof.
  apply (text_change_feedback gallery gallery_editor gallery_editor_typed typed_letter
           (encodeContent gallery_document)).
  - reflexivity.
  - reflexivity.
  - reflexivity.
  - vm_compute. reflexivity.
Defined.

(** ** The attributes of the decoded segments and lines *)

Lemma close_line_segments (a : AttributeMap) (st : DecodeState) :
  state_segments (close_line a st) = state_segments st.
Proof.
  unfold state_segments, close_line. cbn [fst snd].
  rewrite flat_map_app. cbn [flat_map line_segments]. rewrite !app_nil_r. reflexivity.
Qed.

Lemma close_line_line_attributes (a : AttributeMap) (st : DecodeState) :
  map line_attributes (close_line a st).1 = map line_attributes st.1 ++ [a].
Proof. unfold close_line. cbn [fst]. rewrite map_app. reflexivity. Qed.

Lemma push_segment_segments (seg : Segment) (st : DecodeState) :
  state_segments (push_segment seg st) = state_segments st ++ [seg].
Proof. unfold state_segments, push_segment. cbn [fst snd]. apply app_assoc. Qed.

Lemma iter_close_line_segments (a : AttributeMap) (n : nat) (st : DecodeState) :
  state_segments (Nat.iter n (close_line a) st) = state_segments st.
Proof.
  induction n as [|n IH]; [reflexivity|].
  cbn [Nat.iter nat_rect]. rewrite close_line_segments. exact IH.
Qed.

Lemma iter_close_line_line_attributes (a : AttributeMap) (n : nat) (st : DecodeState) :
  map line_attributes (Nat.iter n (close_line a) st).1
  = map line_attributes st.1 ++ replicate n a.
Proof.
  induction n as [|n IH]; [cbn; rewrite app_nil_r; reflexivity|].
  cbn [Nat.iter nat_rect]. rewrite close_line_line_attributes.
  unfold Nat.iter in IH. rewrite IH, replicate_S_end, app_assoc. reflexivity.
Qed.

Lemma decode_pieces_segments (a : AttributeMap) (pieces : list string) :
  ∀ i st,
    state_segments (decode_pieces i pieces a st)
    = state_segments st ++ map (fun piece => mkSegment (IText piece) a) pieces.
Proof.
  induction pieces as [|piece pieces IH]; intros i st.
  - cbn. rewrite app_nil_r. reflexivity.
  - cbn [decode_pieces map]. rewrite IH, push_segment_segments.
    destruct i; [|rewrite close_line_segments]; rewrite <- app_assoc; reflexivity.
Qed.

Lemma decode_pieces_line_attributes (a : AttributeMap) (pieces : list string) :
  ∀ i st,
    map line_attributes (decode_pieces i pieces a st).1
    = map line_attributes st.1
      ++ replicate (match i with
                    | O => pred (length pieces)
                    | S _ => length pieces
                    end) ∅.
Proof.
  induction pieces as [|piece pieces IH]; intros i st.
  - destruct i; cbn; rewrite app_nil_r; reflexivity.
  - cbn [decode_pieces]. rewrite IH. unfold push_segment. cbn [fst length pred].
    destruct i; [reflexivity|].
    rewrite close_line_line_attributes, <- app_assoc. reflexivity.
Qed.

Lemma decode_op_segments (op : Op) (st : DecodeState) :
  state_segments (decode_op st op) = state_segments st ++ op_segments op.
Proof.
  unfold decode_op, op_segments, op_pieces.
  destruct (op_insert op) as [[s|e]|].
  - destruct (all_newline s).
    + rewrite iter_close_line_segments. cbn. rewrite app_nil_r. reflexivity.
    + rewrite decode_pieces_segments, map_map. reflexivity.
  - apply push_segment_segments.
  - apply push_segment_segments.
Qed.

Lemma decode_op_line_attributes (op : Op) (st : DecodeState) :
  map line_attributes (decode_op st op).1
  = map line_attributes st.1 ++ op_line_attributes op.
Proof.
  unfold decode_op, op_line_attributes, is_line_break, op_newlines.
  destruct op as [[s|e] a|n a|n]; cbn [op_insert op_attributes].
  - destruct (all_newline s) eqn:Hs.
    + rewrite iter_close_line_line_attributes, (count_newlines_all_newline s Hs).
      reflexivity.
    + rewrite decode_pieces_line_attributes, split_nl_length. reflexivity.
  - cbn. rewrite app_nil_r. reflexivity.
  - cbn. rewrite app_nil_r. reflexivity.
  - cbn. rewrite app_nil_r. reflexivity.
Qed.

Lemma decode_run_segments (ops : Delta) :
  ∀ st, state_segments (decode_run ops st) = state_segments st ++ flat_map op_segments ops.
Proof.
  induction ops as [|op ops IH]; intros st.
  - cbn. rewrite app_nil_r. reflexivity.
  - change (decode_run (op :: ops) st) with (decode_run ops (decode_op st op)).
    rewrite IH, decode_op_segments, <- app_assoc. reflexivity.
Qed.

Lemma decode_run_line_attributes (ops : Delta) :
  ∀ st, map line_attributes (decode_run ops st).1
        = map line_attributes st.1 ++ flat_map op_line_attributes ops.
Proof.
  induction ops as [|op ops IH]; intros st.
  - cbn. rewrite app_nil_r. reflexivity.
  - change (decode_run (op :: ops) st) with (decode_run ops (decode_op st op)).
    rewrite IH, decode_op_line_attributes, <- app_assoc. reflexivity.
Qed.

Lemma decode_finish_segments (st : DecodeState) :
  flat_map line_segments (decode_finish st) = state_segments st.
Proof.
  unfold decode_finish, state_segments. destruct st.2 as [|seg segs].
  - rewrite app_nil_r. reflexivity.
  - rewrite flat_map_app. cbn [flat_map line_segments]. rewrite app_nil_r. reflexivity.
Qed.

Lemma decode_finish_line_attributes (st : DecodeState) :
  map line_attributes (decode_finish st) = map line_attributes st.1 ++ open_line st.
Proof.
  unfold decode_finish, open_line. destruct st.2 as [|seg segs].
  - rewrite app_nil_r. reflexivity.
  - rewrite map_app. reflexivity.
Qed.

Lemma decodeContent_segments (ops : Delta) :
  flat_map line_segments (decodeContent (Some ops)) = flat_map op_segments ops.
Proof.
  unfold decodeContent. change (fold_left decode_op ?d ?st) with (decode_run d st).
  rewrite decode_finish_segments, decode_run_segments. reflexivity.
Qed.

Lemma decodeContent_line_attributes (ops : Delta) :
  map line_attributes (decodeContent (Some ops))
  = flat_map op_line_attributes ops ++ open_line (decode_run ops ([], [])).
Proof.
  unfold decodeContent. change (fold_left decode_op ?d ?st) with (decode_run d st).
  rewrite decode_finish_line_attributes, decode_run_line_attributes. reflexivity.
Qed.

(** C9.  An absent Delta decodes to the empty list.  In the decoding of a
    Delta, the segments are, in order, those of the operations one after the
    other, and each segment carries the [attributes] of the operation it
    comes from, [{}] when the operation has none; the lines are, in order,
    those the operations close, one per line feed, each with the
    [attributes] of its operation ([{}] when it has none) when the operation
    is made of line feeds only and with [{}] when the line feed stands
    inside a text, and a line left open at the end has [{}]. *)
Theorem decodeContent_attributes (ops : Delta) :
  decodeContent None = []
  ∧ flat_map line_segments (decodeContent (Some ops))
    = flat_map
        (fun op => map (fun i => mkSegment i (default ∅ (op_attributes op))) (op_pieces op))
        ops
  ∧ ∃ last : list AttributeMap,
      (last = [] ∨ last = [∅])
      ∧ map line_attributes (decodeContent (Some ops))
        = flat_map
            (fun op =>
               replicate (op_newlines op)
                 (if is_line_break op then default ∅ (op_attributes op) else ∅))
            ops
          ++ last.
Proof.
  split; [reflexivity|]. split; [apply decodeContent_segments|].
  exists (open_line (decode_run ops ([], []))). split.
  - unfold open_line. destruct (decode_run ops ([], [])).2; auto.
  - apply decodeContent_line_attributes.
Qed.

(** An operation without attributes next to one with attributes: each
    segment has the attributes of its own operation. *)
Example mixed_delta_decoded :
  decodeContent
    (Some [ OpInsert (IText "a") None;
            OpInsert (IText "b") (Some bold);
            OpInsert (IText newline) (Some header1);
            OpRetain 1 None ])
  = [ mkLine [text "a" ∅; text "b" bold] header1;
      mkLine [text EmptyString ∅] ∅ ].
Proof. vm_compute. reflexivity. Qed.

(** ** The round trip, exactly *)

Lemma all_newline_units (s : string) (a : AttributeMap) :
  all_newline s = true →
  call_units (IText s, a) = replicate (String.length s) (IText newline, a).
Proof.
  unfold call_units. cbn [fst snd].
  induction s as [|c s IH]; [reflexivity|].
  cbn [all_newline]. intros H. apply andb_true_iff in H as [Hc Hs].
  apply Ascii.eqb_eq in Hc. subst c.
  cbn [list_ascii_of_string map String.length replicate]. rewrite (IH Hs). reflexivity.
Qed.

Lemma call_units_cons (c : ascii) (s : string) (a : AttributeMap) :
  call_units (IText (String c s), a)
  = (IText (String c EmptyString), a) :: call_units (IText s, a).
Proof. reflexivity. Qed.

Lemma split_nl_units (s : string) (a : AttributeMap) :
  call_units (IText s, a) = join_units a a (split_nl s).
Proof.
  induction s as [|c s IH]; [reflexivity|].
  rewrite call_units_cons, IH. cbn [split_nl].
  destruct (Ascii.eqb c nl) eqn:Hc.
  - apply Ascii.eqb_eq in Hc. subst c.
    destruct (split_nl s) as [|piece pieces] eqn:Hs; [|reflexivity].
    destruct (split_nl_nonempty s Hs).
  - destruct (split_nl s) as [|piece pieces] eqn:Hs; [|reflexivity].
    destruct (split_nl_nonempty s Hs).
Qed.

Lemma close_line_units (a : AttributeMap) (st : DecodeState) :
  state_units (close_line a st) = state_units st ++ [(IText newline, a)].
Proof.
  unfold state_units, close_line. cbn [fst snd map flat_map].
  rewrite flat_map_app, app_nil_r. cbn [flat_map]. rewrite app_nil_r.
  rewrite <- app_assoc. reflexivity.
Qed.

Lemma push_segment_units (seg : Segment) (st : DecodeState) :
  state_units (push_segment seg st)
  = state_units st ++ call_units (seg_insert seg, seg_attributes seg).
Proof.
  unfold state_units, push_segment. cbn [fst snd].
  rewrite map_app, flat_map_app. cbn [map flat_map]. rewrite app_nil_r.
  apply app_assoc.
Qed.

Lemma iter_close_line_units (a : AttributeMap) (n : nat) (st : DecodeState) :
  state_units (Nat.iter n (close_line a) st)
  = state_units st ++ replicate n (IText newline, a).
Proof.
  induction n as [|n IH]; [cbn; rewrite app_nil_r; reflexivity|].
  cbn [Nat.iter nat_rect]. rewrite close_line_units.
  unfold Nat.iter in IH. rewrite IH, replicate_S_end, app_assoc. reflexivity.
Qed.

Lemma decode_pieces_units (a : AttributeMap) (pieces : list string) :
  ∀ i st,
    state_units (decode_pieces i pieces a st)
    = state_units st
      ++ match i with
         | O => join_units a ∅ pieces
         | S _ => flat_map (feed_then a ∅) pieces
         end.
Proof.
  induction pieces as [|piece pieces IH]; intros i st.
  - destruct i; cbn; rewrite app_nil_r; reflexivity.
  - cbn [decode_pieces]. rewrite IH, push_segment_units. cbn [seg_insert seg_attributes].
    destruct i.
    + cbn [join_units]. rewrite <- app_assoc. reflexivity.
    + rewrite close_line_units. cbn [flat_map]. unfold feed_then at 2.
      rewrite <- !app_assoc. reflexivity.
Qed.

Lemma decode_op_units (op : Op) (st : DecodeState) :
  op_canonical op = true → feeds_apart op = true →
  state_units (decode_op st op) = state_units st ++ op_units op.
Proof.
  intros Hc Hf. unfold decode_op.
  destruct op as [[s|e] a|n a|n]; cbn [op_insert op_attributes op_units];
    try discriminate.
  - destruct (all_newline s) eqn:Hs.
    + rewrite iter_close_line_units, (all_newline_units s _ Hs). reflexivity.
    + rewrite decode_pieces_units. f_equal.
      destruct a as [a|]; cbn [default].
      * cbn [feeds_apart] in Hf. rewrite Hs in Hf. cbn [orb] in Hf.
        apply negb_true_iff in Hf.
        rewrite (split_nl_plain s Hf). cbn. rewrite !app_nil_r. reflexivity.
      * symmetry. apply split_nl_units.
  - apply push_segment_units.
Qed.

Lemma canonical_forall (d : Delta) :
  canonical d = true → Forall (fun op => op_canonical op = true) d.
Proof.
  induction d as [|op d IH]; intros Hc; [constructor|].
  apply canonical_cons in Hc as (Ho & Hd & _). constructor; [exact Ho|apply IH, Hd].
Qed.

Lemma decode_run_units (d : Delta) :
  Forall (fun op => op_canonical op = true) d → forallb feeds_apart d = true →
  ∀ st, state_units (decode_run d st) = state_units st ++ delta_units d.
Proof.
  induction 1 as [|op d Ho _ IH]; intros Hf st.
  - cbn. rewrite app_nil_r. reflexivity.
  - cbn [forallb] in Hf. apply andb_true_iff in Hf as [Hop Hf].
    change (decode_run (op :: d) st) with (decode_run d (decode_op st op)).
    rewrite (IH Hf), (decode_op_units op st Ho Hop). unfold delta_units.
    cbn [flat_map]. rewrite <- app_assoc. reflexivity.
Qed.

Lemma decode_pieces_open (a : AttributeMap) (pieces : list string) :
  ∀ i st, pieces ≠ [] → (decode_pieces i pieces a st).2 ≠ [].
Proof.
  induction pieces as [|piece pieces IH]; intros i st Hne; [congruence|].
  cbn [decode_pieces]. destruct pieces as [|q rest].
  - cbn [decode_pieces]. unfold push_segment. cbn [snd].
    intros H. apply app_eq_nil in H as [_ H]. discriminate.
  - apply IH. discriminate.
Qed.

Lemma iter_close_line_closed (a : AttributeMap) (n : nat) (st : DecodeState) :
  (Nat.iter (S n) (close_line a) st).2 = []
  ∧ ∃ l, last (Nat.iter (S n) (close_line a) st).1 = Some l ∧ line_attributes l = a.
Proof.
  cbn [Nat.iter nat_rect]. unfold close_line at 1 3. cbn [fst snd].
  split; [reflexivity|]. eexists. rewrite last_snoc. split; reflexivity.
Qed.

Lemma string_length_nonempty (s : string) :
  s ≠ EmptyString → ∃ n, String.length s = S n.
Proof. destruct s as [|c s]; [congruence|]. intros _. exists (String.length s). reflexivity. Qed.

Lemma op_canonical_text (s : string) (a : option AttributeMap) :
  op_canonical (OpInsert (IText s) a) = true → s ≠ EmptyString ∧ a ≠ Some ∅.
Proof.
  cbn [op_canonical]. intros H. apply andb_true_iff in H as [Hs Ha].
  apply negb_true_iff, bool_decide_eq_false in Hs.
  apply negb_true_iff, bool_decide_eq_false in Ha. split; assumption.
Qed.

Lemma decode_run_closed (d : Delta) :
  stable d = true → closed_with_attributes (decode_run d ([], [])).
Proof.
  unfold stable. intros H.
  apply andb_true_iff in H as [H He]. apply andb_true_iff in H as [Hc _].
  destruct d as [|o d0] using rev_ind; [intros _; exact I|clear IHd0].
  rewrite decode_run_snoc. unfold ends_closed in He. rewrite last_snoc in He.
  pose proof (canonical_last _ o Hc (last_snoc _ _)) as Ho.
  set (st := decode_run d0 ([], [])).
  unfold closed_with_attributes, decode_op.
  destruct o as [[s|e] a|n a|n]; cbn [op_insert op_attributes]; try discriminate.
  - apply op_canonical_text in Ho as [Hs Ha].
    destruct (all_newline s) eqn:Hall.
    + destruct a as [a|]; [|discriminate]. cbn [default].
      destruct (string_length_nonempty s Hs) as [n Hn]. rewrite Hn.
      destruct (iter_close_line_closed a n st) as (_ & l & Hl & Hla).
      intros _. change (id a) with a. rewrite Hl, Hla.
      intros ->. apply Ha. reflexivity.
    + intros Hclosed. exfalso. revert Hclosed. apply decode_pieces_open.
      destruct s; cbn; [discriminate|].
      destruct (Ascii.eqb a0 nl); [discriminate|]. destruct (split_nl s); discriminate.
  - unfold push_segment. cbn [snd]. intros H.
    apply app_eq_nil in H as [_ H]. discriminate.
Qed.

Lemma closing_newline_units (l : Line) :
  call_units (closing_newline l) = [closing_newline l].
Proof. reflexivity. Qed.

Lemma every_line_units (lines : list Line) :
  flat_map call_units (insert_calls_every_line lines)
  = flat_map (fun l => line_units l ++ [closing_newline l]) lines.
Proof.
  unfold insert_calls_every_line.
  induction lines as [|l lines IH]; [reflexivity|].
  cbn [flat_map]. rewrite !flat_map_app, IH. reflexivity.
Qed.

Lemma document_units_snoc (lines : list Line) (l : Line) :
  document_units (lines ++ [l])
  = flat_map (fun l0 => line_units l0 ++ [closing_newline l0]) lines
    ++ line_units l
    ++ (if decide (line_attributes l = ∅) then [] else [closing_newline l]).
Proof.
  unfold document_units.
  rewrite insert_calls_snoc, !flat_map_app, every_line_units.
  f_equal. f_equal. destruct (decide (line_attributes l = ∅)); reflexivity.
Qed.

Lemma decode_finish_units (st : DecodeState) :
  closed_with_attributes st → document_units (decode_finish st) = state_units st.
Proof.
  unfold closed_with_attributes, decode_finish, state_units.
  destruct st as [lines segs]. cbn [fst snd].
  destruct segs as [|seg segs].
  - intros Hclosed. specialize (Hclosed eq_refl). cbn [map flat_map]. rewrite app_nil_r.
    destruct lines as [|l0 lines0] using rev_ind; [reflexivity|clear IHlines0].
    rewrite last_snoc in Hclosed.
    rewrite document_units_snoc, flat_map_app. cbn [flat_map].
    rewrite decide_False by exact Hclosed. rewrite app_nil_r. reflexivity.
  - intros _. rewrite document_units_snoc. cbn [line_attributes].
    rewrite decide_True by reflexivity. rewrite app_nil_r. reflexivity.
Qed.

Lemma encodeContent_units (x : list Line) :
  delta_units (encodeContent x) = document_units x.
Proof. rewrite encodeContent_calls, apply_calls_units. reflexivity. Qed.

Lemma encodeContent_is_canonical (x : list Line) : canonical (encodeContent x) = true.
Proof. rewrite encodeContent_calls. apply apply_calls_canonical. reflexivity. Qed.

(** Encoding the decoding of a stable Delta gives the Delta back. *)
Lemma encode_decode_stable (d : Delta) :
  stable d = true → encodeContent (decodeContent (Some d)) = d.
Proof.
  intros Hs. pose proof (decode_run_closed d Hs) as Hclosed.
  unfold stable in Hs.
  apply andb_true_iff in Hs as [Hs _]. apply andb_true_iff in Hs as [Hc Hf].
  apply canonical_units_inj; [apply encodeContent_is_canonical|exact Hc|].
  rewrite encodeContent_units. unfold decodeContent.
  change (fold_left decode_op ?ops ?st) with (decode_run ops st).
  rewrite (decode_finish_units _ Hclosed).
  rewrite (decode_run_units d (canonical_forall d Hc) Hf). reflexivity.
Qed.

(** The line feeds of a Delta and of a document, with their attributes. *)
Lemma feeds_app (us vs : list InsertCall) : feeds (us ++ vs) = feeds us ++ feeds vs.
Proof. apply omap_app. Qed.

Lemma feeds_text (s : string) (a : AttributeMap) :
  feeds (call_units (IText s, a)) = replicate (count_newlines s) a.
Proof.
  induction s as [|c s IH]; [reflexivity|].
  rewrite call_units_cons. cbn [count_newlines].
  change (feeds (?u :: ?us)) with (match unit_feed u with
                                  | Some y => y :: feeds us
                                  | None => feeds us
                                  end).
  rewrite IH. unfold unit_feed. cbn [fst snd].
  destruct (Ascii.eqb c nl) eqn:Hc.
  - apply Ascii.eqb_eq in Hc. subst c. rewrite decide_True by reflexivity. reflexivity.
  - apply Ascii.eqb_neq in Hc. rewrite decide_False; [reflexivity|].
    intros [= H]. apply Hc, H.
Qed.

Lemma feeds_op (op : Op) : feeds (op_units op) = op_feeds op.
Proof.
  unfold op_feeds, op_newlines.
  destruct op as [[s|e] a|n a|n]; cbn [op_units op_attributes]; try reflexivity.
  apply feeds_text.
Qed.

Lemma feeds_delta (d : Delta) : feeds (delta_units d) = flat_map op_feeds d.
Proof.
  unfold delta_units. induction d as [|op d IH]; [reflexivity|].
  cbn [flat_map]. rewrite feeds_app, feeds_op, IH. reflexivity.
Qed.

Lemma count_newlines_none (s : string) : has_newline s = false → count_newlines s = 0.
Proof.
  induction s as [|c s IH]; [reflexivity|]. cbn [has_newline count_newlines].
  intros H. apply orb_false_iff in H as [-> Hs]. rewrite (IH Hs). reflexivity.
Qed.

Lemma feeds_line (l : Line) :
  forallb segment_one_line (line_segments l) = true → feeds (line_units l) = [].
Proof.
  unfold line_units, segment_calls.
  induction (line_segments l) as [|seg segs IH]; [reflexivity|].
  cbn [forallb map flat_map]. intros H. apply andb_true_iff in H as [Hseg Hsegs].
  rewrite feeds_app, (IH Hsegs), app_nil_r.
  unfold segment_one_line in Hseg. destruct (seg_insert seg) as [s|e]; [|reflexivity].
  apply negb_true_iff in Hseg.
  rewrite feeds_text, (count_newlines_none s Hseg). reflexivity.
Qed.

Lemma feeds_closing_newline (l : Line) :
  feeds [closing_newline l] = [line_attributes l].
Proof. reflexivity. Qed.

Lemma feeds_every_line (lines : list Line) :
  lines_one_line lines = true →
  feeds (flat_map (fun l => line_units l ++ [closing_newline l]) lines)
  = map line_attributes lines.
Proof.
  unfold lines_one_line. induction lines as [|l lines IH]; [reflexivity|].
  cbn [forallb flat_map map]. intros H. apply andb_true_iff in H as [Hl Hlines].
  rewrite !feeds_app, (feeds_line l Hl), feeds_closing_newline, (IH Hlines). reflexivity.
Qed.

Lemma feeds_document_snoc (lines : list Line) (l : Line) :
  lines_one_line (lines ++ [l]) = true →
  feeds (document_units (lines ++ [l]))
  = map line_attributes lines
    ++ (if decide (line_attributes l = ∅) then [] else [line_attributes l]).
Proof.
  unfold lines_one_line. rewrite forallb_app. cbn [forallb].
  intros H. apply andb_true_iff in H as [Hlines Hl]. rewrite andb_true_r in Hl.
  rewrite document_units_snoc, !feeds_app, (feeds_every_line lines Hlines),
    (feeds_line l Hl).
  destruct (decide (line_attributes l = ∅)); reflexivity.
Qed.

Lemma flat_map_inj_length {A B : Type} (f g : A → list B) (l : list A)
    (t1 t2 : list B) :
  (∀ x, length (f x) = length (g x)) →
  flat_map f l ++ t1 = flat_map g l ++ t2 →
  Forall (fun x => f x = g x) l ∧ t1 = t2.
Proof.
  intros Hlen. induction l as [|x l IH]; cbn [flat_map app]; [auto|].
  rewrite <- !app_assoc. intros H.
  apply app_inj_1 in H as [Hx H]; [|apply Hlen].
  destruct (IH H) as [Hl Ht]. split; [constructor|]; assumption.
Qed.

Lemma op_feeds_length (op : Op) : length (op_feeds op) = length (op_line_attributes op).
Proof. unfold op_feeds, op_line_attributes. rewrite !length_replicate. reflexivity. Qed.

Lemma has_newline_count (s : string) :
  has_newline s = true → ∃ n, count_newlines s = S n.
Proof.
  induction s as [|c s IH]; [discriminate|]. cbn [has_newline count_newlines].
  destruct (Ascii.eqb c nl); [intros _; eexists; reflexivity|].
  cbn [orb]. intros H. destruct (IH H) as [n ->]. exists n. reflexivity.
Qed.

Lemma feeds_agree_apart (op : Op) :
  op_canonical op = true → op_feeds op = op_line_attributes op → feeds_apart op = true.
Proof.
  unfold op_feeds, op_line_attributes, is_line_break, op_newlines.
  destruct op as [[s|e] [a|]|n a|n]; cbn [op_insert op_attributes feeds_apart default];
    try reflexivity.
  intros Hc Heq. apply op_canonical_text in Hc as [_ Ha].
  destruct (all_newline s); [reflexivity|]. cbn [orb].
  destruct (has_newline s) eqn:Hs; [|reflexivity].
  destruct (has_newline_count s Hs) as [n Hn]. rewrite Hn in Heq.
  cbn [replicate] in Heq. injection Heq as -> _. congruence.
Qed.

Lemma open_line_after_break (s : string) (a : option AttributeMap) (st : DecodeState) :
  all_newline s = true → s ≠ EmptyString →
  open_line (decode_op st (OpInsert (IText s) a)) = [].
Proof.
  intros Hall Hs. unfold decode_op. cbn [op_insert]. rewrite Hall.
  destruct (string_length_nonempty s Hs) as [n ->].
  unfold open_line. cbn [op_attributes].
  destruct (iter_close_line_closed (default ∅ a) n st) as [H _].
  rewrite H. reflexivity.
Qed.

(** A document that decoding its encoding gives back has a stable
    encoding. *)
Lemma roundtrip_stable (x : list Line) :
  decodeContent (Some (encodeContent x)) = x → stable (encodeContent x) = true.
Proof.
  intros Hx. destruct x as [|l lines _] using rev_ind; [reflexivity|].
  set (d := encodeContent (lines ++ [l])) in *.
  pose proof (encodeContent_is_canonical (lines ++ [l])) as Hc. fold d in Hc.
  pose proof (decoded_one_line d) as Hone. rewrite Hx in Hone.
  pose proof (feeds_document_snoc lines l Hone) as Hfeeds.
  rewrite <- encodeContent_units in Hfeeds. fold d in Hfeeds.
  rewrite feeds_delta in Hfeeds.
  pose proof (decodeContent_line_attributes d) as Hattrs.
  rewrite Hx, map_app in Hattrs. cbn [map] in Hattrs.
  assert (Hagree : Forall (fun op => op_feeds op = op_line_attributes op) d
                   ∧ (if decide (line_attributes l = ∅) then [∅] else [])
                     = open_line (decode_run d ([], []))).
  { apply flat_map_inj_length; [apply op_feeds_length|].
    rewrite <- Hattrs, Hfeeds, <- app_assoc. f_equal.
    destruct (decide (line_attributes l = ∅)) as [->|]; reflexivity. }
  destruct Hagree as [Hagree Hopen].
  unfold stable. rewrite Hc. cbn [andb]. apply andb_true_iff. split.
  - apply forallb_forall. intros op Hin. apply list_elem_of_In in Hin.
    apply feeds_agree_apart.
    + pose proof (canonical_forall d Hc) as Hall. rewrite Forall_forall in Hall.
      apply Hall, Hin.
    + rewrite Forall_forall in Hagree. apply Hagree, Hin.
  - unfold ends_closed. destruct (last d) as [[[s|e] [a|]|n a|n]|] eqn:Hlast;
      try reflexivity.
    apply negb_true_iff. destruct (all_newline s) eqn:Hall; [exfalso|reflexivity].
    pose proof (canonical_last d _ Hc Hlast) as Ho.
    apply op_canonical_text in Ho as [Hs _].
    apply last_Some in Hlast as [d' Hd]. rewrite Hd in Hopen, Hattrs.
    rewrite decode_run_snoc, (open_line_after_break s None _ Hall Hs) in Hopen, Hattrs.
    destruct (decide (line_attributes l = ∅)) as [He|Hne]; [discriminate|].
    destruct (string_length_nonempty s Hs) as [n Hn].
    assert (Hop : op_line_attributes (OpInsert (IText s) None) = replicate n ∅ ++ [∅]).
    { unfold op_line_attributes, is_line_break, op_newlines.
      cbn [op_insert op_attributes default].
      rewrite Hall, (count_newlines_all_newline s Hall), Hn. apply replicate_S_end. }
    rewrite flat_map_app, app_nil_r in Hattrs. cbn [flat_map] in Hattrs.
    rewrite app_nil_r, Hop, app_assoc in Hattrs.
    apply app_inj_tail in Hattrs as [_ Hl]. exact (Hne Hl).
Qed.

(** The stable Deltas are exactly those that encoding their decoding gives
    back. *)
Lemma stable_encode_decode (d : Delta) :
  stable d = true ↔ encodeContent (decodeContent (Some d)) = d.
Proof.
  split; [apply encode_decode_stable|].
  intros Hd. rewrite <- Hd at 1. apply roundtrip_stable. rewrite Hd. reflexivity.
Qed.


(** Documents with an empty text segment that the decoder returns come
    back, each from a stable Delta. *)
Example after_feed_document_roundtrip :
  stable [ OpInsert (IText ("a" +:+ newline)) None; OpInsert (IText "b") (Some bold) ]
  = true
  ∧ decodeContent
      (Some [ OpInsert (IText ("a" +:+ newline)) None; OpInsert (IText "b") (Some bold) ])
    = after_feed_document
  ∧ decodeContent (Some (encodeContent after_feed_document)) = after_feed_document.
Proof. repeat split; vm_compute; reflexivity. Qed.

Example blank_between_document_roundtrip :
  encodeContent blank_between_document
  = [ OpInsert (IText ("Hello" +:+ newline +:+ newline +:+ "World")) None ]
  ∧ stable (encodeContent blank_between_document) = true
  ∧ decodeContent (Some (encodeContent blank_between_document))
    = blank_between_document.
Proof. repeat split; vm_compute; reflexivity. Qed.

(** A trailing empty line does not prevent the round trip, and its absence
    does not give it. *)
Example trailing_empty_document_roundtrip :
  _removeEmptyLines trailing_empty_document ≠ trailing_empty_document
  ∧ decodeContent (Some (encodeContent trailing_empty_document))
    = trailing_empty_document.
Proof.
  split; [|vm_compute; reflexivity].
  apply (bool_decide_eq_false_1 (_removeEmptyLines trailing_empty_document
                                 = trailing_empty_document)).
  vm_compute. reflexivity.
Qed.

(** A stable encoding is not enough: the encoding of a plain line before a
    bold one is stable, but its decoding has an empty segment in front of
    the bold text, which the document has not. *)
Example plain_then_bold_document_stable :
  stable (encodeContent plain_then_bold_document) = true
  ∧ decodeContent (Some (encodeContent plain_then_bold_document))
    ≠ plain_then_bold_document.
Proof.
  split; [vm_compute; reflexivity|].
  apply (bool_decide_eq_false_1 (decodeContent (Some (encodeContent plain_then_bold_document))
                                 = plain_then_bold_document)).
  vm_compute. reflexivity.
Qed.
